(** * The viewport camera of shapez.io (src/js/game/camera.js)

    A shallow embedding of the [Camera] class and a verification of its
    specification.

    Numbers.  JavaScript numbers are modelled as real numbers with exact
    arithmetic: no rounding, no overflow.  Comparisons are decided with the
    decision procedures of the real numbers and used as booleans, the way the
    source branches on them.  The special values (NaN and the infinities) do
    not exist in this model; the one place where the specification speaks
    about them (the pinch) is treated in the module [Ieee] below, over
    reals extended with those three values.

    Division.  A quotient of the source is the quotient of the real numbers
    wherever its divisor is not zero.  Where the divisor is zero the source
    yields an infinity or NaN and the real quotient stands for neither: the
    camera divides by [zoomLevel] in the pan, centering and keyboard
    channels, in the drag and pinch handlers, in the coordinate mapper and
    in the viewport queries, so a fact below about a number computed by such
    a quotient assumes a zoom level other than zero, and [Ieee.pinchCenter]
    gives the center that the pinch leaves when it divides by zero.

    Effects.  The camera is a mutable object; every method becomes a function
    from the camera before the call to the camera after it.  Event handlers
    also write a global ([clickDetectorGlobals.lastTouchTime]), log, dispatch
    signals and may raise a [TypeError]; they are functions on a [World] that
    return a [Completion].  The receivers of the signals are collaborators:
    the answer of a pre-handler is read from the environment, and no
    receiver calls back into the camera.

    Left out.  [event.preventDefault()] has no effect on the camera.  The
    [assert] calls of the source check that a number is finite, which every
    real number is.  The listeners are attached and detached by
    [internalInitEvents] and [cleanup]; here they are called directly.
    [deserialize] runs the deserializer of the base class,
    which is not among the sources, before it clamps. *)

From Stdlib Require Import Reals Lra Lia List Bool String ZArith.
Import ListNotations.

Open Scope R_scope.

(** ** JavaScript comparisons and truthiness on numbers *)

Module Js.

Definition gt (a b : R) : bool := if Rgt_dec a b then true else false.
Definition ge (a b : R) : bool := if Rge_dec a b then true else false.
Definition lt (a b : R) : bool := if Rlt_dec a b then true else false.
Definition le (a b : R) : bool := if Rle_dec a b then true else false.
Definition strictEq (a b : R) : bool := if Req_dec_T a b then true else false.

(** [if (x)] on a number: zero is falsy. *)
Definition truthy (a : R) : bool := negb (strictEq a 0).

(** [if (x)] on a nullable number: [null] and zero are falsy. *)
Definition truthyNumber (a : option R) : bool :=
  match a with
  | None => false
  | Some v => truthy v
  end.

(** [x !== null] (and the negation of [x == null]) on a nullable value. *)
Definition notNull {A : Type} (a : option A) : bool :=
  match a with
  | None => false
  | Some _ => true
  end.

(** [if (x)] on a nullable object: only [null] is falsy. *)
Definition truthyObject {A : Type} (a : option A) : bool :=
  match a with
  | None => false
  | Some _ => true
  end.

End Js.

(** ** Builtins (core/builtins) and helpers (core/utils) *)

Definition Math_min (a b : R) : R := Rmin a b.
Definition Math_max (a b : R) : R := Rmax a b.
Definition Math_abs (a : R) : R := Rabs a.
Definition Math_hypot (a b : R) : R := sqrt (a * a + b * b).

Definition Math_sign (a : R) : R :=
  if Js.gt a 0 then 1 else if Js.lt a 0 then -1 else 0.

(** [Math.round]: the nearest integer, halves rounded up. *)
Definition Math_round (a : R) : R := IZR (Int_part (a + / 2)).

(** [Math.log2] and [Math.pow], meaningful for a positive argument and a
    positive base. *)
Definition Math_log2 (a : R) : R := ln a / ln 2.
Definition Math_pow (b e : R) : R := Rpower b e.

(** Modelled from the spec: core/utils is not among the sources; [clamp]
    brings a value into the interval given by a minimum and a maximum, as the
    zoom policy gate describes, and is the composition of [Math_max] and
    [Math_min] that the project uses everywhere. *)
Definition clamp (v minimum maximum : R) : R :=
  Math_max minimum (Math_min maximum v).

(** The arrow function [roundToPow] of [bindKeys] and [onMouseWheel]. *)
Definition roundToPow (v n : R) : R :=
  Math_pow 2 (Math_round (Math_log2 v * n) / n).

#[global] Arguments Math_min : simpl never.
#[global] Arguments Math_max : simpl never.
#[global] Arguments Math_abs : simpl never.
#[global] Arguments Math_hypot : simpl never.
#[global] Arguments Math_sign : simpl never.
#[global] Arguments Math_round : simpl never.
#[global] Arguments Math_log2 : simpl never.
#[global] Arguments Math_pow : simpl never.
#[global] Arguments clamp : simpl never.
#[global] Arguments roundToPow : simpl never.
#[global] Arguments Js.gt : simpl never.
#[global] Arguments Js.ge : simpl never.
#[global] Arguments Js.lt : simpl never.
#[global] Arguments Js.le : simpl never.
#[global] Arguments Js.strictEq : simpl never.
#[global] Arguments Js.truthy : simpl never.

(** ** Vectors (core/vector) *)

Module Vector.

Record t : Type := mk { x : R; y : R }.

(** Modelled from the spec: core/vector is not among the sources; the
    methods below are the componentwise operations on two-dimensional points
    that their names and their uses in the camera say.  Each returns a new
    vector, and the camera copies the vectors it is given, so no two fields
    of the camera share a vector. *)
Definition copy (v : t) : t := mk (x v) (y v).
Definition add (v w : t) : t := mk (x v + x w) (y v + y w).
Definition sub (v w : t) : t := mk (x v - x w) (y v - y w).
Definition addScalars (v : t) (a b : R) : t := mk (x v + a) (y v + b).
Definition subScalars (v : t) (a b : R) : t := mk (x v - a) (y v - b).
Definition multiplyScalar (v : t) (f : R) : t := mk (x v * f) (y v * f).
Definition divideScalar (v : t) (f : R) : t := mk (x v / f) (y v / f).
Definition length (v : t) : R := Math_hypot (x v) (y v).
Definition lengthSquare (v : t) : R := x v * x v + y v * y v.
Definition distance (v w : t) : R := Math_hypot (x v - x w) (y v - y w).
Definition direction (v w : t) : t := mk (x w - x v) (y w - y v).
Definition centerPoint (v w : t) : t := mk ((x v + x w) / 2) ((y v + y w) / 2).

(** In-place writes [v.x = a] and [v.y = a]. *)
Definition setX (a : R) (v : t) : t := mk a (y v).
Definition setY (a : R) (v : t) : t := mk (x v) a.

Definition zero : t := mk 0 0.

End Vector.

(** Modelled from the spec: [mixVector] of core/vector is not among the
    sources; the pan channel is "smoothly blended into [currentPan] (blend
    factor 0.06/step)", a linear interpolation from the first vector to the
    second. *)
Definition mixVector (v1 v2 : Vector.t) (a : R) : Vector.t :=
  Vector.mk (Vector.x v1 * (1 - a) + Vector.x v2 * a)
            (Vector.y v1 * (1 - a) + Vector.y v2 * a).

(** ** Constants of the module *)

Definition USER_INTERACT_MOVE : string := "move".
Definition USER_INTERACT_ZOOM : string := "zoom".
Definition USER_INTERACT_TOUCHEND : string := "touchend".

Definition velocitySmoothing : R := 5 / 10.
Definition velocityFade : R := 98 / 100.
Definition velocityStrength : R := 4 / 10.
Definition velocityMax : R := 20.

Module enumMouseButton.

Inductive t : Type := left | middle | right.

End enumMouseButton.

(** ** The environment of a camera

    What the camera reads from its collaborators: the render surface, the
    platform wrapper, the build flag and the debug switches, the state of the
    four movement bindings, and the verdict of the two pre-handler signals
    ([true] stands for [STOP_PROPAGATION]). *)

Record GameRoot : Type := {
  gameWidth : R;
  gameHeight : R;
  tileSize : R;
  getMinimumZoom : R;
  getMaximumZoom : R;
  getTouchPanStrength : R;
  G_IS_DEV : bool;
  disableZoomLimits : bool;
  testCulling : bool;
  mapMoveUp : bool;
  mapMoveDown : bool;
  mapMoveLeft : bool;
  mapMoveRight : bool;
  downPreHandler : Vector.t -> enumMouseButton.t -> bool;
  movePreHandler : Vector.t -> bool
}.

(** ** The camera *)

Record Camera : Type := {
  zoomLevel : R;
  center : Vector.t;
  currentlyMoving : bool;
  lastMovingPosition : option Vector.t;
  cameraUpdateTimeBucket : R;
  didMoveSinceTouchStart : bool;
  currentlyPinching : bool;
  lastPinchPositions : option (Vector.t * Vector.t);
  keyboardForce : Vector.t;
  currentShake : Vector.t;
  currentPan : Vector.t;
  desiredPan : Vector.t;
  desiredCenter : option Vector.t;
  desiredZoom : option R;
  touchPostMoveVelocity : Vector.t
}.

(** Field assignments [this.f = v]. *)

Definition set_zoomLevel (v : R) (c : Camera) : Camera :=
  {| zoomLevel := v; center := center c; currentlyMoving := currentlyMoving c;
     lastMovingPosition := lastMovingPosition c;
     cameraUpdateTimeBucket := cameraUpdateTimeBucket c;
     didMoveSinceTouchStart := didMoveSinceTouchStart c;
     currentlyPinching := currentlyPinching c;
     lastPinchPositions := lastPinchPositions c;
     keyboardForce := keyboardForce c; currentShake := currentShake c;
     currentPan := currentPan c; desiredPan := desiredPan c;
     desiredCenter := desiredCenter c; desiredZoom := desiredZoom c;
     touchPostMoveVelocity := touchPostMoveVelocity c |}.

Definition set_center (v : Vector.t) (c : Camera) : Camera :=
  {| zoomLevel := zoomLevel c; center := v; currentlyMoving := currentlyMoving c;
     lastMovingPosition := lastMovingPosition c;
     cameraUpdateTimeBucket := cameraUpdateTimeBucket c;
     didMoveSinceTouchStart := didMoveSinceTouchStart c;
     currentlyPinching := currentlyPinching c;
     lastPinchPositions := lastPinchPositions c;
     keyboardForce := keyboardForce c; currentShake := currentShake c;
     currentPan := currentPan c; desiredPan := desiredPan c;
     desiredCenter := desiredCenter c; desiredZoom := desiredZoom c;
     touchPostMoveVelocity := touchPostMoveVelocity c |}.

Definition set_currentlyMoving (v : bool) (c : Camera) : Camera :=
  {| zoomLevel := zoomLevel c; center := center c; currentlyMoving := v;
     lastMovingPosition := lastMovingPosition c;
     cameraUpdateTimeBucket := cameraUpdateTimeBucket c;
     didMoveSinceTouchStart := didMoveSinceTouchStart c;
     currentlyPinching := currentlyPinching c;
     lastPinchPositions := lastPinchPositions c;
     keyboardForce := keyboardForce c; currentShake := currentShake c;
     currentPan := currentPan c; desiredPan := desiredPan c;
     desiredCenter := desiredCenter c; desiredZoom := desiredZoom c;
     touchPostMoveVelocity := touchPostMoveVelocity c |}.

Definition set_lastMovingPosition (v : option Vector.t) (c : Camera) : Camera :=
  {| zoomLevel := zoomLevel c; center := center c;
     currentlyMoving := currentlyMoving c; lastMovingPosition := v;
     cameraUpdateTimeBucket := cameraUpdateTimeBucket c;
     didMoveSinceTouchStart := didMoveSinceTouchStart c;
     currentlyPinching := currentlyPinching c;
     lastPinchPositions := lastPinchPositions c;
     keyboardForce := keyboardForce c; currentShake := currentShake c;
     currentPan := currentPan c; desiredPan := desiredPan c;
     desiredCenter := desiredCenter c; desiredZoom := desiredZoom c;
     touchPostMoveVelocity := touchPostMoveVelocity c |}.

Definition set_cameraUpdateTimeBucket (v : R) (c : Camera) : Camera :=
  {| zoomLevel := zoomLevel c; center := center c;
     currentlyMoving := currentlyMoving c;
     lastMovingPosition := lastMovingPosition c; cameraUpdateTimeBucket := v;
     didMoveSinceTouchStart := didMoveSinceTouchStart c;
     currentlyPinching := currentlyPinching c;
     lastPinchPositions := lastPinchPositions c;
     keyboardForce := keyboardForce c; currentShake := currentShake c;
     currentPan := currentPan c; desiredPan := desiredPan c;
     desiredCenter := desiredCenter c; desiredZoom := desiredZoom c;
     touchPostMoveVelocity := touchPostMoveVelocity c |}.

Definition set_didMoveSinceTouchStart (v : bool) (c : Camera) : Camera :=
  {| zoomLevel := zoomLevel c; center := center c;
     currentlyMoving := currentlyMoving c;
     lastMovingPosition := lastMovingPosition c;
     cameraUpdateTimeBucket := cameraUpdateTimeBucket c;
     didMoveSinceTouchStart := v; currentlyPinching := currentlyPinching c;
     lastPinchPositions := lastPinchPositions c;
     keyboardForce := keyboardForce c; currentShake := currentShake c;
     currentPan := currentPan c; desiredPan := desiredPan c;
     desiredCenter := desiredCenter c; desiredZoom := desiredZoom c;
     touchPostMoveVelocity := touchPostMoveVelocity c |}.

Definition set_currentlyPinching (v : bool) (c : Camera) : Camera :=
  {| zoomLevel := zoomLevel c; center := center c;
     currentlyMoving := currentlyMoving c;
     lastMovingPosition := lastMovingPosition c;
     cameraUpdateTimeBucket := cameraUpdateTimeBucket c;
     didMoveSinceTouchStart := didMoveSinceTouchStart c;
     currentlyPinching := v; lastPinchPositions := lastPinchPositions c;
     keyboardForce := keyboardForce c; currentShake := currentShake c;
     currentPan := currentPan c; desiredPan := desiredPan c;
     desiredCenter := desiredCenter c; desiredZoom := desiredZoom c;
     touchPostMoveVelocity := touchPostMoveVelocity c |}.

Definition set_lastPinchPositions (v : option (Vector.t * Vector.t))
  (c : Camera) : Camera :=
  {| zoomLevel := zoomLevel c; center := center c;
     currentlyMoving := currentlyMoving c;
     lastMovingPosition := lastMovingPosition c;
     cameraUpdateTimeBucket := cameraUpdateTimeBucket c;
     didMoveSinceTouchStart := didMoveSinceTouchStart c;
     currentlyPinching := currentlyPinching c; lastPinchPositions := v;
     keyboardForce := keyboardForce c; currentShake := currentShake c;
     currentPan := currentPan c; desiredPan := desiredPan c;
     desiredCenter := desiredCenter c; desiredZoom := desiredZoom c;
     touchPostMoveVelocity := touchPostMoveVelocity c |}.

Definition set_keyboardForce (v : Vector.t) (c : Camera) : Camera :=
  {| zoomLevel := zoomLevel c; center := center c;
     currentlyMoving := currentlyMoving c;
     lastMovingPosition := lastMovingPosition c;
     cameraUpdateTimeBucket := cameraUpdateTimeBucket c;
     didMoveSinceTouchStart := didMoveSinceTouchStart c;
     currentlyPinching := currentlyPinching c;
     lastPinchPositions := lastPinchPositions c;
     keyboardForce := v; currentShake := currentShake c;
     currentPan := currentPan c; desiredPan := desiredPan c;
     desiredCenter := desiredCenter c; desiredZoom := desiredZoom c;
     touchPostMoveVelocity := touchPostMoveVelocity c |}.

Definition set_currentShake (v : Vector.t) (c : Camera) : Camera :=
  {| zoomLevel := zoomLevel c; center := center c;
     currentlyMoving := currentlyMoving c;
     lastMovingPosition := lastMovingPosition c;
     cameraUpdateTimeBucket := cameraUpdateTimeBucket c;
     didMoveSinceTouchStart := didMoveSinceTouchStart c;
     currentlyPinching := currentlyPinching c;
     lastPinchPositions := lastPinchPositions c;
     keyboardForce := keyboardForce c; currentShake := v;
     currentPan := currentPan c; desiredPan := desiredPan c;
     desiredCenter := desiredCenter c; desiredZoom := desiredZoom c;
     touchPostMoveVelocity := touchPostMoveVelocity c |}.

Definition set_currentPan (v : Vector.t) (c : Camera) : Camera :=
  {| zoomLevel := zoomLevel c; center := center c;
     currentlyMoving := currentlyMoving c;
     lastMovingPosition := lastMovingPosition c;
     cameraUpdateTimeBucket := cameraUpdateTimeBucket c;
     didMoveSinceTouchStart := didMoveSinceTouchStart c;
     currentlyPinching := currentlyPinching c;
     lastPinchPositions := lastPinchPositions c;
     keyboardForce := keyboardForce c; currentShake := currentShake c;
     currentPan := v; desiredPan := desiredPan c;
     desiredCenter := desiredCenter c; desiredZoom := desiredZoom c;
     touchPostMoveVelocity := touchPostMoveVelocity c |}.

Definition set_desiredPan (v : Vector.t) (c : Camera) : Camera :=
  {| zoomLevel := zoomLevel c; center := center c;
     currentlyMoving := currentlyMoving c;
     lastMovingPosition := lastMovingPosition c;
     cameraUpdateTimeBucket := cameraUpdateTimeBucket c;
     didMoveSinceTouchStart := didMoveSinceTouchStart c;
     currentlyPinching := currentlyPinching c;
     lastPinchPositions := lastPinchPositions c;
     keyboardForce := keyboardForce c; currentShake := currentShake c;
     currentPan := currentPan c; desiredPan := v;
     desiredCenter := desiredCenter c; desiredZoom := desiredZoom c;
     touchPostMoveVelocity := touchPostMoveVelocity c |}.

Definition set_desiredCenter (v : option Vector.t) (c : Camera) : Camera :=
  {| zoomLevel := zoomLevel c; center := center c;
     currentlyMoving := currentlyMoving c;
     lastMovingPosition := lastMovingPosition c;
     cameraUpdateTimeBucket := cameraUpdateTimeBucket c;
     didMoveSinceTouchStart := didMoveSinceTouchStart c;
     currentlyPinching := currentlyPinching c;
     lastPinchPositions := lastPinchPositions c;
     keyboardForce := keyboardForce c; currentShake := currentShake c;
     currentPan := currentPan c; desiredPan := desiredPan c;
     desiredCenter := v; desiredZoom := desiredZoom c;
     touchPostMoveVelocity := touchPostMoveVelocity c |}.

Definition set_desiredZoom (v : option R) (c : Camera) : Camera :=
  {| zoomLevel := zoomLevel c; center := center c;
     currentlyMoving := currentlyMoving c;
     lastMovingPosition := lastMovingPosition c;
     cameraUpdateTimeBucket := cameraUpdateTimeBucket c;
     didMoveSinceTouchStart := didMoveSinceTouchStart c;
     currentlyPinching := currentlyPinching c;
     lastPinchPositions := lastPinchPositions c;
     keyboardForce := keyboardForce c; currentShake := currentShake c;
     currentPan := currentPan c; desiredPan := desiredPan c;
     desiredCenter := desiredCenter c; desiredZoom := v;
     touchPostMoveVelocity := touchPostMoveVelocity c |}.

Definition set_touchPostMoveVelocity (v : Vector.t) (c : Camera) : Camera :=
  {| zoomLevel := zoomLevel c; center := center c;
     currentlyMoving := currentlyMoving c;
     lastMovingPosition := lastMovingPosition c;
     cameraUpdateTimeBucket := cameraUpdateTimeBucket c;
     didMoveSinceTouchStart := didMoveSinceTouchStart c;
     currentlyPinching := currentlyPinching c;
     lastPinchPositions := lastPinchPositions c;
     keyboardForce := keyboardForce c; currentShake := currentShake c;
     currentPan := currentPan c; desiredPan := desiredPan c;
     desiredCenter := desiredCenter c; desiredZoom := desiredZoom c;
     touchPostMoveVelocity := v |}.

(** ** The methods of the camera *)

Section CameraMethods.

Variable root : GameRoot.

(** The gate of [clampZoomLevel]: the limits are switched off only by the
    debug option of a development build. *)
Definition zoomLimitsDisabled : bool := G_IS_DEV root && disableZoomLimits root.

Definition clampZoomLevel (c : Camera) : Camera :=
  if zoomLimitsDisabled then c
  else
    let c1 :=
      set_zoomLevel
        (clamp (zoomLevel c) (getMinimumZoom root) (getMaximumZoom root)) c in
    match desiredZoom c1 with
    | Some dz =>
        if Js.truthy dz
        then set_desiredZoom
               (Some (clamp dz (getMinimumZoom root) (getMaximumZoom root))) c1
        else c1
    | None => c1
    end.

Definition findInitialZoom : R :=
  let desiredWorldSpaceWidth := 15 * tileSize root in
  let zoomLevelX := gameWidth root / desiredWorldSpaceWidth in
  let zoomLevelY := gameHeight root / desiredWorldSpaceWidth in
  Math_min zoomLevelX zoomLevelY.

(** The constructor: the fields as it initialises them, clamped twice. *)
Definition newCamera : Camera :=
  clampZoomLevel
    (clampZoomLevel
       {| zoomLevel := findInitialZoom;
          center := Vector.mk 0 0;
          currentlyMoving := false;
          lastMovingPosition := None;
          cameraUpdateTimeBucket := 0;
          didMoveSinceTouchStart := false;
          currentlyPinching := false;
          lastPinchPositions := None;
          keyboardForce := Vector.mk 0 0;
          currentShake := Vector.mk 0 0;
          currentPan := Vector.mk 0 0;
          desiredPan := Vector.mk 0 0;
          desiredCenter := None;
          desiredZoom := None;
          touchPostMoveVelocity := Vector.mk 0 0 |}).

(** [addScreenShake]; the two draws of [Math_random] are arguments. *)
Definition addScreenShake (amount random1 random2 : R) (c : Camera) : Camera :=
  let currentShakeAmount := Vector.length (currentShake c) in
  let scale := 1 / (1 + 3 * currentShakeAmount) in
  let c1 :=
    set_currentShake
      (Vector.setX
         (Vector.x (currentShake c) + 2 * (random1 - 5 / 10) * scale * amount)
         (currentShake c)) c in
  set_currentShake
    (Vector.setY
       (Vector.y (currentShake c1) + 2 * (random2 - 5 / 10) * scale * amount)
       (currentShake c1)) c1.

Definition setDesiredCenter (p : Vector.t) (c : Camera) : Camera :=
  set_currentlyMoving false (set_desiredCenter (Some (Vector.copy p)) c).

Definition isCurrentlyMovingToDesiredCenter (c : Camera) : bool :=
  Js.notNull (desiredCenter c).

Definition setPan (pan : Vector.t) (c : Camera) : Camera :=
  set_desiredPan (Vector.copy pan) c.

Definition clearAnimations (c : Camera) : Camera :=
  let c := set_touchPostMoveVelocity
             (Vector.setX 0 (touchPostMoveVelocity c)) c in
  let c := set_touchPostMoveVelocity
             (Vector.setY 0 (touchPostMoveVelocity c)) c in
  let c := set_desiredCenter None c in
  let c := set_desiredPan (Vector.setX 0 (desiredPan c)) c in
  let c := set_desiredPan (Vector.setY 0 (desiredPan c)) c in
  let c := set_currentPan (Vector.setX 0 (currentPan c)) c in
  let c := set_currentPan (Vector.setY 0 (currentPan c)) c in
  let c := set_currentlyPinching false c in
  let c := set_currentlyMoving false c in
  let c := set_lastMovingPosition None c in
  let c := set_didMoveSinceTouchStart false c in
  set_desiredZoom None c.

Definition isCurrentlyInteracting (c : Camera) : bool :=
  if currentlyPinching c then true
  else if currentlyMoving c then didMoveSinceTouchStart c
  else if Js.gt (Vector.lengthSquare (touchPostMoveVelocity c)) 1 then true
  else false.

Definition viewportWillChange (c : Camera) : bool :=
  Js.notNull (desiredCenter c)
  || Js.notNull (desiredZoom c)
  || isCurrentlyInteracting c.

Definition cancelAllInteractions (c : Camera) : Camera :=
  let c := set_touchPostMoveVelocity (Vector.mk 0 0) c in
  let c := set_desiredCenter None c in
  let c := set_currentlyMoving false c in
  let c := set_currentlyPinching false c in
  set_desiredZoom None c.

Definition getViewportWidth (c : Camera) : R := gameWidth root / zoomLevel c.
Definition getViewportHeight (c : Camera) : R := gameHeight root / zoomLevel c.

Definition getViewportLeft (c : Camera) : R :=
  Vector.x (center c) - getViewportWidth c / 2
  + (Vector.x (currentShake c) * 10) / zoomLevel c.

Definition getViewportTop (c : Camera) : R :=
  Vector.y (center c) - getViewportHeight c / 2
  + (Vector.x (currentShake c) * 10) / zoomLevel c.

Definition centerOnMap (c : Camera) : Camera :=
  set_desiredCenter (Some (Vector.mk 0 0)) c.

Definition screenToWorld (c : Camera) (screen : Vector.t) : Vector.t :=
  let centerSpace :=
    Vector.subScalars screen (gameWidth root / 2) (gameHeight root / 2) in
  Vector.add (Vector.divideScalar centerSpace (zoomLevel c)) (center c).

Definition worldToScreen (c : Camera) (world : Vector.t) : Vector.t :=
  let screenSpace :=
    Vector.multiplyScalar (Vector.sub world (center c)) (zoomLevel c) in
  Vector.addScalars screenSpace (gameWidth root / 2) (gameHeight root / 2).

(** *** The channels of the fixed-step integrator *)

Definition internalUpdateShake (now dt : R) (c : Camera) : Camera :=
  set_currentShake (Vector.multiplyScalar (currentShake c) (92 / 100)) c.

(** The pan is scaled by the quotient [(0.5 * dt) / zoomLevel]: for a zoom
    level other than zero (at zero the source adds currentPan * Infinity to
    the center). *)
Definition internalUpdatePanning (now dt : R) (c : Camera) : Camera :=
  let baseStrength := velocityStrength * getTouchPanStrength root in
  let c := set_touchPostMoveVelocity
             (Vector.multiplyScalar (touchPostMoveVelocity c) velocityFade) c in
  if negb (currentlyMoving c) && negb (currentlyPinching c) then
    let len := Vector.length (touchPostMoveVelocity c) in
    let c :=
      if Js.ge len velocityMax then
        let c := set_touchPostMoveVelocity
                   (Vector.setX
                      ((Vector.x (touchPostMoveVelocity c) * velocityMax) / len)
                      (touchPostMoveVelocity c)) c in
        set_touchPostMoveVelocity
          (Vector.setY
             ((Vector.y (touchPostMoveVelocity c) * velocityMax) / len)
             (touchPostMoveVelocity c)) c
      else c in
    let c := set_center
               (Vector.add (center c)
                  (Vector.multiplyScalar (touchPostMoveVelocity c) baseStrength))
               c in
    let c := set_currentPan (mixVector (currentPan c) (desiredPan c) (6 / 100)) c in
    set_center
      (Vector.add (center c)
         (Vector.multiplyScalar (currentPan c) ((5 / 10 * dt) / zoomLevel c))) c
  else c.

(** The guard of the source, [!this.currentlyPinching && this.desiredZoom
    !== null], is tested here null first, to have the target at hand. *)
Definition internalUpdateZooming (now dt : R) (c : Camera) : Camera :=
  match desiredZoom c with
  | Some dz =>
      if negb (currentlyPinching c) then
        let diff := zoomLevel c - dz in
        if Js.gt (Math_abs diff) (1 / 10000) then
          let fade := if Js.gt diff 0 then 9 / 10 else 94 / 100 in
          set_zoomLevel (zoomLevel c * fade + dz * (1 - fade)) c
        else set_desiredZoom None c
      else c
  | None => c
  end.

(** Likewise for [!this.currentlyMoving && this.desiredCenter !== null].
    The tolerance is the quotient [1 / zoomLevel]: for a zoom level other
    than zero (at zero the source compares with Infinity and ends the
    animation). *)
Definition internalUpdateCentering (now dt : R) (c : Camera) : Camera :=
  match desiredCenter c with
  | Some dc =>
      if negb (currentlyMoving c) then
        let diff := Vector.direction (center c) dc in
        let length := Vector.length diff in
        let tolerance := 1 / zoomLevel c in
        if Js.gt length tolerance then
          let movement :=
            Vector.multiplyScalar diff (Math_min 1 (dt * (8 / 1000))) in
          let c := set_center
                     (Vector.setX (Vector.x (center c) + Vector.x movement)
                        (center c)) c in
          set_center
            (Vector.setY (Vector.y (center c) + Vector.y movement) (center c)) c
        else set_desiredCenter None c
      else c
  | None => c
  end.

(** [moveAmount] is a quotient by [zoomLevel]: for a zoom level other than
    zero (at zero the source adds Infinity * force to the center). *)
Definition internalUpdateKeyboardForce (now dt : R) (c : Camera) : Camera :=
  if negb (currentlyMoving c) && negb (Js.notNull (desiredCenter c)) then
    let limitingDimension := Math_min (gameWidth root) (gameHeight root) in
    let moveAmount := ((limitingDimension / 2048) * dt) / zoomLevel c in
    let forceX := 0 in
    let forceY := 0 in
    let forceY := if mapMoveUp root then forceY - 1 else forceY in
    let forceY := if mapMoveDown root then forceY + 1 else forceY in
    let forceX := if mapMoveLeft root then forceX - 1 else forceX in
    let forceX := if mapMoveRight root then forceX + 1 else forceX in
    let c := set_center
               (Vector.setX (Vector.x (center c) + moveAmount * forceX)
                  (center c)) c in
    set_center
      (Vector.setY (Vector.y (center c) + moveAmount * forceY) (center c)) c
  else c.

(** *** [update]: the fixed-timestep integrator *)

Definition updatesPerFrame : R := 4.
Definition physicsStepSizeMs : R := 1000 / (60 * updatesPerFrame).

(** The body of the [while] loop, entered with the value of [now] before its
    first statement. *)
Definition updateLoopBody (now : R) (c : Camera) : R * Camera :=
  let now := now + physicsStepSizeMs in
  let c := set_cameraUpdateTimeBucket
             (cameraUpdateTimeBucket c - physicsStepSizeMs) c in
  let c := internalUpdatePanning now physicsStepSizeMs c in
  let c := internalUpdateZooming now physicsStepSizeMs c in
  let c := internalUpdateCentering now physicsStepSizeMs c in
  let c := internalUpdateShake now physicsStepSizeMs c in
  let c := internalUpdateKeyboardForce now physicsStepSizeMs c in
  (now, c).

(** The [while] loop, unrolled at most [fuel] times. *)
Fixpoint updateLoop (fuel : nat) (now : R) (c : Camera) : Camera :=
  match fuel with
  | O => c
  | S fuel' =>
      if Js.gt (cameraUpdateTimeBucket c) physicsStepSizeMs then
        let '(now', c') := updateLoopBody now c in
        updateLoop fuel' now' c'
      else c
  end.

(** Every iteration takes one step size off the bucket, so the loop runs
    fewer times than the least integer above bucket / step size. *)
Definition updateLoopBound (c : Camera) : nat :=
  Z.to_nat (up (cameraUpdateTimeBucket c / physicsStepSizeMs)).

Definition update (systemNow dt : R) (c : Camera) : Camera :=
  let dt := Math_min dt 33 in
  let c := set_cameraUpdateTimeBucket (cameraUpdateTimeBucket c + dt) c in
  let now := systemNow - 3 * physicsStepSizeMs in
  let c := updateLoop (updateLoopBound c) now c in
  clampZoomLevel c.

(** [transform]: the mutation it performs and the six arguments it passes to
    the rendering context. *)
Definition transform (c : Camera) : Camera * (R * R * R * R * R * R) :=
  if G_IS_DEV root && testCulling root then (c, (1, 0, 0, 1, 100, 100))
  else
    let c := clampZoomLevel c in
    let zoom := zoomLevel c in
    (c, (zoom, 0, 0, zoom, - zoom * getViewportLeft c, - zoom * getViewportTop c)).

End CameraMethods.

(** ** Events, the world around the camera and the event handlers *)

Record Touch : Type := { touch_clientX : R; touch_clientY : R }.

Record TouchEvent : Type := {
  touches : list Touch;
  changedTouches : list Touch
}.

Record MouseEvent : Type := { which : Z; clientX : R; clientY : R }.

Record WheelEvent : Type := { deltaY : R }.

(** The signals a handler dispatches, in the order of the calls. *)
Inductive Dispatched : Type :=
| DownPreHandler (pos : Vector.t) (button : enumMouseButton.t)
| MovePreHandler (pos : Vector.t)
| UserInteraction (what : string)
| UpPostHandler (pos : Vector.t).

Record World : Type := {
  camera : Camera;
  lastTouchTime : R;
  warnings : list string;
  dispatched : list Dispatched
}.

Definition set_camera (c : Camera) (w : World) : World :=
  {| camera := c; lastTouchTime := lastTouchTime w;
     warnings := warnings w; dispatched := dispatched w |}.

Definition set_lastTouchTime (t : R) (w : World) : World :=
  {| camera := camera w; lastTouchTime := t;
     warnings := warnings w; dispatched := dispatched w |}.

Definition logger_warn (msg : string) (w : World) : World :=
  {| camera := camera w; lastTouchTime := lastTouchTime w;
     warnings := warnings w ++ [msg]; dispatched := dispatched w |}.

Definition dispatch (d : Dispatched) (w : World) : World :=
  {| camera := camera w; lastTouchTime := lastTouchTime w;
     warnings := warnings w; dispatched := dispatched w ++ [d] |}.

(** How a handler ends: it returns, or it raises a [TypeError] (a property
    read on [null] or [undefined]) and leaves the world as it was at that
    point. *)
Inductive Completion : Type :=
| Normal (w : World)
| TypeError (w : World).

Definition worldOf (r : Completion) : World :=
  match r with
  | Normal w => w
  | TypeError w => w
  end.

Definition completesNormally (r : Completion) : bool :=
  match r with
  | Normal _ => true
  | TypeError _ => false
  end.

Inductive KeyBinding : Type :=
| KeyMapMoveUp | KeyMapMoveDown | KeyMapMoveRight | KeyMapMoveLeft
| KeyMapZoomIn | KeyMapZoomOut | KeyCenterMap.

Section EventHandlers.

Variable root : GameRoot.

(** The receivers that [bindKeys] attaches to the key bindings. *)
Definition keyBindingHandler (k : KeyBinding) (c : Camera) : Camera :=
  match k with
  | KeyMapMoveUp => set_keyboardForce (Vector.setY (-1) (keyboardForce c)) c
  | KeyMapMoveDown => set_keyboardForce (Vector.setY 1 (keyboardForce c)) c
  | KeyMapMoveRight => set_keyboardForce (Vector.setX 1 (keyboardForce c)) c
  | KeyMapMoveLeft => set_keyboardForce (Vector.setX (-1) (keyboardForce c)) c
  | KeyMapZoomIn =>
      set_desiredZoom (Some (roundToPow (zoomLevel c * (12 / 10)) 4)) c
  | KeyMapZoomOut =>
      set_desiredZoom (Some (roundToPow (zoomLevel c * (8 / 10)) 4)) c
  | KeyCenterMap => centerOnMap c
  end.

(** The [keydown] listener that the constructor installs on the window in a
    development build. *)
Definition devKeydownListener (key : string) (c : Camera) : Camera :=
  if G_IS_DEV root then
    if String.eqb key "l" then set_zoomLevel 3 c else c
  else c.

Definition checkPreventDoubleMouse (performanceNow : R) (w : World) : bool :=
  if Js.lt (performanceNow - lastTouchTime w) 1000 then false else true.

Definition combinedSingleTouchStartHandler (x y : R) (w : World) : World :=
  let pos := Vector.mk x y in
  let w := dispatch (DownPreHandler pos enumMouseButton.left) w in
  if downPreHandler root pos enumMouseButton.left then w
  else
    let c := camera w in
    let c := set_touchPostMoveVelocity (Vector.mk 0 0) c in
    let c := set_currentlyMoving true c in
    let c := set_lastMovingPosition (Some pos) c in
    let c := set_didMoveSinceTouchStart false c in
    set_camera c w.

Definition combinedSingleTouchMoveHandler (x y : R) (w : World) : Completion :=
  let pos := Vector.mk x y in
  let w := dispatch (MovePreHandler pos) w in
  if movePreHandler root pos then Normal w
  else
    let c := camera w in
    if negb (currentlyMoving c) then Normal w
    else
      match lastMovingPosition c with
      | None => TypeError w
      | Some last =>
          let delta :=
            Vector.divideScalar (Vector.sub last pos) (zoomLevel c) in
          let delta :=
            if G_IS_DEV root && testCulling root
            then Vector.multiplyScalar delta (zoomLevel c * -2)
            else delta in
          let c := set_didMoveSinceTouchStart
                     (didMoveSinceTouchStart c
                      || Js.gt (Vector.length delta) 0) c in
          let c := set_center (Vector.add (center c) delta) c in
          let c := set_touchPostMoveVelocity
                     (Vector.add
                        (Vector.multiplyScalar (touchPostMoveVelocity c)
                           velocitySmoothing)
                        (Vector.multiplyScalar delta (1 - velocitySmoothing)))
                     c in
          let c := set_lastMovingPosition (Some pos) c in
          let w := dispatch (UserInteraction USER_INTERACT_MOVE)
                     (set_camera c w) in
          let c := camera w in
          if Js.truthyObject (desiredCenter c)
          then Normal (set_camera (set_desiredCenter None c) w)
          else Normal w
      end.

Definition combinedSingleTouchStopHandler (x y : R) (w : World) : World :=
  let c := camera w in
  let w :=
    if currentlyMoving c || currentlyPinching c then
      let c := set_currentlyMoving false c in
      let c := set_currentlyPinching false c in
      let c := set_lastMovingPosition None c in
      let c := set_lastPinchPositions None c in
      let w := dispatch (UserInteraction USER_INTERACT_TOUCHEND)
                 (set_camera c w) in
      set_camera (set_didMoveSinceTouchStart false (camera w)) w
    else w in
  dispatch (UpPostHandler (Vector.mk x y)) w.

Definition onMouseDown (performanceNow : R) (event : MouseEvent) (w : World)
  : World :=
  if negb (checkPreventDoubleMouse performanceNow w) then w
  else
    let w := set_camera
               (set_touchPostMoveVelocity (Vector.mk 0 0) (camera w)) w in
    if Z.eqb (which event) 1 then
      combinedSingleTouchStartHandler (clientX event) (clientY event) w
    else if Z.eqb (which event) 2 then
      dispatch (DownPreHandler (Vector.mk (clientX event) (clientY event))
                  enumMouseButton.middle) w
    else if Z.eqb (which event) 3 then
      dispatch (DownPreHandler (Vector.mk (clientX event) (clientY event))
                  enumMouseButton.right) w
    else w.

Definition onMouseMove (performanceNow : R) (event : MouseEvent) (w : World)
  : Completion :=
  if negb (checkPreventDoubleMouse performanceNow w) then Normal w
  else
    let r :=
      if Z.eqb (which event) 1
      then combinedSingleTouchMoveHandler (clientX event) (clientY event) w
      else Normal w in
    match r with
    | Normal w => Normal (set_camera (clampZoomLevel root (camera w)) w)
    | TypeError w => TypeError w
    end.

(** The event of [onMouseUp] and of [onTouchEnd] is optional in the source;
    [None] is a call without it. *)
Definition onMouseUp (performanceNow : R) (event : option MouseEvent)
  (w : World) : Completion :=
  if negb (checkPreventDoubleMouse performanceNow w) then Normal w
  else
    match event with
    | None => TypeError w
    | Some event =>
        Normal (combinedSingleTouchStopHandler (clientX event) (clientY event) w)
    end.

Definition onMouseWheel (event : WheelEvent) (w : World) : World :=
  let c := camera w in
  let delta := Math_sign (deltaY event) * (-15 / 100) in
  let c := set_zoomLevel (zoomLevel c * (1 + delta)) c in
  let c := clampZoomLevel root c in
  let c := set_desiredZoom (Some (roundToPow (zoomLevel c) 4)) c in
  set_camera c w.

Definition onTouchStart (performanceNow : R) (event : TouchEvent) (w : World)
  : World :=
  let w := set_lastTouchTime performanceNow w in
  let w := set_camera
             (set_touchPostMoveVelocity (Vector.mk 0 0) (camera w)) w in
  match touches event with
  | [touch] =>
      combinedSingleTouchStartHandler (touch_clientX touch) (touch_clientY touch) w
  | [touch1; touch2] =>
      let c := camera w in
      let c := set_currentlyMoving false c in
      let c := set_currentlyPinching true c in
      let c := set_lastPinchPositions
                 (Some (Vector.mk (touch_clientX touch1) (touch_clientY touch1),
                        Vector.mk (touch_clientX touch2) (touch_clientY touch2)))
                 c in
      set_camera c w
  | _ => w
  end.

(** The pinch branch of [onTouchMove], entered with [currentlyPinching].
    The center is computed with two quotients, by the zoom level before the
    pinch and by the zoom level after it: for zoom levels other than zero.
    The zoom level after it is zero when the two new touch points coincide;
    the center that the source leaves then is [Ieee.pinchCenter]. *)
Definition pinchMove (touch1 touch2 : Touch) (w : World) : Completion :=
  let c := camera w in
  let newPinchPositions :=
    (Vector.mk (touch_clientX touch1) (touch_clientY touch1),
     Vector.mk (touch_clientX touch2) (touch_clientY touch2)) in
  match lastPinchPositions c with
  | None => TypeError w
  | Some last =>
      let lastDistance := Vector.distance (fst last) (snd last) in
      let thisDistance :=
        Vector.distance (fst newPinchPositions) (snd newPinchPositions) in
      let difference := thisDistance / Math_max (1 / 1000) lastDistance in
      let oldCenter := Vector.centerPoint (fst last) (snd last) in
      let center_ :=
        Vector.centerPoint (fst newPinchPositions) (snd newPinchPositions) in
      let movement := Vector.sub oldCenter center_ in
      let c := set_center
                 (Vector.setX
                    (Vector.x (center c) + Vector.x movement / zoomLevel c)
                    (center c)) c in
      let c := set_center
                 (Vector.setY
                    (Vector.y (center c) + Vector.y movement / zoomLevel c)
                    (center c)) c in
      let center_ :=
        Vector.sub center_
          (Vector.mk (gameWidth root / 2) (gameHeight root / 2)) in
      let c := set_zoomLevel (zoomLevel c * difference) c in
      let correcture :=
        Vector.divideScalar
          (Vector.multiplyScalar center_ (difference - 1)) (zoomLevel c) in
      let c := set_center (Vector.add (center c) correcture) c in
      let c := set_lastPinchPositions (Some newPinchPositions) c in
      let w := dispatch (UserInteraction USER_INTERACT_MOVE)
                 (set_camera c w) in
      let c := camera w in
      if Js.truthyNumber (desiredZoom c)
      then Normal (set_camera (set_desiredZoom None c) w)
      else Normal w
  end.

Definition onTouchMove (performanceNow : R) (event : TouchEvent) (w : World)
  : Completion :=
  let w := set_lastTouchTime performanceNow w in
  let r :=
    match touches event with
    | [touch] =>
        combinedSingleTouchMoveHandler
          (touch_clientX touch) (touch_clientY touch) w
    | [touch1; touch2] =>
        if currentlyPinching (camera w) then pinchMove touch1 touch2 w
        else Normal w
    | _ => Normal w
    end in
  match r with
  | Normal w => Normal (set_camera (clampZoomLevel root (camera w)) w)
  | TypeError w => TypeError w
  end.

Definition onTouchEnd (performanceNow : R) (event : option TouchEvent)
  (w : World) : Completion :=
  let w := set_lastTouchTime performanceNow w in
  match event with
  | None => TypeError w
  | Some event =>
      let w :=
        if Nat.eqb (List.length (changedTouches event)) 0
        then logger_warn "Touch end without changed touches" w
        else w in
      match changedTouches event with
      | [] => TypeError w
      | touch :: _ =>
          Normal
            (combinedSingleTouchStopHandler
               (touch_clientX touch) (touch_clientY touch) w)
      end
  end.

End EventHandlers.

(** ** Operations and reachable worlds

    The operations through which a session changes the camera: the
    integrator, the renderer's [transform], the programmatic requests, the
    key bindings, the mouse and touch listeners and the development-build
    [keydown] listener. *)

Inductive Operation : Type :=
| OpUpdate (systemNow dt : R)
| OpTransform
| OpAddScreenShake (amount random1 random2 : R)
| OpSetDesiredCenter (p : Vector.t)
| OpSetPan (pan : Vector.t)
| OpClearAnimations
| OpCancelAllInteractions
| OpCenterOnMap
| OpKeyBinding (k : KeyBinding)
| OpMouseDown (performanceNow : R) (event : MouseEvent)
| OpMouseMove (performanceNow : R) (event : MouseEvent)
| OpMouseUp (performanceNow : R) (event : option MouseEvent)
| OpMouseWheel (event : WheelEvent)
| OpTouchStart (performanceNow : R) (event : TouchEvent)
| OpTouchMove (performanceNow : R) (event : TouchEvent)
| OpTouchEnd (performanceNow : R) (event : option TouchEvent)
| OpDevKeydown (key : string).

Definition onCamera (f : Camera -> Camera) (w : World) : Completion :=
  Normal (set_camera (f (camera w)) w).

Definition perform (root : GameRoot) (op : Operation) (w : World) : Completion :=
  match op with
  | OpUpdate systemNow dt => onCamera (update root systemNow dt) w
  | OpTransform => onCamera (fun c => fst (transform root c)) w
  | OpAddScreenShake amount random1 random2 =>
      onCamera (addScreenShake amount random1 random2) w
  | OpSetDesiredCenter p => onCamera (setDesiredCenter p) w
  | OpSetPan pan => onCamera (setPan pan) w
  | OpClearAnimations => onCamera clearAnimations w
  | OpCancelAllInteractions => onCamera cancelAllInteractions w
  | OpCenterOnMap => onCamera centerOnMap w
  | OpKeyBinding k => onCamera (keyBindingHandler k) w
  | OpMouseDown performanceNow event =>
      Normal (onMouseDown root performanceNow event w)
  | OpMouseMove performanceNow event => onMouseMove root performanceNow event w
  | OpMouseUp performanceNow event => onMouseUp performanceNow event w
  | OpMouseWheel event => Normal (onMouseWheel root event w)
  | OpTouchStart performanceNow event =>
      Normal (onTouchStart root performanceNow event w)
  | OpTouchMove performanceNow event => onTouchMove root performanceNow event w
  | OpTouchEnd performanceNow event => onTouchEnd performanceNow event w
  | OpDevKeydown key => onCamera (devKeydownListener root key) w
  end.

(** The world in which a camera is constructed. *)
Definition newWorld (root : GameRoot) (touchTime : R) : World :=
  {| camera := newCamera root; lastTouchTime := touchTime;
     warnings := []; dispatched := [] |}.

(** The worlds a session reaches with operations from [allowed]; an
    operation that raises leaves the world it had reached. *)
Inductive reachable (root : GameRoot) (allowed : Operation -> Prop)
  : World -> Prop :=
| reachable_new (touchTime : R) : reachable root allowed (newWorld root touchTime)
| reachable_perform (op : Operation) (w : World) :
    reachable root allowed w -> allowed op ->
    reachable root allowed (worldOf (perform root op w)).

Definition anyOperation (op : Operation) : Prop := True.

(** The one operation that writes [zoomLevel] and does not clamp it: the
    debug key of a development build. *)
Definition isUnclampedDebugWrite (root : GameRoot) (op : Operation) : bool :=
  match op with
  | OpDevKeydown key => G_IS_DEV root && String.eqb key "l"
  | _ => false
  end.

Definition regularOperation (root : GameRoot) (op : Operation) : Prop :=
  isUnclampedDebugWrite root op = false.

Definition withinZoomLimits (root : GameRoot) (c : Camera) : Prop :=
  getMinimumZoom root <= zoomLevel c <= getMaximumZoom root.

(** A sequence of [update] calls, each with its system time and its [dt]. *)
Definition updates (root : GameRoot) (calls : list (R * R)) (c : Camera)
  : Camera :=
  fold_left (fun c call => update root (fst call) (snd call) c) calls c.

(** Modelled from the spec: the camera has no method for a zoom request; the
    receivers of [bindKeys] and the wheel handler assign [desiredZoom], and the
    request-zoom entry point of the specification is that assignment with the
    requested target. *)
Definition requestZoom (toFactor : R) (c : Camera) : Camera :=
  set_desiredZoom (Some toFactor) c.

(** ** The two halves of [internalUpdatePanning]

    The inertial pan (velocity fade, velocity cap, move by the velocity) and
    the programmatic pan blend share one guard in the source. *)

Definition inertialPan (root : GameRoot) (now dt : R) (c : Camera) : Camera :=
  let baseStrength := velocityStrength * getTouchPanStrength root in
  let c := set_touchPostMoveVelocity
             (Vector.multiplyScalar (touchPostMoveVelocity c) velocityFade) c in
  if negb (currentlyMoving c) && negb (currentlyPinching c) then
    let len := Vector.length (touchPostMoveVelocity c) in
    let c :=
      if Js.ge len velocityMax then
        let c := set_touchPostMoveVelocity
                   (Vector.setX
                      ((Vector.x (touchPostMoveVelocity c) * velocityMax) / len)
                      (touchPostMoveVelocity c)) c in
        set_touchPostMoveVelocity
          (Vector.setY
             ((Vector.y (touchPostMoveVelocity c) * velocityMax) / len)
             (touchPostMoveVelocity c)) c
      else c in
    set_center
      (Vector.add (center c)
         (Vector.multiplyScalar (touchPostMoveVelocity c) baseStrength)) c
  else c.

Definition panBlend (now dt : R) (c : Camera) : Camera :=
  if negb (currentlyMoving c) && negb (currentlyPinching c) then
    let c := set_currentPan (mixVector (currentPan c) (desiredPan c) (6 / 100)) c in
    set_center
      (Vector.add (center c)
         (Vector.multiplyScalar (currentPan c) ((5 / 10 * dt) / zoomLevel c))) c
  else c.

(** ** Numbers with the three special values

    The reals extended with the infinities and NaN, with the arithmetic of
    JavaScript on them: exact on finite operands, and the IEEE 754 rules
    where a special value or a division by zero is involved (zero has no sign
    here: a non-zero number divided by zero is the infinity of its own sign).
    Used to say that a number "is finite". *)

Module Ieee.

Inductive num : Type :=
| Fin (r : R)
| PosInf
| NegInf
| NaN.


Definition neg (a : num) : num :=
  match a with
  | Fin r => Fin (- r)
  | PosInf => NegInf
  | NegInf => PosInf
  | NaN => NaN
  end.

Definition add (a b : num) : num :=
  match a, b with
  | NaN, _ | _, NaN => NaN
  | Fin r, Fin s => Fin (r + s)
  | PosInf, NegInf | NegInf, PosInf => NaN
  | PosInf, _ | _, PosInf => PosInf
  | NegInf, _ | _, NegInf => NegInf
  end.

Definition sub (a b : num) : num := add a (neg b).


Definition div (a b : num) : num :=
  match a, b with
  | NaN, _ | _, NaN => NaN
  | Fin r, Fin s =>
      if Js.strictEq s 0
      then if Js.gt r 0 then PosInf else if Js.lt r 0 then NegInf else NaN
      else Fin (r / s)
  | Fin _, PosInf | Fin _, NegInf => Fin 0
  | PosInf, Fin s => if Js.ge s 0 then PosInf else NegInf
  | NegInf, Fin s => if Js.ge s 0 then NegInf else PosInf
  | _, _ => NaN
  end.

(** [Math.hypot]: an infinite argument wins over NaN. *)
Definition hypot (a b : num) : num :=
  match a, b with
  | PosInf, _ | NegInf, _ | _, PosInf | _, NegInf => PosInf
  | NaN, _ | _, NaN => NaN
  | Fin r, Fin s => Fin (Math_hypot r s)
  end.

Definition max (a b : num) : num :=
  match a, b with
  | NaN, _ | _, NaN => NaN
  | PosInf, _ | _, PosInf => PosInf
  | NegInf, v | v, NegInf => v
  | Fin r, Fin s => Fin (Math_max r s)
  end.

Definition min (a b : num) : num :=
  match a, b with
  | NaN, _ | _, NaN => NaN
  | NegInf, _ | _, NegInf => NegInf
  | PosInf, v | v, PosInf => v
  | Fin r, Fin s => Fin (Math_min r s)
  end.

Definition clamp (v minimum maximum : num) : num :=
  max minimum (min maximum v).

Definition point : Type := (num * num)%type.


Definition distance (p q : point) : num :=
  hypot (sub (fst p) (fst q)) (sub (snd p) (snd q)).


Definition centerPoint (p q : point) : point :=
  (div (add (fst p) (fst q)) (Fin 2), div (add (snd p) (snd q)) (Fin 2)).


End Ieee.

(** ** The viewport queries *)

(** [Math.floor] and [Math.ceil]. *)
Definition Math_floor (a : R) : R := IZR (Int_part a).
Definition Math_ceil (a : R) : R := - IZR (Int_part (- a)).

#[global] Arguments Math_floor : simpl never.
#[global] Arguments Math_ceil : simpl never.

(** Modelled from the spec: core/rectangle is not among the sources; a
    rectangle is kept here by the four sides that [Rectangle.fromTRBL]
    receives, in that order. *)
Record Rectangle : Type := fromTRBL {
  rect_top : R;
  rect_right : R;
  rect_bottom : R;
  rect_left : R
}.

Section ViewportQueries.

Variable root : GameRoot.

Definition getViewportRight (c : Camera) : R :=
  Vector.x (center c) + getViewportWidth root c / 2
  + (Vector.x (currentShake c) * 10) / zoomLevel c.

Definition getViewportBottom (c : Camera) : R :=
  Vector.y (center c) + getViewportHeight root c / 2
  + (Vector.x (currentShake c) * 10) / zoomLevel c.

Definition getVisibleRect (c : Camera) : Rectangle :=
  fromTRBL
    (Math_floor (getViewportTop root c))
    (Math_ceil (getViewportRight c))
    (Math_ceil (getViewportBottom c))
    (Math_floor (getViewportLeft root c)).

Definition canZoomIn (c : Camera) : bool :=
  let maxLevel := getMaximumZoom root in
  Js.le (zoomLevel c) (maxLevel - 1 / 100).

Definition canZoomOut (c : Camera) : bool :=
  let minLevel := getMinimumZoom root in
  Js.ge (zoomLevel c) (minLevel + 1 / 100).

End ViewportQueries.

(** The programmatic centering channel run on its own, [steps] times. *)
Definition centeringSteps (now dt : R) (steps : nat) (c : Camera) : Camera :=
  Nat.iter steps (internalUpdateCentering now dt) c.

(** The point of the rendering context to which the six arguments of
    [context.transform] send a world point. *)
Definition applyTransform (m : R * R * R * R * R * R) (p : Vector.t)
  : Vector.t :=
  let '(a, b, c, d, e, f) := m in
  Vector.mk (a * Vector.x p + c * Vector.y p + e)
            (b * Vector.x p + d * Vector.y p + f).

(** A camera that nothing pushes: no inertial velocity, no pan and no
    centering animation. *)
Definition cameraAtRest (c : Camera) : Prop :=
  touchPostMoveVelocity c = Vector.mk 0 0
  /\ currentPan c = Vector.mk 0 0
  /\ desiredPan c = Vector.mk 0 0
  /\ desiredCenter c = None.

(** The direction that the held movement keys add up to, as
    [internalUpdateKeyboardForce] accumulates it in [forceX] and [forceY]. *)
Definition heldKeyForce (root : GameRoot) : Vector.t :=
  Vector.mk
    ((if mapMoveRight root then 1 else 0) - (if mapMoveLeft root then 1 else 0))
    ((if mapMoveDown root then 1 else 0) - (if mapMoveUp root then 1 else 0)).

(** Opposite movement keys are both held or both released. *)
Definition keysBalanced (root : GameRoot) : Prop :=
  mapMoveUp root = mapMoveDown root /\ mapMoveLeft root = mapMoveRight root.

(** ** Concrete environments and cameras *)

Module Example.

(** A production build on an 800 x 600 surface; no pre-handler claims a
    gesture and no movement key is held. *)
Definition root : GameRoot :=
  {| gameWidth := 800; gameHeight := 600; tileSize := 32;
     getMinimumZoom := 1 / 10; getMaximumZoom := 35 / 10;
     getTouchPanStrength := 1;
     G_IS_DEV := false; disableZoomLimits := false; testCulling := false;
     mapMoveUp := false; mapMoveDown := false;
     mapMoveLeft := false; mapMoveRight := false;
     downPreHandler := fun _ _ => false;
     movePreHandler := fun _ => false |}.

(** A development build with the debug option that switches the zoom limits
    off. *)
Definition freeRoot : GameRoot :=
  {| gameWidth := 800; gameHeight := 600; tileSize := 32;
     getMinimumZoom := 1 / 10; getMaximumZoom := 35 / 10;
     getTouchPanStrength := 1;
     G_IS_DEV := true; disableZoomLimits := true; testCulling := false;
     mapMoveUp := false; mapMoveDown := false;
     mapMoveLeft := false; mapMoveRight := false;
     downPreHandler := fun _ _ => false;
     movePreHandler := fun _ => false |}.

(** A development build with the zoom limits on and a maximum zoom of 2. *)
Definition devRoot : GameRoot :=
  {| gameWidth := 800; gameHeight := 600; tileSize := 32;
     getMinimumZoom := 1 / 10; getMaximumZoom := 2;
     getTouchPanStrength := 1;
     G_IS_DEV := true; disableZoomLimits := false; testCulling := false;
     mapMoveUp := false; mapMoveDown := false;
     mapMoveLeft := false; mapMoveRight := false;
     downPreHandler := fun _ _ => false;
     movePreHandler := fun _ => false |}.

(** A camera at rest: zoom 1, centred on the origin. *)
Definition idle : Camera :=
  {| zoomLevel := 1; center := Vector.mk 0 0;
     currentlyMoving := false; lastMovingPosition := None;
     cameraUpdateTimeBucket := 0; didMoveSinceTouchStart := false;
     currentlyPinching := false; lastPinchPositions := None;
     keyboardForce := Vector.mk 0 0; currentShake := Vector.mk 0 0;
     currentPan := Vector.mk 0 0; desiredPan := Vector.mk 0 0;
     desiredCenter := None; desiredZoom := None;
     touchPostMoveVelocity := Vector.mk 0 0 |}.

(** The camera at rest while it flies to the point (100, 0). *)
Definition centering : Camera := setDesiredCenter (Vector.mk 100 0) idle.

(** A drag in progress that started at the screen point (10, 10), begun
    while the camera was flying to (100, 0). *)
Definition dragging : Camera :=
  set_lastMovingPosition (Some (Vector.mk 10 10))
    (set_currentlyMoving true centering).

(** A pinch in progress whose last two touch points are 200 apart. *)
Definition pinching : Camera :=
  set_lastPinchPositions (Some (Vector.mk 100 300, Vector.mk 300 300))
    (set_currentlyPinching true idle).

Definition worldWith (c : Camera) : World :=
  {| camera := c; lastTouchTime := 0; warnings := []; dispatched := [] |}.

End Example.

(** ** Views used by the statements *)

(** What the zoom channel reads and writes: the zoom level, the zoom
    target and the pinch flag. *)
Definition zoomView (c : Camera) : R * option R * bool :=
  (zoomLevel c, desiredZoom c, currentlyPinching c).

(** The invariant of a zoom animation towards [target]: while the animation
    is pending its target clamps to the same value as the requested one, and
    once it is over the clamped zoom level is close to the clamped request. *)
Definition zoomTargetInvariant (root : GameRoot) (target : R) (c : Camera)
  : Prop :=
  match desiredZoom c with
  | Some dz =>
      clamp dz (getMinimumZoom root) (getMaximumZoom root)
      = clamp target (getMinimumZoom root) (getMaximumZoom root)
  | None =>
      Rabs (clamp (zoomLevel c) (getMinimumZoom root) (getMaximumZoom root)
            - clamp target (getMinimumZoom root) (getMaximumZoom root))
      <= 1 / 10000
  end.

(** Where a completed animation towards [target] leaves the zoom level:
    [clampZoomLevel] clamps the target behind its gate only. *)
Definition zoomGoal (root : GameRoot) (target : R) : R :=
  if zoomLimitsDisabled root then target
  else clamp target (getMinimumZoom root) (getMaximumZoom root).

(** The invariant of a zoom animation towards [target] while nothing clamps:
    a pending target is the requested one, and once the animation is over
    the zoom level is close to it. *)
Definition zoomRequestInvariant (target : R) (c : Camera) : Prop :=
  match desiredZoom c with
  | Some dz => dz = target
  | None => Rabs (zoomLevel c - target) <= 1 / 10000
  end.

(** A zoom level and a zoom target above zero: no channel of the integrator
    divides by zero, now or after the zoom channel has run. *)
Definition zoomPositive (c : Camera) : Prop :=
  0 < zoomLevel c /\ forall dz : R, desiredZoom c = Some dz -> 0 < dz.

(** A zoom animation in progress towards [dz], with both the zoom level
    and the target inside the limits and at most [gap] apart. *)
Definition zoomAnimating (root : GameRoot) (dz gap : R) (c : Camera) : Prop :=
  desiredZoom c = Some dz
  /\ currentlyPinching c = false
  /\ 0 <= cameraUpdateTimeBucket c
  /\ getMinimumZoom root <= dz <= getMaximumZoom root
  /\ getMinimumZoom root <= zoomLevel c <= getMaximumZoom root
  /\ Rabs (zoomLevel c - dz) <= gap.

(** Calls of [update] that each bring more than one step of time. *)
Definition everyCallSteps (calls : list (R * R)) : Prop :=
  Forall (fun call => snd call > physicsStepSizeMs) calls.

(** What the gesture handlers read and write about the gesture in
    progress. *)
Definition gestureView (c : Camera)
  : bool * option Vector.t * bool * option (Vector.t * Vector.t) :=
  (currentlyMoving c, lastMovingPosition c,
   currentlyPinching c, lastPinchPositions c).

(** A drag in progress has its last position on record, and a pinch in
    progress its last two positions. *)
Definition gestureConsistent (c : Camera) : Prop :=
  (currentlyMoving c = true -> lastMovingPosition c <> None)
  /\ (currentlyPinching c = true -> lastPinchPositions c <> None).

(** * Facts *)

(** ** Comparisons *)

Module JsFacts.

Lemma gt_true (a b : R) : Js.gt a b = true <-> a > b.
Proof. unfold Js.gt; destruct (Rgt_dec a b); split; intros; try easy; lra. Qed.

Lemma gt_false (a b : R) : Js.gt a b = false <-> a <= b.
Proof. unfold Js.gt; destruct (Rgt_dec a b); split; intros; try easy; lra. Qed.

Lemma ge_true (a b : R) : Js.ge a b = true <-> a >= b.
Proof. unfold Js.ge; destruct (Rge_dec a b); split; intros; try easy; lra. Qed.

Lemma ge_false (a b : R) : Js.ge a b = false <-> a < b.
Proof. unfold Js.ge; destruct (Rge_dec a b); split; intros; try easy; lra. Qed.

Lemma lt_true (a b : R) : Js.lt a b = true <-> a < b.
Proof. unfold Js.lt; destruct (Rlt_dec a b); split; intros; try easy; lra. Qed.

Lemma lt_false (a b : R) : Js.lt a b = false <-> b <= a.
Proof. unfold Js.lt; destruct (Rlt_dec a b); split; intros; try easy; lra. Qed.



Lemma truthy_true (a : R) : Js.truthy a = true <-> a <> 0.
Proof.
  unfold Js.truthy, Js.strictEq; destruct (Req_dec_T a 0); simpl;
    split; intros; easy.
Qed.

End JsFacts.

(** Case analysis on every comparison of reals left in the goal, the
    innermost first. *)
Ltac no_comparison t :=
  lazymatch t with
  | context [Rle_dec _ _] => fail
  | context [Rlt_dec _ _] => fail
  | context [Rgt_dec _ _] => fail
  | context [Rge_dec _ _] => fail
  | context [Req_dec_T _ _] => fail
  | context [Rcase_abs _] => fail
  | _ => idtac
  end.

Ltac case_compare :=
  repeat (match goal with
          | |- context [Rle_dec ?a ?b] =>
              no_comparison a; no_comparison b; destruct (Rle_dec a b)
          | |- context [Rlt_dec ?a ?b] =>
              no_comparison a; no_comparison b; destruct (Rlt_dec a b)
          | |- context [Rgt_dec ?a ?b] =>
              no_comparison a; no_comparison b; destruct (Rgt_dec a b)
          | |- context [Rge_dec ?a ?b] =>
              no_comparison a; no_comparison b; destruct (Rge_dec a b)
          | |- context [Req_dec_T ?a ?b] =>
              no_comparison a; no_comparison b; destruct (Req_dec_T a b)
          | |- context [Rcase_abs ?a] =>
              no_comparison a; destruct (Rcase_abs a)
          end).

(** ** [clamp] *)

Section ClampFacts.

Variables minimum maximum : R.

Lemma clamp_within (v : R) :
  minimum <= maximum -> minimum <= clamp v minimum maximum <= maximum.
Proof.
  intros Hle; unfold clamp, Math_max, Math_min.
  unfold Rmax, Rmin; case_compare; lra.
Qed.

Lemma clamp_idempotent (v : R) :
  clamp (clamp v minimum maximum) minimum maximum = clamp v minimum maximum.
Proof.
  unfold clamp, Math_max, Math_min, Rmax, Rmin.
  case_compare; lra.
Qed.

Lemma clamp_fixes (v : R) :
  minimum <= v <= maximum -> clamp v minimum maximum = v.
Proof.
  intros Hv; unfold clamp, Math_max, Math_min, Rmax, Rmin.
  case_compare; lra.
Qed.

(** [clamp] never moves two values apart. *)
Lemma clamp_nonexpansive (v w : R) :
  Rabs (clamp v minimum maximum - clamp w minimum maximum) <= Rabs (v - w).
Proof.
  unfold clamp, Math_max, Math_min, Rmax, Rmin, Rabs.
  case_compare; lra.
Qed.

End ClampFacts.

(** ** Vectors *)

Module VectorFacts.

Lemma length_nonneg (v : Vector.t) : 0 <= Vector.length v.
Proof. apply sqrt_pos. Qed.

Lemma distance_nonneg (v w : Vector.t) : 0 <= Vector.distance v w.
Proof. apply sqrt_pos. Qed.


End VectorFacts.

(** ** The coordinate mapper *)

(** C6.  With a non-zero zoom level, [worldToScreen] undoes [screenToWorld] on
    every screen point, for one and the same camera (same [zoomLevel], same
    [center]) in both calls. *)
Theorem worldToScreen_screenToWorld (root : GameRoot) (c : Camera)
  (p : Vector.t) :
  zoomLevel c <> 0 ->
  worldToScreen root c (screenToWorld root c p) = p.
Proof.
  intros Hzoom.
  unfold worldToScreen, screenToWorld, Vector.addScalars,
    Vector.multiplyScalar, Vector.sub, Vector.add, Vector.divideScalar,
    Vector.subScalars.
  destruct p as [px py]; simpl.
  f_equal; field; exact Hzoom.
Qed.

Lemma worldToScreen_screenToWorld_witness :
  zoomLevel Example.idle <> 0
  /\ worldToScreen Example.root Example.idle
       (screenToWorld Example.root Example.idle (Vector.mk 10 20))
     = Vector.mk 10 20.
Proof.
  split.
  - simpl; lra.
  - apply (worldToScreen_screenToWorld Example.root Example.idle
             (Vector.mk 10 20)).
    simpl; lra.
Defined.

(** ** Cancelling *)

(** C9.  Right after [cancelAllInteractions] the viewport will not change:
    no centering and no zoom animation is pending, no drag and no pinch is in
    progress, the inertial velocity is the zero vector, and the user is not
    interacting. *)
Theorem cancelAllInteractions_settles (c : Camera) :
  let c' := cancelAllInteractions c in
  viewportWillChange c' = false
  /\ desiredCenter c' = None
  /\ desiredZoom c' = None
  /\ currentlyMoving c' = false
  /\ currentlyPinching c' = false
  /\ touchPostMoveVelocity c' = Vector.mk 0 0
  /\ isCurrentlyInteracting c' = false.
Proof.
  assert (Hlen : Js.gt (Vector.lengthSquare (Vector.mk 0 0)) 1 = false).
  { apply JsFacts.gt_false; unfold Vector.lengthSquare; simpl; lra. }
  unfold viewportWillChange, isCurrentlyInteracting, cancelAllInteractions.
  simpl; rewrite Hlen; repeat split; reflexivity.
Qed.

(** ** Single-touch gestures *)

(** C10.  A drag-move sample that arrives while no drag is in progress
    returns normally and leaves the camera as it was, whatever the position
    of the sample and whatever the pre-handler answers; the world differs
    only by the dispatch to the pre-handler. *)
Theorem dragMove_without_drag_keeps_camera (root : GameRoot) (x y : R)
  (w : World) :
  currentlyMoving (camera w) = false ->
  combinedSingleTouchMoveHandler root x y w
    = Normal (dispatch (MovePreHandler (Vector.mk x y)) w)
  /\ camera (worldOf (combinedSingleTouchMoveHandler root x y w)) = camera w.
Proof.
  intros Hidle.
  assert (Heq : combinedSingleTouchMoveHandler root x y w
                = Normal (dispatch (MovePreHandler (Vector.mk x y)) w)).
  { unfold combinedSingleTouchMoveHandler.
    destruct (movePreHandler root (Vector.mk x y)); [reflexivity|].
    simpl; rewrite Hidle; reflexivity. }
  split; [exact Heq | rewrite Heq; reflexivity].
Qed.

Lemma dragMove_without_drag_keeps_camera_witness :
  currentlyMoving (camera (Example.worldWith Example.idle)) = false
  /\ camera
       (worldOf
          (combinedSingleTouchMoveHandler Example.root 40 50
             (Example.worldWith Example.idle)))
     = Example.idle.
Proof.
  split.
  - reflexivity.
  - apply (dragMove_without_drag_keeps_camera Example.root 40 50
             (Example.worldWith Example.idle)).
    reflexivity.
Defined.

(** ** Touch end *)

(** C2.  What [onTouchEnd] does with an event whose [changedTouches] is
    empty: it records the time, logs the warning, and then reads [clientX]
    of the missing first touch, which raises a [TypeError].  The camera is
    untouched, but the handler does not return. *)
Theorem onTouchEnd_without_changedTouches_raises (performanceNow : R)
  (remaining : list Touch) (w : World) :
  let event := {| touches := remaining; changedTouches := [] |} in
  onTouchEnd performanceNow (Some event) w
    = TypeError
        (logger_warn "Touch end without changed touches"
           (set_lastTouchTime performanceNow w))
  /\ completesNormally (onTouchEnd performanceNow (Some event) w) = false
  /\ camera (worldOf (onTouchEnd performanceNow (Some event) w)) = camera w.
Proof.
  simpl; repeat split; reflexivity.
Qed.

(** ** The channels of the integrator *)

(** Reduction of the record operations only; the functions on real numbers
    stay folded. *)
Ltac cam_simpl :=
  cbn [zoomLevel center currentlyMoving lastMovingPosition
       cameraUpdateTimeBucket didMoveSinceTouchStart currentlyPinching
       lastPinchPositions keyboardForce currentShake currentPan desiredPan
       desiredCenter desiredZoom touchPostMoveVelocity
       set_zoomLevel set_center set_currentlyMoving set_lastMovingPosition
       set_cameraUpdateTimeBucket set_didMoveSinceTouchStart
       set_currentlyPinching set_lastPinchPositions set_keyboardForce
       set_currentShake set_currentPan set_desiredPan set_desiredCenter
       set_desiredZoom set_touchPostMoveVelocity
       camera lastTouchTime warnings dispatched
       set_camera set_lastTouchTime logger_warn dispatch worldOf
       Vector.x Vector.y Vector.setX Vector.setY
       negb andb orb fst snd Js.notNull Js.truthyObject Js.truthyNumber].

Ltac channel_cases :=
  repeat (match goal with
          | |- context [match ?o with Some _ => _ | None => _ end] => destruct o
          | |- context [if ?b then _ else _] => destruct b
          end);
  simpl; try reflexivity.

Lemma physicsStepSizeMs_value : physicsStepSizeMs = 25 / 6.
Proof. unfold physicsStepSizeMs, updatesPerFrame; field. Qed.

Section ChannelFrames.

Variable root : GameRoot.
Variables now dt : R.

Lemma zoomView_set_bucket (b : R) (c : Camera) :
  zoomView (set_cameraUpdateTimeBucket b c) = zoomView c.
Proof. reflexivity. Qed.

Lemma zoomView_panning (c : Camera) :
  zoomView (internalUpdatePanning root now dt c) = zoomView c.
Proof.
  unfold zoomView, internalUpdatePanning; destruct c; simpl; channel_cases.
Qed.

Lemma zoomView_centering (c : Camera) :
  zoomView (internalUpdateCentering now dt c) = zoomView c.
Proof.
  unfold zoomView, internalUpdateCentering; destruct c; simpl; channel_cases.
Qed.

Lemma zoomView_shake (c : Camera) :
  zoomView (internalUpdateShake now dt c) = zoomView c.
Proof. reflexivity. Qed.

Lemma zoomView_keyboardForce (c : Camera) :
  zoomView (internalUpdateKeyboardForce root now dt c) = zoomView c.
Proof.
  unfold zoomView, internalUpdateKeyboardForce; destruct c; simpl.
  match goal with |- context [if ?b then _ else _] => destruct b end;
    reflexivity.
Qed.

Lemma bucket_panning (c : Camera) :
  cameraUpdateTimeBucket (internalUpdatePanning root now dt c)
  = cameraUpdateTimeBucket c.
Proof.
  unfold internalUpdatePanning; destruct c; simpl; channel_cases.
Qed.

Lemma bucket_zooming (c : Camera) :
  cameraUpdateTimeBucket (internalUpdateZooming now dt c)
  = cameraUpdateTimeBucket c.
Proof.
  unfold internalUpdateZooming; destruct c; simpl; channel_cases.
Qed.

Lemma bucket_centering (c : Camera) :
  cameraUpdateTimeBucket (internalUpdateCentering now dt c)
  = cameraUpdateTimeBucket c.
Proof.
  unfold internalUpdateCentering; destruct c; simpl; channel_cases.
Qed.

Lemma bucket_shake (c : Camera) :
  cameraUpdateTimeBucket (internalUpdateShake now dt c)
  = cameraUpdateTimeBucket c.
Proof. reflexivity. Qed.

Lemma bucket_keyboardForce (c : Camera) :
  cameraUpdateTimeBucket (internalUpdateKeyboardForce root now dt c)
  = cameraUpdateTimeBucket c.
Proof.
  unfold internalUpdateKeyboardForce; destruct c; simpl.
  match goal with |- context [if ?b then _ else _] => destruct b end;
    reflexivity.
Qed.

(** The zoom channel reads nothing but the zoom view. *)
Lemma zoomView_zooming (now' dt' : R) (c c' : Camera) :
  zoomView c = zoomView c' ->
  zoomView (internalUpdateZooming now dt c)
  = zoomView (internalUpdateZooming now' dt' c').
Proof.
  unfold zoomView; destruct c, c'; simpl; intros Hview.
  injection Hview as Hzoom Htarget Hpinch; subst.
  unfold internalUpdateZooming; simpl; channel_cases.
Qed.

End ChannelFrames.

Create Rewrite HintDb camera_frame.

#[global] Hint Rewrite zoomView_set_bucket zoomView_panning zoomView_centering
  zoomView_shake zoomView_keyboardForce : camera_frame.
#[global] Hint Rewrite bucket_panning bucket_zooming bucket_centering
  bucket_shake bucket_keyboardForce : camera_frame.

Lemma zoomView_eq (c c' : Camera) :
  zoomView c = zoomView c' ->
  zoomLevel c = zoomLevel c'
  /\ desiredZoom c = desiredZoom c'
  /\ currentlyPinching c = currentlyPinching c'.
Proof.
  unfold zoomView; intros Hview; injection Hview as Hzoom Htarget Hpinch.
  repeat split; assumption.
Qed.

Lemma updateLoopBody_bucket (root : GameRoot) (now : R) (c : Camera) :
  cameraUpdateTimeBucket (snd (updateLoopBody root now c))
  = cameraUpdateTimeBucket c - physicsStepSizeMs.
Proof.
  unfold updateLoopBody; cbv zeta; simpl snd.
  autorewrite with camera_frame; reflexivity.
Qed.

Lemma updateLoopBody_zoomView (root : GameRoot) (now now' dt' : R) (c : Camera) :
  zoomView (snd (updateLoopBody root now c))
  = zoomView (internalUpdateZooming now' dt' c).
Proof.
  unfold updateLoopBody; cbv zeta; simpl snd.
  autorewrite with camera_frame.
  apply zoomView_zooming.
  autorewrite with camera_frame; reflexivity.
Qed.

(** ** The loop of [update] *)

Lemma clampZoomLevel_bucket (root : GameRoot) (c : Camera) :
  cameraUpdateTimeBucket (clampZoomLevel root c) = cameraUpdateTimeBucket c.
Proof.
  unfold clampZoomLevel; destruct c; simpl; channel_cases.
Qed.

Lemma physicsStepSizeMs_pos : 0 < physicsStepSizeMs.
Proof. rewrite physicsStepSizeMs_value; lra. Qed.

Section UpdateLoop.

Variable root : GameRoot.

Lemma updateLoop_at_rest (fuel : nat) (now : R) (c : Camera) :
  cameraUpdateTimeBucket c <= physicsStepSizeMs ->
  updateLoop root fuel now c = c.
Proof.
  intros Hrest; destruct fuel; simpl; [reflexivity|].
  apply JsFacts.gt_false in Hrest; rewrite Hrest; reflexivity.
Qed.

Lemma updateLoop_S (fuel : nat) (now : R) (c : Camera) :
  updateLoop root (S fuel) now c
  = if Js.gt (cameraUpdateTimeBucket c) physicsStepSizeMs
    then updateLoop root fuel (fst (updateLoopBody root now c))
           (snd (updateLoopBody root now c))
    else c.
Proof.
  cbn [updateLoop].
  destruct (Js.gt (cameraUpdateTimeBucket c) physicsStepSizeMs); [|reflexivity].
  destruct (updateLoopBody root now c) as [now' c']; reflexivity.
Qed.

(** With fuel for the whole bucket the loop stops because its condition is
    false, not because the fuel is spent. *)
Lemma updateLoop_drains (fuel : nat) :
  forall (now : R) (c : Camera),
    cameraUpdateTimeBucket c < (INR fuel + 1) * physicsStepSizeMs ->
    cameraUpdateTimeBucket (updateLoop root fuel now c) <= physicsStepSizeMs.
Proof.
  induction fuel as [|fuel IH]; intros now c Hbound.
  - simpl in *; lra.
  - rewrite updateLoop_S.
    destruct (Js.gt (cameraUpdateTimeBucket c) physicsStepSizeMs) eqn:Hgo.
    + apply IH; rewrite updateLoopBody_bucket; rewrite S_INR in Hbound; lra.
    + apply JsFacts.gt_false; exact Hgo.
Qed.

Lemma updateLoop_more_fuel (fuel : nat) :
  forall (now : R) (c : Camera) (extra : nat),
    cameraUpdateTimeBucket c < (INR fuel + 1) * physicsStepSizeMs ->
    updateLoop root (fuel + extra) now c = updateLoop root fuel now c.
Proof.
  induction fuel as [|fuel IH]; intros now c extra Hbound.
  - simpl in Hbound; simpl updateLoop at 2.
    apply updateLoop_at_rest; lra.
  - replace (S fuel + extra)%nat with (S (fuel + extra)) by reflexivity.
    rewrite !updateLoop_S.
    destruct (Js.gt (cameraUpdateTimeBucket c) physicsStepSizeMs) eqn:Hgo;
      [|reflexivity].
    apply IH; rewrite updateLoopBody_bucket; rewrite S_INR in Hbound; lra.
Qed.

Lemma updateLoopBound_enough (c : Camera) :
  cameraUpdateTimeBucket c < (INR (updateLoopBound c) + 1) * physicsStepSizeMs.
Proof.
  unfold updateLoopBound.
  set (q := cameraUpdateTimeBucket c / physicsStepSizeMs).
  pose proof physicsStepSizeMs_pos as Hstep.
  destruct (archimed q) as [Hup _].
  assert (Hnat : IZR (up q) <= INR (Z.to_nat (up q))).
  { destruct (Z_lt_le_dec (up q) 0) as [Hneg|Hnonneg].
    - apply IZR_lt in Hneg. pose proof (pos_INR (Z.to_nat (up q))). lra.
    - rewrite INR_IZR_INZ, Z2Nat.id by exact Hnonneg. lra. }
  assert (Hq : cameraUpdateTimeBucket c = q * physicsStepSizeMs).
  { unfold q; field; lra. }
  rewrite Hq.
  apply Rmult_lt_compat_r; [exact Hstep | lra].
Qed.

End UpdateLoop.

(** C3, as stated, fails: the bucket is empty (below the step size), [dt] is
    the step size itself (non-negative, below the clamp of 33), and after
    [update] the bucket holds exactly one step size, which is not strictly
    less than it. *)
Lemma update_bucket_can_equal_step :
  0 <= 25 / 6 <= 33
  /\ cameraUpdateTimeBucket Example.idle < physicsStepSizeMs
  /\ ~ cameraUpdateTimeBucket (update Example.root 0 (25 / 6) Example.idle)
       < physicsStepSizeMs.
Proof.
  split; [lra|]. split; [rewrite physicsStepSizeMs_value; simpl; lra|].
  unfold update; cbv zeta.
  rewrite clampZoomLevel_bucket.
  assert (Hmin : Math_min (25 / 6) 33 = 25 / 6).
  { unfold Math_min; apply Rmin_left; lra. }
  rewrite Hmin, updateLoop_at_rest; simpl; rewrite physicsStepSizeMs_value; lra.
Qed.

(** C3, amended.  After [update] returns, whatever [dt] and whatever the
    bucket held before, [cameraUpdateTimeBucket] is at most the physics step
    size: the loop runs while the bucket is strictly greater than one
    step. *)
Theorem update_bucket_at_most_step (root : GameRoot) (systemNow dt : R)
  (c : Camera) :
  cameraUpdateTimeBucket (update root systemNow dt c) <= physicsStepSizeMs.
Proof.
  unfold update; cbv zeta.
  rewrite clampZoomLevel_bucket.
  apply updateLoop_drains, updateLoopBound_enough.
Qed.

(** ** The order of the channels within one step *)

Lemma internalUpdatePanning_halves (root : GameRoot) (now dt : R) (c : Camera) :
  internalUpdatePanning root now dt c
  = panBlend now dt (inertialPan root now dt c).
Proof.
  unfold internalUpdatePanning, panBlend, inertialPan.
  destruct c as [? ? moving ? ? ? pinching ? ? ? ? ? ? ? ?].
  destruct moving, pinching; cam_simpl;
    repeat (match goal with
            | |- context [Js.ge ?a ?b] => destruct (Js.ge a b)
            end);
    reflexivity.
Qed.

Section ShakeCommutes.

Variable root : GameRoot.
Variables now dt : R.

Lemma shake_inertialPan (c : Camera) :
  internalUpdateShake now dt (inertialPan root now dt c)
  = inertialPan root now dt (internalUpdateShake now dt c).
Proof.
  unfold internalUpdateShake, inertialPan.
  destruct c as [? ? moving ? ? ? pinching ? ? ? ? ? ? ? ?].
  destruct moving, pinching; cam_simpl;
    repeat (match goal with
            | |- context [Js.ge ?a ?b] => destruct (Js.ge a b)
            end);
    reflexivity.
Qed.

Lemma shake_panBlend (c : Camera) :
  internalUpdateShake now dt (panBlend now dt c)
  = panBlend now dt (internalUpdateShake now dt c).
Proof.
  unfold internalUpdateShake, panBlend.
  destruct c as [? ? moving ? ? ? pinching ? ? ? ? ? ? ? ?].
  destruct moving, pinching; reflexivity.
Qed.

Lemma shake_zooming (c : Camera) :
  internalUpdateShake now dt (internalUpdateZooming now dt c)
  = internalUpdateZooming now dt (internalUpdateShake now dt c).
Proof.
  unfold internalUpdateShake, internalUpdateZooming.
  destruct c as [? ? ? ? ? ? pinching ? ? ? ? ? ? target ?].
  destruct target, pinching; cam_simpl;
    repeat (match goal with
            | |- context [Js.gt ?a ?b] => destruct (Js.gt a b)
            end);
    reflexivity.
Qed.

Lemma shake_centering (c : Camera) :
  internalUpdateShake now dt (internalUpdateCentering now dt c)
  = internalUpdateCentering now dt (internalUpdateShake now dt c).
Proof.
  unfold internalUpdateShake, internalUpdateCentering.
  destruct c as [? ? moving ? ? ? ? ? ? ? ? ? target ? ?].
  destruct target, moving; cam_simpl;
    repeat (match goal with
            | |- context [Js.gt ?a ?b] => destruct (Js.gt a b)
            end);
    reflexivity.
Qed.

End ShakeCommutes.

(** C7.  One integration step of [update] (after the step size is taken off
    the bucket) is the composition of the channel updates in the order shake
    decay, inertial pan, programmatic pan blend, programmatic zoom blend,
    programmatic centering, keyboard force.  The source calls the shake
    decay fourth; it reads and writes [currentShake] only, which no other
    channel touches, so the step is the same function. *)
Theorem updateLoopBody_channel_order (root : GameRoot) (now : R) (c : Camera) :
  let now' := now + physicsStepSizeMs in
  let dt := physicsStepSizeMs in
  let c0 :=
    set_cameraUpdateTimeBucket (cameraUpdateTimeBucket c - physicsStepSizeMs) c in
  updateLoopBody root now c
  = (now',
     internalUpdateKeyboardForce root now' dt
       (internalUpdateCentering now' dt
          (internalUpdateZooming now' dt
             (panBlend now' dt
                (inertialPan root now' dt
                   (internalUpdateShake now' dt c0)))))).
Proof.
  intros now' dt c0; unfold updateLoopBody; cbv zeta.
  fold now' dt c0.
  rewrite shake_centering, shake_zooming.
  rewrite internalUpdatePanning_halves.
  rewrite shake_panBlend, shake_inertialPan.
  reflexivity.
Qed.

(** ** The zoom limits *)

Section ZoomLimits.

Variable root : GameRoot.
Hypothesis limitsEnabled : zoomLimitsDisabled root = false.
Hypothesis limitsOrdered : getMinimumZoom root <= getMaximumZoom root.

Lemma zoomLevel_clampZoomLevel (c : Camera) :
  zoomLevel (clampZoomLevel root c)
  = clamp (zoomLevel c) (getMinimumZoom root) (getMaximumZoom root).
Proof.
  unfold clampZoomLevel; rewrite limitsEnabled; cam_simpl.
  destruct (desiredZoom c) as [dz|]; [destruct (Js.truthy dz)|]; reflexivity.
Qed.

Lemma within_clampZoomLevel (c : Camera) :
  withinZoomLimits root (clampZoomLevel root c).
Proof.
  unfold withinZoomLimits; rewrite zoomLevel_clampZoomLevel.
  apply clamp_within, limitsOrdered.
Qed.

Lemma within_update (systemNow dt : R) (c : Camera) :
  withinZoomLimits root (update root systemNow dt c).
Proof. unfold update; cbv zeta; apply within_clampZoomLevel. Qed.

Lemma within_updates (calls : list (R * R)) (c : Camera) :
  calls <> [] -> withinZoomLimits root (updates root calls c).
Proof.
  destruct calls as [|call calls] using rev_ind; [congruence|].
  intros _; unfold updates; rewrite fold_left_app; simpl.
  apply within_update.
Qed.

Lemma within_newCamera : withinZoomLimits root (newCamera root).
Proof. unfold newCamera; apply within_clampZoomLevel. Qed.

(** The handlers that never write [zoomLevel]. *)

Lemma zoomLevel_startHandler (x y : R) (w : World) :
  zoomLevel (camera (combinedSingleTouchStartHandler root x y w))
  = zoomLevel (camera w).
Proof.
  unfold combinedSingleTouchStartHandler.
  destruct (downPreHandler root (Vector.mk x y) enumMouseButton.left);
    reflexivity.
Qed.

Lemma zoomLevel_moveHandler (x y : R) (w : World) :
  zoomLevel (camera (worldOf (combinedSingleTouchMoveHandler root x y w)))
  = zoomLevel (camera w).
Proof.
  unfold combinedSingleTouchMoveHandler.
  destruct (movePreHandler root (Vector.mk x y)); [reflexivity|].
  cam_simpl.
  destruct (currentlyMoving (camera w)); [|reflexivity].
  destruct (lastMovingPosition (camera w)); [|reflexivity].
  cam_simpl.
  destruct (desiredCenter (camera w)); reflexivity.
Qed.

Lemma zoomLevel_stopHandler (x y : R) (w : World) :
  zoomLevel (camera (combinedSingleTouchStopHandler x y w))
  = zoomLevel (camera w).
Proof.
  unfold combinedSingleTouchStopHandler.
  destruct (currentlyMoving (camera w) || currentlyPinching (camera w));
    reflexivity.
Qed.

Lemma zoomLevel_pinchMove_raises (touch1 touch2 : Touch) (w w' : World) :
  pinchMove root touch1 touch2 w = TypeError w' -> w' = w.
Proof.
  unfold pinchMove.
  destruct (lastPinchPositions (camera w)) as [last|]; [|congruence].
  cam_simpl; destruct (desiredZoom (camera w)) as [dz|]; cam_simpl;
    [destruct (Js.truthy dz)|]; discriminate.
Qed.

Lemma moveHandler_raises (x y : R) (w w' : World) :
  combinedSingleTouchMoveHandler root x y w = TypeError w' ->
  camera w' = camera w.
Proof.
  unfold combinedSingleTouchMoveHandler.
  destruct (movePreHandler root (Vector.mk x y)); [discriminate|].
  cam_simpl.
  destruct (currentlyMoving (camera w)); [|discriminate].
  destruct (lastMovingPosition (camera w)).
  - cam_simpl; destruct (desiredCenter (camera w)); discriminate.
  - intros Heq; injection Heq as <-; reflexivity.
Qed.

(** A handler that ends with [clampZoomLevel] unless it raised. *)
Lemma within_clamped_completion (r : Completion) (w : World) :
  withinZoomLimits root (camera w) ->
  (forall w', r = TypeError w' -> camera w' = camera w) ->
  withinZoomLimits root
    (camera
       (worldOf
          match r with
          | Normal w1 => Normal (set_camera (clampZoomLevel root (camera w1)) w1)
          | TypeError w1 => TypeError w1
          end)).
Proof.
  intros Hw Hraise; destruct r as [w1|w1]; cam_simpl.
  - apply within_clampZoomLevel.
  - rewrite (Hraise w1 eq_refl); exact Hw.
Qed.

Lemma within_onMouseMove (performanceNow : R) (event : MouseEvent) (w : World) :
  withinZoomLimits root (camera w) ->
  withinZoomLimits root
    (camera (worldOf (onMouseMove root performanceNow event w))).
Proof.
  intros Hw; unfold onMouseMove.
  destruct (negb (checkPreventDoubleMouse performanceNow w)); [exact Hw|].
  cbv zeta; apply (within_clamped_completion _ w); [exact Hw|].
  destruct (Z.eqb (which event) 1); [|discriminate].
  intros w'; apply moveHandler_raises.
Qed.

Lemma within_onTouchMove (performanceNow : R) (event : TouchEvent) (w : World) :
  withinZoomLimits root (camera w) ->
  withinZoomLimits root
    (camera (worldOf (onTouchMove root performanceNow event w))).
Proof.
  intros Hw; unfold onTouchMove; cbv zeta.
  apply (within_clamped_completion _ (set_lastTouchTime performanceNow w));
    [exact Hw|].
  destruct (touches event) as [|touch1 [|touch2 [|touch3 rest]]];
    try discriminate.
  - intros w'; apply moveHandler_raises.
  - cam_simpl.
    destruct (currentlyPinching (camera w)); [|discriminate].
    intros w' Hraise; apply zoomLevel_pinchMove_raises in Hraise.
    rewrite Hraise; reflexivity.
Qed.

Lemma zoomLevel_onMouseDown (performanceNow : R) (event : MouseEvent)
  (w : World) :
  zoomLevel (camera (onMouseDown root performanceNow event w))
  = zoomLevel (camera w).
Proof.
  unfold onMouseDown.
  destruct (negb (checkPreventDoubleMouse performanceNow w)); [reflexivity|].
  cbv zeta.
  destruct (Z.eqb (which event) 1); [rewrite zoomLevel_startHandler; reflexivity|].
  destruct (Z.eqb (which event) 2); [reflexivity|].
  destruct (Z.eqb (which event) 3); reflexivity.
Qed.

Lemma zoomLevel_onMouseUp (performanceNow : R) (event : option MouseEvent)
  (w : World) :
  zoomLevel (camera (worldOf (onMouseUp performanceNow event w)))
  = zoomLevel (camera w).
Proof.
  unfold onMouseUp.
  destruct (negb (checkPreventDoubleMouse performanceNow w)); [reflexivity|].
  destruct event as [event|]; [|reflexivity].
  cam_simpl; apply zoomLevel_stopHandler.
Qed.

Lemma zoomLevel_onTouchStart (performanceNow : R) (event : TouchEvent)
  (w : World) :
  zoomLevel (camera (onTouchStart root performanceNow event w))
  = zoomLevel (camera w).
Proof.
  unfold onTouchStart; cbv zeta.
  destruct (touches event) as [|touch1 [|touch2 [|touch3 rest]]];
    try reflexivity.
  rewrite zoomLevel_startHandler; reflexivity.
Qed.

Lemma zoomLevel_onTouchEnd (performanceNow : R) (event : option TouchEvent)
  (w : World) :
  zoomLevel (camera (worldOf (onTouchEnd performanceNow event w)))
  = zoomLevel (camera w).
Proof.
  unfold onTouchEnd; cbv zeta.
  destruct event as [event|]; [|reflexivity].
  destruct (changedTouches event) as [|touch rest]; [reflexivity|].
  cbn [List.length Nat.eqb worldOf].
  rewrite zoomLevel_stopHandler; reflexivity.
Qed.

Lemma zoomLevel_keyBindingHandler (k : KeyBinding) (c : Camera) :
  zoomLevel (keyBindingHandler k c) = zoomLevel c.
Proof. destruct k; reflexivity. Qed.

Lemma within_perform (op : Operation) (w : World) :
  regularOperation root op ->
  withinZoomLimits root (camera w) ->
  withinZoomLimits root (camera (worldOf (perform root op w))).
Proof.
  intros Hregular Hw; unfold withinZoomLimits in *.
  destruct op; unfold perform, onCamera; cbn [worldOf camera set_camera].
  - apply within_update.
  - unfold transform.
    destruct (G_IS_DEV root && testCulling root); cbn [fst]; [exact Hw|].
    apply within_clampZoomLevel.
  - exact Hw.
  - exact Hw.
  - exact Hw.
  - exact Hw.
  - exact Hw.
  - exact Hw.
  - rewrite zoomLevel_keyBindingHandler; exact Hw.
  - rewrite zoomLevel_onMouseDown; exact Hw.
  - apply within_onMouseMove; exact Hw.
  - rewrite zoomLevel_onMouseUp; exact Hw.
  - unfold onMouseWheel; cam_simpl. apply within_clampZoomLevel.
  - rewrite zoomLevel_onTouchStart; exact Hw.
  - apply within_onTouchMove; exact Hw.
  - rewrite zoomLevel_onTouchEnd; exact Hw.
  - unfold regularOperation, isUnclampedDebugWrite in Hregular.
    unfold devKeydownListener.
    destruct (G_IS_DEV root); [|exact Hw].
    simpl in Hregular; rewrite Hregular; exact Hw.
Qed.

Lemma within_reachable (w : World) :
  reachable root (regularOperation root) w ->
  withinZoomLimits root (camera w).
Proof.
  induction 1 as [touchTime | op w Hreach IH Hregular].
  - apply within_newCamera.
  - apply within_perform; assumption.
Qed.

End ZoomLimits.

(** C1, as stated, fails: in a development build with the zoom limits on and
    a maximum zoom of 2, the [keydown] listener of the constructor, on the
    key "l", leaves a freshly constructed camera at zoom level 3. *)
Lemma devKeydown_escapes_zoom_limits :
  zoomLimitsDisabled Example.devRoot = false
  /\ getMinimumZoom Example.devRoot <= getMaximumZoom Example.devRoot
  /\ reachable Example.devRoot anyOperation
       (worldOf
          (perform Example.devRoot (OpDevKeydown "l")
             (newWorld Example.devRoot 0)))
  /\ ~ withinZoomLimits Example.devRoot
         (camera
            (worldOf
               (perform Example.devRoot (OpDevKeydown "l")
                  (newWorld Example.devRoot 0)))).
Proof.
  split; [reflexivity|].
  split; [simpl; lra|].
  split.
  - apply reachable_perform; [apply reachable_new | exact I].
  - assert (Hzoom :
      zoomLevel
        (camera
           (worldOf
              (perform Example.devRoot (OpDevKeydown "l")
                 (newWorld Example.devRoot 0)))) = 3) by reflexivity.
    unfold withinZoomLimits; rewrite Hzoom; simpl; lra.
Qed.

(** C1, amended.  With the zoom limits enabled and the minimum not above the
    maximum: after every call of every sequence of [update] calls, from any
    camera and with any [dt], [zoomLevel] lies within the limits; every
    operation other than the debug key of a development build keeps
    [zoomLevel] within the limits, whether it returns or raises; and so does
    every world reached from the constructor by such operations. *)
Theorem zoomLevel_within_limits (root : GameRoot) :
  zoomLimitsDisabled root = false ->
  getMinimumZoom root <= getMaximumZoom root ->
  (forall (calls : list (R * R)) (c : Camera),
      calls <> [] -> withinZoomLimits root (updates root calls c))
  /\ (forall (op : Operation) (w : World),
         regularOperation root op ->
         withinZoomLimits root (camera w) ->
         withinZoomLimits root (camera (worldOf (perform root op w))))
  /\ (forall w : World,
         reachable root (regularOperation root) w ->
         withinZoomLimits root (camera w)).
Proof.
  intros Henabled Hordered; split; [|split].
  - intros calls c; apply within_updates; assumption.
  - intros op w; apply within_perform; assumption.
  - intros w; apply within_reachable; assumption.
Qed.

Lemma zoomLevel_within_limits_witness :
  withinZoomLimits Example.root
    (updates Example.root [(0, 16); (16, 40)] Example.idle).
Proof.
  apply (zoomLevel_within_limits Example.root).
  - reflexivity.
  - simpl; lra.
  - discriminate.
Defined.

(** ** The zoom animation *)

Section ZoomAnimation.

Variable root : GameRoot.
Hypothesis limitsEnabled : zoomLimitsDisabled root = false.
Variable target : R.

Local Abbreviation minimum := (getMinimumZoom root).
Local Abbreviation maximum := (getMaximumZoom root).

Lemma zoomTargetInvariant_view (c c' : Camera) :
  zoomView c = zoomView c' ->
  zoomTargetInvariant root target c -> zoomTargetInvariant root target c'.
Proof.
  unfold zoomView, zoomTargetInvariant; intros Hview.
  injection Hview as -> -> _; trivial.
Qed.

Lemma zoomTargetInvariant_request (c : Camera) :
  zoomTargetInvariant root target (requestZoom target c).
Proof. reflexivity. Qed.

Lemma zoomTargetInvariant_zooming (now dt : R) (c : Camera) :
  zoomTargetInvariant root target c ->
  zoomTargetInvariant root target (internalUpdateZooming now dt c).
Proof.
  unfold zoomTargetInvariant, internalUpdateZooming.
  destruct (desiredZoom c) as [dz|] eqn:Htarget; [|rewrite Htarget; trivial].
  intros Hinv.
  destruct (negb (currentlyPinching c)); [|rewrite Htarget; exact Hinv].
  cbv zeta.
  destruct (Js.gt (Math_abs (zoomLevel c - dz)) (1 / 10000)) eqn:Hgap;
    cam_simpl.
  - rewrite Htarget; exact Hinv.
  - apply JsFacts.gt_false in Hgap; unfold Math_abs in Hgap.
    rewrite <- Hinv.
    eapply Rle_trans; [apply clamp_nonexpansive | exact Hgap].
Qed.

Lemma zoomTargetInvariant_body (now : R) (c : Camera) :
  zoomTargetInvariant root target c ->
  zoomTargetInvariant root target (snd (updateLoopBody root now c)).
Proof.
  intros Hinv.
  apply (zoomTargetInvariant_view (internalUpdateZooming now 0 c)).
  - symmetry; apply updateLoopBody_zoomView.
  - apply zoomTargetInvariant_zooming; exact Hinv.
Qed.

Lemma zoomTargetInvariant_loop (fuel : nat) :
  forall (now : R) (c : Camera),
    zoomTargetInvariant root target c ->
    zoomTargetInvariant root target (updateLoop root fuel now c).
Proof.
  induction fuel as [|fuel IH]; intros now c Hinv; [exact Hinv|].
  rewrite updateLoop_S.
  destruct (Js.gt (cameraUpdateTimeBucket c) physicsStepSizeMs);
    [|exact Hinv].
  apply IH, zoomTargetInvariant_body; exact Hinv.
Qed.

Lemma zoomTargetInvariant_clamp (c : Camera) :
  zoomTargetInvariant root target c ->
  zoomTargetInvariant root target (clampZoomLevel root c).
Proof.
  unfold zoomTargetInvariant, clampZoomLevel; rewrite limitsEnabled.
  cam_simpl.
  destruct (desiredZoom c) as [dz|] eqn:Htarget.
  - intros Hinv; destruct (Js.truthy dz); cam_simpl; rewrite ?Htarget.
    + rewrite clamp_idempotent; exact Hinv.
    + exact Hinv.
  - cam_simpl; rewrite Htarget, clamp_idempotent; trivial.
Qed.

Lemma zoomTargetInvariant_update (systemNow dt : R) (c : Camera) :
  zoomTargetInvariant root target c ->
  zoomTargetInvariant root target (update root systemNow dt c).
Proof.
  intros Hinv; unfold update; cbv zeta.
  apply zoomTargetInvariant_clamp, zoomTargetInvariant_loop.
  exact Hinv.
Qed.

Lemma zoomTargetInvariant_updates (calls : list (R * R)) :
  forall c : Camera,
    zoomTargetInvariant root target c ->
    zoomTargetInvariant root target (updates root calls c).
Proof.
  induction calls as [|call calls IH]; intros c Hinv; [exact Hinv|].
  apply IH, zoomTargetInvariant_update; exact Hinv.
Qed.

(** After an [update] the zoom level is a clamped value. *)
Lemma zoomLevel_update_clamped (systemNow dt : R) (c : Camera) :
  clamp (zoomLevel (update root systemNow dt c)) minimum maximum
  = zoomLevel (update root systemNow dt c).
Proof.
  unfold update; cbv zeta.
  rewrite (zoomLevel_clampZoomLevel root limitsEnabled).
  apply clamp_idempotent.
Qed.

Lemma zoom_animation_settles (calls : list (R * R)) (c : Camera) :
  desiredZoom (updates root calls (requestZoom target c)) = None ->
  Rabs (zoomLevel (updates root calls (requestZoom target c))
        - clamp target minimum maximum) <= 1 / 10000.
Proof.
  intros Hdone.
  pose proof (zoomTargetInvariant_updates calls _
                (zoomTargetInvariant_request c)) as Hinv.
  unfold zoomTargetInvariant in Hinv; rewrite Hdone in Hinv.
  destruct calls as [|call calls] using rev_ind; [discriminate Hdone|].
  clear IHcalls.
  unfold updates in *; rewrite fold_left_app in *; simpl fold_left in *.
  rewrite zoomLevel_update_clamped in Hinv; exact Hinv.
Qed.

End ZoomAnimation.

(** What one step of the zoom channel does. *)
Lemma internalUpdateZooming_cases (now dt : R) (c : Camera) (dz : R) :
  desiredZoom c = Some dz ->
  currentlyPinching c = false ->
  (zoomLevel c - dz > 1 / 10000 ->
   internalUpdateZooming now dt c
   = set_zoomLevel (zoomLevel c * (9 / 10) + dz * (1 - 9 / 10)) c)
  /\ (dz - zoomLevel c > 1 / 10000 ->
      internalUpdateZooming now dt c
      = set_zoomLevel (zoomLevel c * (94 / 100) + dz * (1 - 94 / 100)) c)
  /\ (Rabs (zoomLevel c - dz) <= 1 / 10000 ->
      internalUpdateZooming now dt c = set_desiredZoom None c).
Proof.
  intros Htarget Hfree; unfold internalUpdateZooming.
  rewrite Htarget, Hfree; cbn [negb]; cbv zeta.
  split; [|split]; intros Hgap.
  - assert (Hfar : Js.gt (Math_abs (zoomLevel c - dz)) (1 / 10000) = true).
    { apply JsFacts.gt_true; unfold Math_abs; rewrite Rabs_right; lra. }
    assert (Hout : Js.gt (zoomLevel c - dz) 0 = true).
    { apply JsFacts.gt_true; lra. }
    rewrite Hfar, Hout; reflexivity.
  - assert (Hfar : Js.gt (Math_abs (zoomLevel c - dz)) (1 / 10000) = true).
    { apply JsFacts.gt_true; unfold Math_abs; rewrite Rabs_left; lra. }
    assert (Hin : Js.gt (zoomLevel c - dz) 0 = false).
    { apply JsFacts.gt_false; lra. }
    rewrite Hfar, Hin; reflexivity.
  - assert (Hnear : Js.gt (Math_abs (zoomLevel c - dz)) (1 / 10000) = false).
    { apply JsFacts.gt_false; exact Hgap. }
    rewrite Hnear; reflexivity.
Qed.

Lemma internalUpdateZooming_pinching (now dt : R) (c : Camera) :
  currentlyPinching c = true -> internalUpdateZooming now dt c = c.
Proof.
  intros Hpinch; unfold internalUpdateZooming; rewrite Hpinch.
  destruct (desiredZoom c); reflexivity.
Qed.

(** ** The zoom animation ends *)

Section ZoomTermination.

Variable root : GameRoot.

Local Abbreviation minimum := (getMinimumZoom root).
Local Abbreviation maximum := (getMaximumZoom root).

(** One step of the zoom channel on a pending animation: it ends the
    animation when the gap is small, and otherwise it shrinks the gap and
    keeps the zoom level between its old value and the target. *)
Lemma zooming_progress (now dt : R) (c : Camera) (dz : R) :
  desiredZoom c = Some dz ->
  currentlyPinching c = false ->
  (Rabs (zoomLevel c - dz) <= 1 / 10000 ->
   desiredZoom (internalUpdateZooming now dt c) = None)
  /\ (desiredZoom (internalUpdateZooming now dt c) = None
      \/ (desiredZoom (internalUpdateZooming now dt c) = Some dz
          /\ Rabs (zoomLevel (internalUpdateZooming now dt c) - dz)
             <= 94 / 100 * Rabs (zoomLevel c - dz)
          /\ (minimum <= zoomLevel c <= maximum ->
              minimum <= dz <= maximum ->
              minimum <= zoomLevel (internalUpdateZooming now dt c)
              <= maximum))).
Proof.
  intros Htarget Hfree.
  destruct (internalUpdateZooming_cases now dt c dz Htarget Hfree)
    as (Hout & Hin & Hnear).
  split; [intros Hgap; rewrite (Hnear Hgap); reflexivity|].
  destruct (Rle_dec (Rabs (zoomLevel c - dz)) (1 / 10000)) as [Hgap|Hgap].
  - left; rewrite (Hnear Hgap); reflexivity.
  - right.
    destruct (Rlt_dec dz (zoomLevel c)) as [Habove|Hbelow].
    + assert (Hfar : zoomLevel c - dz > 1 / 10000).
      { rewrite Rabs_right in Hgap; lra. }
      rewrite (Hout Hfar); cam_simpl.
      split; [exact Htarget|]. split.
      * rewrite !Rabs_right; lra.
      * intros; lra.
    + assert (Hfar : dz - zoomLevel c > 1 / 10000).
      { rewrite Rabs_left1 in Hgap; lra. }
      rewrite (Hin Hfar); cam_simpl.
      split; [exact Htarget|]. split.
      * rewrite !Rabs_left1; lra.
      * intros; lra.
Qed.

Lemma updateLoopBody_view (now : R) (c : Camera) :
  zoomLevel (snd (updateLoopBody root now c))
  = zoomLevel (internalUpdateZooming now 0 c)
  /\ desiredZoom (snd (updateLoopBody root now c))
     = desiredZoom (internalUpdateZooming now 0 c)
  /\ currentlyPinching (snd (updateLoopBody root now c))
     = currentlyPinching c.
Proof.
  destruct (zoomView_eq _ _ (updateLoopBody_zoomView root now now 0 c))
    as (Hzoom & Htarget & Hpinch).
  split; [exact Hzoom|]. split; [exact Htarget|].
  rewrite Hpinch; unfold internalUpdateZooming.
  destruct (desiredZoom c); [|reflexivity].
  destruct (negb (currentlyPinching c)); [|reflexivity].
  cbv zeta; destruct (Js.gt _ _); reflexivity.
Qed.

Lemma updateLoop_none_stable (fuel : nat) :
  forall (now : R) (c : Camera),
    desiredZoom c = None ->
    desiredZoom (updateLoop root fuel now c) = None.
Proof.
  induction fuel as [|fuel IH]; intros now c Hnone; [exact Hnone|].
  rewrite updateLoop_S.
  destruct (Js.gt (cameraUpdateTimeBucket c) physicsStepSizeMs);
    [|exact Hnone].
  apply IH.
  destruct (updateLoopBody_view now c) as (_ & -> & _).
  unfold internalUpdateZooming; rewrite Hnone; exact Hnone.
Qed.

Lemma updateLoop_bucket_nonneg (fuel : nat) :
  forall (now : R) (c : Camera),
    0 <= cameraUpdateTimeBucket c ->
    0 <= cameraUpdateTimeBucket (updateLoop root fuel now c).
Proof.
  induction fuel as [|fuel IH]; intros now c Hbucket; [exact Hbucket|].
  rewrite updateLoop_S.
  destruct (Js.gt (cameraUpdateTimeBucket c) physicsStepSizeMs) eqn:Hgo;
    [|exact Hbucket].
  apply IH; rewrite updateLoopBody_bucket.
  apply JsFacts.gt_true in Hgo; lra.
Qed.

Lemma updateLoop_pinching (fuel : nat) :
  forall (now : R) (c : Camera),
    currentlyPinching (updateLoop root fuel now c) = currentlyPinching c.
Proof.
  induction fuel as [|fuel IH]; intros now c; [reflexivity|].
  rewrite updateLoop_S.
  destruct (Js.gt (cameraUpdateTimeBucket c) physicsStepSizeMs);
    [|reflexivity].
  rewrite IH.
  destruct (updateLoopBody_view now c) as (_ & _ & Hpinch); exact Hpinch.
Qed.

(** The whole loop never widens the gap of a pending animation. *)
Lemma updateLoop_progress (dz : R) (fuel : nat) :
  forall (now : R) (c : Camera),
    desiredZoom c = Some dz ->
    currentlyPinching c = false ->
    currentlyPinching (updateLoop root fuel now c) = false
    /\ (desiredZoom (updateLoop root fuel now c) = None
        \/ (desiredZoom (updateLoop root fuel now c) = Some dz
            /\ Rabs (zoomLevel (updateLoop root fuel now c) - dz)
               <= Rabs (zoomLevel c - dz)
            /\ (minimum <= zoomLevel c <= maximum ->
                minimum <= dz <= maximum ->
                minimum <= zoomLevel (updateLoop root fuel now c)
                <= maximum))).
Proof.
  induction fuel as [|fuel IH]; intros now c Htarget Hfree.
  - cbn [updateLoop].
    split; [exact Hfree|]. right; split; [exact Htarget|]. split; [lra|tauto].
  - rewrite updateLoop_S.
    destruct (Js.gt (cameraUpdateTimeBucket c) physicsStepSizeMs).
    2:{ split; [exact Hfree|]. right; split; [exact Htarget|].
        split; [lra|tauto]. }
    destruct (updateLoopBody_view now c) as (Hzoom & Hdz & Hpinch).
    destruct (zooming_progress now 0 c dz Htarget Hfree)
      as (_ & [Hdone | (Hsame & Hgap & Hrange)]).
    + split.
      * rewrite updateLoop_pinching, Hpinch; exact Hfree.
      * left; apply updateLoop_none_stable; rewrite Hdz; exact Hdone.
    + rewrite <- Hdz in Hsame; rewrite <- Hzoom in Hgap, Hrange.
      assert (Hfree' :
        currentlyPinching (snd (updateLoopBody root now c)) = false)
        by congruence.
      destruct (IH (fst (updateLoopBody root now c))
                  (snd (updateLoopBody root now c)) Hsame Hfree')
        as (Hp & [Hnone | (Hs & Hg & Hr)]).
      * split; [exact Hp|]; left; exact Hnone.
      * split; [exact Hp|]; right; split; [exact Hs|]. split.
        -- pose proof (Rabs_pos (zoomLevel c - dz)); lra.
        -- intros Hz Hd; apply Hr; [apply Hrange|]; assumption.
Qed.

(** When the loop runs at least once, the first step already ends a close
    animation or shrinks the gap. *)
Lemma updateLoop_first_step (dz : R) (fuel : nat) (now : R) (c : Camera) :
  desiredZoom c = Some dz ->
  currentlyPinching c = false ->
  cameraUpdateTimeBucket c > physicsStepSizeMs ->
  let c' := updateLoop root (S fuel) now c in
  currentlyPinching c' = false
  /\ (Rabs (zoomLevel c - dz) <= 1 / 10000 -> desiredZoom c' = None)
  /\ (desiredZoom c' = None
      \/ (desiredZoom c' = Some dz
          /\ Rabs (zoomLevel c' - dz) <= 94 / 100 * Rabs (zoomLevel c - dz)
          /\ (minimum <= zoomLevel c <= maximum ->
              minimum <= dz <= maximum ->
              minimum <= zoomLevel c' <= maximum))).
Proof.
  intros Htarget Hfree Hgo c'; subst c'.
  rewrite updateLoop_S.
  apply JsFacts.gt_true in Hgo; rewrite Hgo.
  destruct (updateLoopBody_view now c) as (Hzoom & Hdz & Hpinch).
  assert (Hfree' :
    currentlyPinching (snd (updateLoopBody root now c)) = false)
    by congruence.
  destruct (zooming_progress now 0 c dz Htarget Hfree) as (Hnear & Hstep).
  rewrite <- Hdz in Hnear.
  assert (Hp :
    currentlyPinching
      (updateLoop root fuel (fst (updateLoopBody root now c))
         (snd (updateLoopBody root now c))) = false).
  { rewrite updateLoop_pinching; exact Hfree'. }
  split; [exact Hp|]. split.
  - intros Hgap; apply updateLoop_none_stable, Hnear, Hgap.
  - destruct Hstep as [Hdone | (Hsame & Hgap & Hrange)].
    + left; apply updateLoop_none_stable; rewrite Hdz; exact Hdone.
    + rewrite <- Hdz in Hsame; rewrite <- Hzoom in Hgap, Hrange.
      destruct (updateLoop_progress dz fuel
                  (fst (updateLoopBody root now c))
                  (snd (updateLoopBody root now c)) Hsame Hfree')
        as (_ & [Hnone | (Hs & Hg & Hr)]).
      * left; exact Hnone.
      * right; split; [exact Hs|]. split; [lra|].
        intros Hz Hd; apply Hr; [apply Hrange|]; assumption.
Qed.

End ZoomTermination.

Section ZoomAnimationEnds.

Variable root : GameRoot.
Hypothesis limitsEnabled : zoomLimitsDisabled root = false.
Hypothesis limitsOrdered : getMinimumZoom root <= getMaximumZoom root.

Local Abbreviation minimum := (getMinimumZoom root).
Local Abbreviation maximum := (getMaximumZoom root).

Lemma clampZoomLevel_pinching (c : Camera) :
  currentlyPinching (clampZoomLevel root c) = currentlyPinching c.
Proof.
  unfold clampZoomLevel; rewrite limitsEnabled; cam_simpl.
  destruct (desiredZoom c) as [dz|]; [destruct (Js.truthy dz)|]; reflexivity.
Qed.

Lemma clampZoomLevel_desiredZoom (c : Camera) :
  desiredZoom (clampZoomLevel root c)
  = match desiredZoom c with
    | Some dz =>
        if Js.truthy dz then Some (clamp dz minimum maximum) else Some dz
    | None => None
    end.
Proof.
  unfold clampZoomLevel; rewrite limitsEnabled; cam_simpl.
  destruct (desiredZoom c) as [dz|] eqn:Htarget;
    [destruct (Js.truthy dz)|]; cam_simpl; try reflexivity; exact Htarget.
Qed.

Lemma update_none_stable (systemNow dt : R) (c : Camera) :
  desiredZoom c = None -> desiredZoom (update root systemNow dt c) = None.
Proof.
  intros Hnone; unfold update; cbv zeta.
  rewrite clampZoomLevel_desiredZoom, updateLoop_none_stable; trivial.
Qed.

Lemma updates_none_stable (calls : list (R * R)) :
  forall c : Camera,
    desiredZoom c = None -> desiredZoom (updates root calls c) = None.
Proof.
  induction calls as [|call calls IH]; intros c Hnone; [exact Hnone|].
  apply IH, update_none_stable, Hnone.
Qed.

Lemma step_below_clamp (dt : R) :
  dt > physicsStepSizeMs -> Math_min dt 33 > physicsStepSizeMs.
Proof.
  rewrite physicsStepSizeMs_value; unfold Math_min, Rmin.
  destruct (Rle_dec dt 33); lra.
Qed.

Lemma updateLoopBound_positive (c : Camera) :
  cameraUpdateTimeBucket c > physicsStepSizeMs ->
  exists fuel, updateLoopBound c = S fuel.
Proof.
  intros Hgo; pose proof (updateLoopBound_enough c) as Henough.
  destruct (updateLoopBound c) as [|fuel]; [|eexists; reflexivity].
  simpl INR in Henough; lra.
Qed.

(** One [update] that runs at least one step, on an animation in progress. *)
Lemma update_animating (systemNow dt dz gap : R) (c : Camera) :
  zoomAnimating root dz gap c ->
  dt > physicsStepSizeMs ->
  (gap <= 1 / 10000 -> desiredZoom (update root systemNow dt c) = None)
  /\ (desiredZoom (update root systemNow dt c) = None
      \/ zoomAnimating root dz (94 / 100 * gap)
           (update root systemNow dt c)).
Proof.
  intros (Htarget & Hfree & Hbucket & Hdz & Hzoom & Hgap) Hdt.
  apply step_below_clamp in Hdt.
  pose proof physicsStepSizeMs_pos as Hstep0.
  unfold update; cbv zeta.
  set (c1 := set_cameraUpdateTimeBucket
               (cameraUpdateTimeBucket c + Math_min dt 33) c).
  assert (Hgo : cameraUpdateTimeBucket c1 > physicsStepSizeMs).
  { unfold c1; cam_simpl; lra. }
  destruct (updateLoopBound_positive c1 Hgo) as [fuel ->].
  destruct (updateLoop_first_step root dz fuel
              (systemNow - 3 * physicsStepSizeMs) c1 Htarget Hfree Hgo)
    as (Hp & Hnear & Hstep).
  cbv zeta in Hp, Hnear, Hstep.
  change (zoomLevel c1) with (zoomLevel c) in Hnear, Hstep.
  split.
  - intros Hsmall; rewrite clampZoomLevel_desiredZoom, Hnear; [reflexivity|].
    lra.
  - destruct Hstep as [Hnone | (Hsame & Hshrink & Hrange)].
    + left; rewrite clampZoomLevel_desiredZoom, Hnone; reflexivity.
    + right; specialize (Hrange Hzoom Hdz).
      unfold zoomAnimating.
      rewrite clampZoomLevel_desiredZoom, clampZoomLevel_pinching,
        clampZoomLevel_bucket, (zoomLevel_clampZoomLevel root limitsEnabled),
        Hsame.
      rewrite !clamp_fixes by assumption.
      split; [destruct (Js.truthy dz); reflexivity|].
      split; [exact Hp|].
      split; [apply updateLoop_bucket_nonneg; unfold c1; cam_simpl; lra|].
      split; [exact Hdz|]. split; [exact Hrange|].
      pose proof (Rabs_pos (zoomLevel c - dz)); lra.
Qed.

(** The first [update] after a request: the animation is over or it is in
    progress inside the limits. *)
Lemma update_requested (systemNow dt target : R) (c : Camera) :
  currentlyPinching c = false ->
  0 <= cameraUpdateTimeBucket c ->
  target <> 0 ->
  dt > physicsStepSizeMs ->
  desiredZoom (update root systemNow dt (requestZoom target c)) = None
  \/ zoomAnimating root (clamp target minimum maximum) (maximum - minimum)
       (update root systemNow dt (requestZoom target c)).
Proof.
  intros Hfree Hbucket Htruthy Hdt.
  apply step_below_clamp in Hdt.
  pose proof physicsStepSizeMs_pos as Hstep.
  unfold update; cbv zeta.
  set (c1 := set_cameraUpdateTimeBucket _ (requestZoom target c)).
  destruct (updateLoop_progress root target (updateLoopBound c1)
              (systemNow - 3 * physicsStepSizeMs) c1 eq_refl Hfree)
    as (Hp & [Hnone | (Hsame & _ & _)]).
  - left; rewrite clampZoomLevel_desiredZoom, Hnone; reflexivity.
  - right; unfold zoomAnimating.
    rewrite clampZoomLevel_desiredZoom, clampZoomLevel_pinching,
      clampZoomLevel_bucket, (zoomLevel_clampZoomLevel root limitsEnabled),
      Hsame.
    apply JsFacts.truthy_true in Htruthy; rewrite Htruthy.
    pose proof (clamp_within minimum maximum target limitsOrdered) as Ht.
    pose proof (clamp_within minimum maximum
                  (zoomLevel (updateLoop root (updateLoopBound c1)
                                (systemNow - 3 * physicsStepSizeMs) c1))
                  limitsOrdered) as Hz.
    split; [reflexivity|]. split; [exact Hp|].
    split; [apply updateLoop_bucket_nonneg; unfold c1; cam_simpl;
            unfold requestZoom; cam_simpl; lra|].
    split; [exact Ht|]. split; [exact Hz|].
    unfold Rabs; destruct (Rcase_abs _); lra.
Qed.

Lemma updates_animating (dz : R) (steps : nat) :
  forall (gap : R) (c : Camera) (calls : list (R * R)),
    zoomAnimating root dz gap c ->
    (94 / 100) ^ steps * gap <= 1 / 10000 ->
    (steps < List.length calls)%nat ->
    everyCallSteps calls ->
    desiredZoom (updates root calls c) = None.
Proof.
  induction steps as [|steps IH]; intros gap c calls Hanim Hpow Hlen Hcalls;
    (destruct calls as [|call calls]; [simpl in Hlen; lia|]);
    inversion Hcalls as [|? ? Hcall Hrest]; subst;
    destruct (update_animating (fst call) (snd call) dz gap c Hanim Hcall)
      as (Hnear & Hstep);
    change (updates root (call :: calls) c)
      with (updates root calls (update root (fst call) (snd call) c)).
  - apply updates_none_stable, Hnear.
    rewrite pow_O in Hpow; lra.
  - destruct Hstep as [Hnone | Hnext].
    + apply updates_none_stable, Hnone.
    + apply (IH (94 / 100 * gap)); try assumption.
      * rewrite <- tech_pow_Rmult in Hpow; lra.
      * simpl in Hlen; lia.
Qed.

End ZoomAnimationEnds.

(** The zoom animation does end: with the limits enabled, no pinch in
    progress and a target other than zero (a target of zero is falsy and is
    never clamped), there is a number of [update] calls, each bringing more
    than one step of time, after which [desiredZoom] is null, and it stays
    null under further calls. *)
Theorem zoom_animation_ends (root : GameRoot) (target : R) (c : Camera) :
  zoomLimitsDisabled root = false ->
  getMinimumZoom root <= getMaximumZoom root ->
  currentlyPinching c = false ->
  0 <= cameraUpdateTimeBucket c ->
  target <> 0 ->
  exists enough : nat,
    forall calls : list (R * R),
      (enough < List.length calls)%nat ->
      everyCallSteps calls ->
      desiredZoom (updates root calls (requestZoom target c)) = None.
Proof.
  intros Henabled Hordered Hfree Hbucket Htruthy.
  set (width := getMaximumZoom root - getMinimumZoom root).
  assert (Hwidth : 0 <= width) by (unfold width; lra).
  set (bound := 1 / 10000 / (width + 1)).
  assert (Hbound : bound * (width + 1) = 1 / 10000)
    by (unfold bound; field; lra).
  assert (Hpos : 0 < bound).
  { unfold bound; apply Rdiv_lt_0_compat; lra. }
  destruct (pow_lt_1_zero (94 / 100)) with (y := bound) as [steps Hsteps];
    [rewrite Rabs_right; lra | exact Hpos |].
  specialize (Hsteps steps (Nat.le_refl steps)).
  assert (Hpow : 0 <= (94 / 100) ^ steps) by (apply pow_le; lra).
  rewrite Rabs_right in Hsteps by lra.
  assert (Hsmall : (94 / 100) ^ steps * width <= 1 / 10000).
  { assert ((94 / 100) ^ steps * (width + 1) <= bound * (width + 1))
      by (apply Rmult_le_compat_r; lra).
    lra. }
  exists (S steps); intros calls Hlen Hcalls.
  destruct calls as [|call calls]; [simpl in Hlen; lia|].
  inversion Hcalls as [|? ? Hcall Hrest]; subst.
  change (updates root (call :: calls) (requestZoom target c))
    with (updates root calls
            (update root (fst call) (snd call) (requestZoom target c))).
  destruct (update_requested root Henabled Hordered (fst call) (snd call)
              target c Hfree Hbucket Htruthy Hcall) as [Hnone | Hanim].
  - apply updates_none_stable; assumption.
  - apply (updates_animating root Henabled _ steps _ _ _ Hanim);
      [exact Hsmall | simpl in Hlen; lia | exact Hrest].
Qed.

(** ** The zoom animation with the limits switched off *)

Section ZoomWithoutLimits.

Variable root : GameRoot.
Hypothesis limitsDisabled : zoomLimitsDisabled root = true.

Lemma clampZoomLevel_disabled (c : Camera) : clampZoomLevel root c = c.
Proof. unfold clampZoomLevel; rewrite limitsDisabled; reflexivity. Qed.

Lemma zoomRequestInvariant_view (target : R) (c c' : Camera) :
  zoomView c = zoomView c' ->
  zoomRequestInvariant target c -> zoomRequestInvariant target c'.
Proof.
  unfold zoomView, zoomRequestInvariant; intros Hview.
  injection Hview as -> -> _; trivial.
Qed.

Lemma zoomRequestInvariant_zooming (target now dt : R) (c : Camera) :
  zoomRequestInvariant target c ->
  zoomRequestInvariant target (internalUpdateZooming now dt c).
Proof.
  unfold zoomRequestInvariant, internalUpdateZooming.
  destruct (desiredZoom c) as [dz|] eqn:Htarget; [|rewrite Htarget; trivial].
  intros Hinv.
  destruct (negb (currentlyPinching c)); [|rewrite Htarget; exact Hinv].
  cbv zeta.
  destruct (Js.gt (Math_abs (zoomLevel c - dz)) (1 / 10000)) eqn:Hgap;
    cam_simpl.
  - rewrite Htarget; exact Hinv.
  - apply JsFacts.gt_false in Hgap; unfold Math_abs in Hgap.
    rewrite <- Hinv; exact Hgap.
Qed.

Lemma zoomRequestInvariant_loop (target : R) (fuel : nat) :
  forall (now : R) (c : Camera),
    zoomRequestInvariant target c ->
    zoomRequestInvariant target (updateLoop root fuel now c).
Proof.
  induction fuel as [|fuel IH]; intros now c Hinv; [exact Hinv|].
  rewrite updateLoop_S.
  destruct (Js.gt (cameraUpdateTimeBucket c) physicsStepSizeMs);
    [|exact Hinv].
  apply IH.
  apply (zoomRequestInvariant_view target (internalUpdateZooming now 0 c)).
  - symmetry; apply updateLoopBody_zoomView.
  - apply zoomRequestInvariant_zooming; exact Hinv.
Qed.

Lemma zoomRequestInvariant_updates (target : R) (calls : list (R * R)) :
  forall c : Camera,
    zoomRequestInvariant target c ->
    zoomRequestInvariant target (updates root calls c).
Proof.
  induction calls as [|call calls IH]; intros c Hinv; [exact Hinv|].
  apply IH; unfold update; cbv zeta.
  rewrite clampZoomLevel_disabled.
  apply zoomRequestInvariant_loop; exact Hinv.
Qed.

(** With the limits off a completed animation ends at the target itself. *)
Lemma zoom_request_settles (target : R) (calls : list (R * R)) (c : Camera) :
  desiredZoom (updates root calls (requestZoom target c)) = None ->
  Rabs (zoomLevel (updates root calls (requestZoom target c)) - target)
  <= 1 / 10000.
Proof.
  intros Hdone.
  assert (Hstart : zoomRequestInvariant target (requestZoom target c))
    by reflexivity.
  pose proof (zoomRequestInvariant_updates target calls _ Hstart) as Hinv.
  unfold zoomRequestInvariant in Hinv; rewrite Hdone in Hinv; exact Hinv.
Qed.

Lemma updates_none_kept (calls : list (R * R)) :
  forall c : Camera,
    desiredZoom c = None -> desiredZoom (updates root calls c) = None.
Proof.
  induction calls as [|call calls IH]; intros c Hnone; [exact Hnone|].
  apply IH; unfold update; cbv zeta.
  rewrite clampZoomLevel_disabled; apply updateLoop_none_stable; exact Hnone.
Qed.

(** One [update] that runs at least one step, on a pending animation. *)
Lemma update_pending (systemNow dt dz gap : R) (c : Camera) :
  desiredZoom c = Some dz ->
  currentlyPinching c = false ->
  0 <= cameraUpdateTimeBucket c ->
  Rabs (zoomLevel c - dz) <= gap ->
  dt > physicsStepSizeMs ->
  let c' := update root systemNow dt c in
  (gap <= 1 / 10000 -> desiredZoom c' = None)
  /\ (desiredZoom c' = None
      \/ (desiredZoom c' = Some dz
          /\ currentlyPinching c' = false
          /\ 0 <= cameraUpdateTimeBucket c'
          /\ Rabs (zoomLevel c' - dz) <= 94 / 100 * gap)).
Proof.
  intros Htarget Hfree Hbucket Hgap Hdt c'; subst c'.
  apply step_below_clamp in Hdt.
  unfold update; cbv zeta; rewrite clampZoomLevel_disabled.
  set (c1 := set_cameraUpdateTimeBucket
               (cameraUpdateTimeBucket c + Math_min dt 33) c).
  assert (Hgo : cameraUpdateTimeBucket c1 > physicsStepSizeMs).
  { unfold c1; cam_simpl; lra. }
  destruct (updateLoopBound_positive c1 Hgo) as [fuel ->].
  destruct (updateLoop_first_step root dz fuel
              (systemNow - 3 * physicsStepSizeMs) c1 Htarget Hfree Hgo)
    as (Hp & Hnear & Hstep).
  cbv zeta in Hp, Hnear, Hstep.
  change (zoomLevel c1) with (zoomLevel c) in Hnear, Hstep.
  split; [intros Hsmall; apply Hnear; lra|].
  destruct Hstep as [Hnone | (Hsame & Hshrink & _)]; [left; exact Hnone|].
  right; split; [exact Hsame|]. split; [exact Hp|]. split.
  - apply updateLoop_bucket_nonneg; unfold c1; cam_simpl.
    pose proof physicsStepSizeMs_pos; lra.
  - pose proof (Rabs_pos (zoomLevel c - dz)); lra.
Qed.

Lemma updates_pending (dz : R) (steps : nat) :
  forall (gap : R) (c : Camera) (calls : list (R * R)),
    desiredZoom c = Some dz ->
    currentlyPinching c = false ->
    0 <= cameraUpdateTimeBucket c ->
    Rabs (zoomLevel c - dz) <= gap ->
    (94 / 100) ^ steps * gap <= 1 / 10000 ->
    (steps < List.length calls)%nat ->
    everyCallSteps calls ->
    desiredZoom (updates root calls c) = None.
Proof.
  induction steps as [|steps IH];
    intros gap c calls Htarget Hfree Hbucket Hgap Hpow Hlen Hcalls;
    (destruct calls as [|call calls]; [simpl in Hlen; lia|]);
    inversion Hcalls as [|? ? Hcall Hrest]; subst;
    destruct (update_pending (fst call) (snd call) dz gap c
                Htarget Hfree Hbucket Hgap Hcall) as (Hnear & Hstep);
    change (updates root (call :: calls) c)
      with (updates root calls (update root (fst call) (snd call) c)).
  - apply updates_none_kept, Hnear.
    rewrite pow_O in Hpow; lra.
  - destruct Hstep as [Hnone | (Hsame & Hp & Hb & Hshrink)].
    + apply updates_none_kept, Hnone.
    + apply (IH (94 / 100 * gap)); try assumption.
      * rewrite <- tech_pow_Rmult in Hpow; lra.
      * simpl in Hlen; lia.
Qed.

(** With the limits off the animation ends as well. *)
Lemma zoom_request_ends (target : R) (c : Camera) :
  currentlyPinching c = false ->
  0 <= cameraUpdateTimeBucket c ->
  exists enough : nat,
    forall calls : list (R * R),
      (enough < List.length calls)%nat ->
      everyCallSteps calls ->
      desiredZoom (updates root calls (requestZoom target c)) = None.
Proof.
  intros Hfree Hbucket.
  set (gap := Rabs (zoomLevel c - target)).
  assert (Hgap : 0 <= gap) by apply Rabs_pos.
  set (bound := 1 / 10000 / (gap + 1)).
  assert (Hbound : bound * (gap + 1) = 1 / 10000)
    by (unfold bound; field; lra).
  assert (Hpos : 0 < bound).
  { unfold bound; apply Rdiv_lt_0_compat; lra. }
  destruct (pow_lt_1_zero (94 / 100)) with (y := bound) as [steps Hsteps];
    [rewrite Rabs_right; lra | exact Hpos |].
  specialize (Hsteps steps (Nat.le_refl steps)).
  assert (Hpow : 0 <= (94 / 100) ^ steps) by (apply pow_le; lra).
  rewrite Rabs_right in Hsteps by lra.
  assert (Hsmall : (94 / 100) ^ steps * gap <= 1 / 10000).
  { assert ((94 / 100) ^ steps * (gap + 1) <= bound * (gap + 1))
      by (apply Rmult_le_compat_r; lra).
    lra. }
  exists steps; intros calls Hlen Hcalls.
  apply (updates_pending target steps gap); try assumption.
  - reflexivity.
  - apply Rle_refl.
Qed.

End ZoomWithoutLimits.

(** Calls of [update] with a frame time of 16 ms each. *)
Lemma everyCallSteps_repeat (systemNow : R) (count : nat) :
  everyCallSteps (repeat (systemNow, 16) count).
Proof.
  apply Forall_forall; intros call Hin.
  apply repeat_spec in Hin; subst call; cbn [snd].
  rewrite physicsStepSizeMs_value; lra.
Qed.

(** C8.  When, after a request to zoom to [target], a sequence of [update]
    calls has brought [desiredZoom] to null, [zoomLevel] is within 1e-4 of
    the goal of the request: [target] clamped to the limits when the zoom
    limits are enabled, and [target] itself when the debug option of a
    development build has switched them off.  While an animation is pending
    and no pinch is in progress, one step of the zoom channel blends
    [zoomLevel] towards [desiredZoom] with factor 0.9 when the level is above
    the target (zooming out) and 0.94 when it is below (zooming in), as long
    as the gap exceeds 1e-4, and sets [desiredZoom] to null, leaving
    [zoomLevel], once the gap is at most 1e-4.  That the animation does end
    is [zoom_animation_ends]. *)
Theorem zoom_animation_converges (root : GameRoot) (target : R) :
  (forall (calls : list (R * R)) (c : Camera),
      desiredZoom (updates root calls (requestZoom target c)) = None ->
      Rabs (zoomLevel (updates root calls (requestZoom target c))
            - zoomGoal root target)
      <= 1 / 10000)
  /\ (zoomLimitsDisabled root = false ->
      zoomGoal root target
      = clamp target (getMinimumZoom root) (getMaximumZoom root))
  /\ (zoomLimitsDisabled root = true -> zoomGoal root target = target)
  /\ (forall (now dt : R) (c : Camera) (dz : R),
         desiredZoom c = Some dz ->
         currentlyPinching c = false ->
         (zoomLevel c - dz > 1 / 10000 ->
          internalUpdateZooming now dt c
          = set_zoomLevel (zoomLevel c * (9 / 10) + dz * (1 - 9 / 10)) c)
         /\ (dz - zoomLevel c > 1 / 10000 ->
             internalUpdateZooming now dt c
             = set_zoomLevel
                 (zoomLevel c * (94 / 100) + dz * (1 - 94 / 100)) c)
         /\ (Rabs (zoomLevel c - dz) <= 1 / 10000 ->
             internalUpdateZooming now dt c = set_desiredZoom None c)).
Proof.
  split; [|split; [|split]].
  - intros calls c; unfold zoomGoal.
    destruct (zoomLimitsDisabled root) eqn:Hgate.
    + apply zoom_request_settles; exact Hgate.
    + apply zoom_animation_settles; exact Hgate.
  - intros Hgate; unfold zoomGoal; rewrite Hgate; reflexivity.
  - intros Hgate; unfold zoomGoal; rewrite Hgate; reflexivity.
  - intros now dt c dz; apply internalUpdateZooming_cases.
Qed.

(** A request to zoom from 1 to 2 in a production build: some number of
    frames of 16 ms ends the animation, within 1e-4 of 2. *)
Lemma zoom_animation_converges_witness :
  exists calls : list (R * R),
    desiredZoom (updates Example.root calls (requestZoom 2 Example.idle))
    = None
    /\ Rabs (zoomLevel
               (updates Example.root calls (requestZoom 2 Example.idle))
             - zoomGoal Example.root 2)
       <= 1 / 10000.
Proof.
  destruct (zoom_animation_ends Example.root 2 Example.idle)
    as [enough Hends].
  - reflexivity.
  - simpl; lra.
  - reflexivity.
  - simpl; lra.
  - lra.
  - exists (repeat (0, 16) (S enough)).
    assert (Hdone :
      desiredZoom
        (updates Example.root (repeat (0, 16) (S enough))
           (requestZoom 2 Example.idle)) = None).
    { apply Hends; [rewrite repeat_length; lia|].
      apply everyCallSteps_repeat. }
    split; [exact Hdone|].
    apply (zoom_animation_converges Example.root 2); exact Hdone.
Defined.

(** In a development build with the zoom limits switched off, a request to
    zoom from 1 to 10 ends, after some number of frames of 16 ms, within
    1e-4 of 10, far from the 3.5 that the limits would clamp it to. *)
Lemma zoom_request_unclamped_without_limits :
  exists calls : list (R * R),
    desiredZoom (updates Example.freeRoot calls (requestZoom 10 Example.idle))
    = None
    /\ Rabs (zoomLevel
               (updates Example.freeRoot calls (requestZoom 10 Example.idle))
             - 10)
       <= 1 / 10000
    /\ clamp 10 (getMinimumZoom Example.freeRoot)
         (getMaximumZoom Example.freeRoot) = 35 / 10
    /\ Rabs (zoomLevel
               (updates Example.freeRoot calls (requestZoom 10 Example.idle))
             - clamp 10 (getMinimumZoom Example.freeRoot)
                 (getMaximumZoom Example.freeRoot))
       > 1 / 10000.
Proof.
  destruct (zoom_request_ends Example.freeRoot eq_refl 10 Example.idle)
    as [enough Hends].
  - reflexivity.
  - simpl; lra.
  - exists (repeat (0, 16) (S enough)).
    assert (Hdone :
      desiredZoom
        (updates Example.freeRoot (repeat (0, 16) (S enough))
           (requestZoom 10 Example.idle)) = None).
    { apply Hends; [rewrite repeat_length; lia|].
      apply everyCallSteps_repeat. }
    pose proof (zoom_request_settles Example.freeRoot eq_refl 10 _ _ Hdone)
      as Hnear.
    assert (Hclamp :
      clamp 10 (getMinimumZoom Example.freeRoot)
        (getMaximumZoom Example.freeRoot) = 35 / 10).
    { unfold Example.freeRoot; cbn [getMinimumZoom getMaximumZoom].
      unfold clamp, Math_max, Math_min, Rmax, Rmin; case_compare; lra. }
    split; [exact Hdone|]. split; [exact Hnear|]. split; [exact Hclamp|].
    rewrite Hclamp.
    set (z := zoomLevel _) in *; clearbody z.
    assert (Hz : 10 - 1 / 10000 <= z)
      by (unfold Rabs in Hnear; destruct (Rcase_abs (z - 10)); lra).
    rewrite Rabs_right by lra; lra.
Qed.

(** ** Vectors apart *)

Lemma length_pos_iff (v : Vector.t) :
  Js.gt (Vector.length v) 0 = true <-> v <> Vector.mk 0 0.
Proof.
  destruct v as [vx vy]; unfold Vector.length, Math_hypot; cbn [Vector.x Vector.y].
  rewrite JsFacts.gt_true; split.
  - intros Hpos Hzero; injection Hzero as -> ->.
    replace (0 * 0 + 0 * 0) with 0 in Hpos by ring.
    rewrite sqrt_0 in Hpos; lra.
  - intros Hne; apply Rlt_gt, sqrt_lt_R0.
    destruct (Req_dec_T vx 0) as [->|Hx].
    + destruct (Req_dec_T vy 0) as [->|Hy]; [congruence|].
      replace (0 * 0 + vy * vy) with (vy * vy) by ring.
      apply Rsqr_pos_lt in Hy; exact Hy.
    + apply Rsqr_pos_lt in Hx; unfold Rsqr in Hx.
      pose proof (Rle_0_sqr vy) as Hy; unfold Rsqr in Hy; lra.
Qed.

Lemma distance_pos (v w : Vector.t) : v <> w -> 0 < Vector.distance v w.
Proof.
  intros Hne.
  change (Vector.distance v w) with (Vector.length (Vector.sub v w)).
  apply Rgt_lt, JsFacts.gt_true, length_pos_iff.
  destruct v as [vx vy], w as [wx wy]; unfold Vector.sub; cbn [Vector.x Vector.y].
  intros Hzero; injection Hzero as Hx Hy; apply Hne; f_equal; lra.
Qed.

(** ** The pinch ratio *)

Module IeeeFacts.



Lemma clamp_finite (v minimum maximum : R) :
  Ieee.clamp (Ieee.Fin v) (Ieee.Fin minimum) (Ieee.Fin maximum)
  = Ieee.Fin (clamp v minimum maximum).
Proof. reflexivity. Qed.

(** The divisor of the pinch ratio is never zero. *)
Lemma guarded_divisor_pos (lastDistance : R) :
  0 < Math_max (1 / 1000) lastDistance.
Proof.
  unfold Math_max; pose proof (Rmax_l (1 / 1000) lastDistance); lra.
Qed.







End IeeeFacts.

Lemma zoomLevel_clampZoomLevel_gate (root : GameRoot) (c : Camera) :
  zoomLevel (clampZoomLevel root c)
  = if zoomLimitsDisabled root then zoomLevel c
    else clamp (zoomLevel c) (getMinimumZoom root) (getMaximumZoom root).
Proof.
  unfold clampZoomLevel; destruct (zoomLimitsDisabled root); [reflexivity|].
  cam_simpl.
  destruct (desiredZoom c) as [dz|]; [destruct (Js.truthy dz)|]; reflexivity.
Qed.







(** ** Gestures in progress *)

Section GestureFrames.

Variable root : GameRoot.

Lemma gestureConsistent_view (c c' : Camera) :
  gestureView c = gestureView c' ->
  gestureConsistent c -> gestureConsistent c'.
Proof.
  unfold gestureView, gestureConsistent; intros Hview.
  injection Hview as -> -> -> ->; trivial.
Qed.

Lemma gestureView_panning (now dt : R) (c : Camera) :
  gestureView (internalUpdatePanning root now dt c) = gestureView c.
Proof.
  unfold gestureView, internalUpdatePanning; destruct c; simpl; channel_cases.
Qed.

Lemma gestureView_zooming (now dt : R) (c : Camera) :
  gestureView (internalUpdateZooming now dt c) = gestureView c.
Proof.
  unfold gestureView, internalUpdateZooming; destruct c; simpl; channel_cases.
Qed.

Lemma gestureView_centering (now dt : R) (c : Camera) :
  gestureView (internalUpdateCentering now dt c) = gestureView c.
Proof.
  unfold gestureView, internalUpdateCentering; destruct c; simpl;
    channel_cases.
Qed.

Lemma gestureView_shake (now dt : R) (c : Camera) :
  gestureView (internalUpdateShake now dt c) = gestureView c.
Proof. reflexivity. Qed.

Lemma gestureView_keyboardForce (now dt : R) (c : Camera) :
  gestureView (internalUpdateKeyboardForce root now dt c) = gestureView c.
Proof.
  unfold gestureView, internalUpdateKeyboardForce; destruct c; simpl.
  match goal with |- context [if ?b then _ else _] => destruct b end;
    reflexivity.
Qed.

Lemma gestureView_clampZoomLevel (c : Camera) :
  gestureView (clampZoomLevel root c) = gestureView c.
Proof.
  unfold gestureView, clampZoomLevel; destruct c; simpl; channel_cases.
Qed.

Lemma gestureView_updateLoopBody (now : R) (c : Camera) :
  gestureView (snd (updateLoopBody root now c)) = gestureView c.
Proof.
  unfold updateLoopBody; cbv zeta; cbn [snd].
  rewrite gestureView_keyboardForce, gestureView_shake.
  rewrite gestureView_centering, gestureView_zooming, gestureView_panning.
  reflexivity.
Qed.

Lemma gestureView_updateLoop (fuel : nat) :
  forall (now : R) (c : Camera),
    gestureView (updateLoop root fuel now c) = gestureView c.
Proof.
  induction fuel as [|fuel IH]; intros now c; [reflexivity|].
  rewrite updateLoop_S.
  destruct (Js.gt (cameraUpdateTimeBucket c) physicsStepSizeMs);
    [|reflexivity].
  rewrite IH; apply gestureView_updateLoopBody.
Qed.

Lemma gestureView_update (systemNow dt : R) (c : Camera) :
  gestureView (update root systemNow dt c) = gestureView c.
Proof.
  unfold update; cbv zeta.
  rewrite gestureView_clampZoomLevel, gestureView_updateLoop; reflexivity.
Qed.

Lemma consistent_startHandler (x y : R) (w : World) :
  gestureConsistent (camera w) ->
  gestureConsistent (camera (combinedSingleTouchStartHandler root x y w)).
Proof.
  intros Hw; unfold combinedSingleTouchStartHandler.
  destruct (downPreHandler root (Vector.mk x y) enumMouseButton.left);
    [exact Hw|].
  unfold gestureConsistent in *; cam_simpl.
  split; [discriminate | apply Hw].
Qed.

Lemma consistent_moveHandler (x y : R) (w : World) :
  gestureConsistent (camera w) ->
  gestureConsistent
    (camera (worldOf (combinedSingleTouchMoveHandler root x y w))).
Proof.
  intros Hw; unfold combinedSingleTouchMoveHandler.
  destruct (movePreHandler root (Vector.mk x y)); [exact Hw|].
  cam_simpl.
  destruct (currentlyMoving (camera w)) eqn:Hmoving; [|exact Hw].
  destruct (lastMovingPosition (camera w)); [|exact Hw].
  cam_simpl.
  destruct (desiredCenter (camera w)); unfold gestureConsistent in *;
    cam_simpl; (split; [discriminate | apply Hw]).
Qed.

Lemma consistent_stopHandler (x y : R) (w : World) :
  gestureConsistent (camera w) ->
  gestureConsistent (camera (combinedSingleTouchStopHandler x y w)).
Proof.
  intros Hw; unfold combinedSingleTouchStopHandler.
  destruct (currentlyMoving (camera w) || currentlyPinching (camera w));
    [|exact Hw].
  unfold gestureConsistent; cam_simpl; split; discriminate.
Qed.

Lemma consistent_pinchMove (touch1 touch2 : Touch) (w : World) :
  gestureConsistent (camera w) ->
  gestureConsistent (camera (worldOf (pinchMove root touch1 touch2 w))).
Proof.
  intros Hw; unfold pinchMove.
  destruct (lastPinchPositions (camera w)); [|exact Hw].
  cam_simpl.
  destruct (desiredZoom (camera w)) as [dz|]; cam_simpl;
    [destruct (Js.truthy dz)|];
    unfold gestureConsistent in *; cam_simpl;
    (split; [apply Hw | discriminate]).
Qed.

Lemma consistent_clamped_completion (r : Completion) :
  gestureConsistent (camera (worldOf r)) ->
  gestureConsistent
    (camera
       (worldOf
          match r with
          | Normal w1 => Normal (set_camera (clampZoomLevel root (camera w1)) w1)
          | TypeError w1 => TypeError w1
          end)).
Proof.
  destruct r as [w1|w1]; cam_simpl; [|trivial].
  apply gestureConsistent_view; symmetry; apply gestureView_clampZoomLevel.
Qed.

Lemma consistent_perform (op : Operation) (w : World) :
  gestureConsistent (camera w) ->
  gestureConsistent (camera (worldOf (perform root op w))).
Proof.
  intros Hw.
  destruct op; unfold perform, onCamera; cbn [worldOf camera set_camera].
  - revert Hw; apply gestureConsistent_view; symmetry; apply gestureView_update.
  - unfold transform.
    destruct (G_IS_DEV root && testCulling root); cbn [fst]; [exact Hw|].
    revert Hw; apply gestureConsistent_view; symmetry.
    apply gestureView_clampZoomLevel.
  - exact Hw.
  - unfold gestureConsistent in *; unfold setDesiredCenter; cam_simpl.
    split; [discriminate | apply Hw].
  - exact Hw.
  - unfold gestureConsistent, clearAnimations; cam_simpl; split; discriminate.
  - unfold gestureConsistent, cancelAllInteractions; cam_simpl;
      split; discriminate.
  - exact Hw.
  - destruct k; exact Hw.
  - unfold onMouseDown.
    destruct (negb (checkPreventDoubleMouse performanceNow w)); [exact Hw|].
    cbv zeta.
    destruct (Z.eqb (which event) 1);
      [apply consistent_startHandler; exact Hw|].
    destruct (Z.eqb (which event) 2); [exact Hw|].
    destruct (Z.eqb (which event) 3); exact Hw.
  - unfold onMouseMove.
    destruct (negb (checkPreventDoubleMouse performanceNow w)); [exact Hw|].
    cbv zeta; apply consistent_clamped_completion.
    destruct (Z.eqb (which event) 1); [|exact Hw].
    apply consistent_moveHandler; exact Hw.
  - unfold onMouseUp.
    destruct (negb (checkPreventDoubleMouse performanceNow w)); [exact Hw|].
    destruct event as [event|]; [|exact Hw].
    cam_simpl; apply consistent_stopHandler; exact Hw.
  - unfold onMouseWheel; cam_simpl.
    revert Hw; apply gestureConsistent_view; symmetry.
    apply (gestureView_clampZoomLevel
             (set_zoomLevel
                (zoomLevel (camera w)
                 * (1 + Math_sign (deltaY event) * (-15 / 100))) (camera w))).
  - unfold onTouchStart; cbv zeta.
    destruct (touches event) as [|touch1 [|touch2 [|touch3 rest]]];
      try exact Hw.
    + apply consistent_startHandler; exact Hw.
    + unfold gestureConsistent in *; cam_simpl; split; discriminate.
  - unfold onTouchMove; cbv zeta; apply consistent_clamped_completion.
    destruct (touches event) as [|touch1 [|touch2 [|touch3 rest]]];
      try exact Hw.
    + apply consistent_moveHandler; exact Hw.
    + cam_simpl.
      destruct (currentlyPinching (camera w)); [|exact Hw].
      apply consistent_pinchMove; exact Hw.
  - unfold onTouchEnd; cbv zeta.
    destruct event as [event|]; [|exact Hw].
    destruct (changedTouches event) as [|touch rest]; [exact Hw|].
    cbn [List.length Nat.eqb worldOf].
    apply consistent_stopHandler; exact Hw.
  - unfold devKeydownListener.
    destruct (G_IS_DEV root); [|exact Hw].
    destruct (String.eqb key "l"); exact Hw.
Qed.

Lemma consistent_reachable (w : World) :
  reachable root anyOperation w -> gestureConsistent (camera w).
Proof.
  induction 1 as [touchTime | op w Hreach IH _].
  - unfold newWorld, newCamera; cbn [camera].
    eapply gestureConsistent_view;
      [symmetry; apply gestureView_clampZoomLevel|].
    eapply gestureConsistent_view;
      [symmetry; apply gestureView_clampZoomLevel|].
    unfold gestureConsistent; cam_simpl; split; discriminate.
  - apply consistent_perform; exact IH.
Qed.

End GestureFrames.

(** ** Drags and the centering animation *)

(** C5, as stated, fails: the camera is flying to (100, 0), no pre-handler
    claims the press, and after the drag-start call the camera is still
    flying to (100, 0). *)
Lemma dragStart_keeps_desiredCenter :
  desiredCenter (camera (Example.worldWith Example.centering)) <> None
  /\ downPreHandler Example.root (Vector.mk 10 10) enumMouseButton.left = false
  /\ desiredCenter
       (camera
          (combinedSingleTouchStartHandler Example.root 10 10
             (Example.worldWith Example.centering)))
     = Some (Vector.mk 100 0).
Proof.
  split; [discriminate | split; reflexivity].
Qed.

Lemma internalUpdateCentering_suspended (now dt : R) (c : Camera) :
  currentlyMoving c = true -> internalUpdateCentering now dt c = c.
Proof.
  intros Hmoving; unfold internalUpdateCentering.
  rewrite Hmoving; destruct (desiredCenter c); reflexivity.
Qed.

Lemma dragMove_clears_desiredCenter (root : GameRoot) (x y : R) (w : World)
  (last : Vector.t) :
  currentlyMoving (camera w) = true ->
  lastMovingPosition (camera w) = Some last ->
  movePreHandler root (Vector.mk x y) = false ->
  exists w',
    combinedSingleTouchMoveHandler root x y w = Normal w'
    /\ desiredCenter (camera w') = None.
Proof.
  intros Hmoving Hlast Hfree.
  unfold combinedSingleTouchMoveHandler.
  rewrite Hfree; cam_simpl; rewrite Hmoving, Hlast; cam_simpl.
  destruct (desiredCenter (camera w)) eqn:Hpending; cam_simpl;
    eexists; (split; [reflexivity|]); cam_simpl; try reflexivity.
  exact Hpending.
Qed.

(** C5, amended.  The drag-start call leaves [desiredCenter] as it is; when
    it is not claimed it sets [currentlyMoving], under which the centering
    channel of the integrator does nothing.  The animation is cancelled by
    the drag-move call: a sample of the drag in progress that no pre-handler
    claims leaves [desiredCenter] null when the call returns, in every world
    that has the last position of the drag on record, which every world
    reached from the constructor has. *)
Theorem dragMove_cancels_centering (root : GameRoot) (x y : R) (w : World) :
  desiredCenter (camera (combinedSingleTouchStartHandler root x y w))
    = desiredCenter (camera w)
  /\ (downPreHandler root (Vector.mk x y) enumMouseButton.left = false ->
      let c := camera (combinedSingleTouchStartHandler root x y w) in
      currentlyMoving c = true
      /\ forall now dt, internalUpdateCentering now dt c = c)
  /\ (forall last : Vector.t,
        currentlyMoving (camera w) = true ->
        lastMovingPosition (camera w) = Some last ->
        movePreHandler root (Vector.mk x y) = false ->
        exists w',
          combinedSingleTouchMoveHandler root x y w = Normal w'
          /\ desiredCenter (camera w') = None)
  /\ (reachable root anyOperation w ->
      currentlyMoving (camera w) = true ->
      movePreHandler root (Vector.mk x y) = false ->
      exists w',
        combinedSingleTouchMoveHandler root x y w = Normal w'
        /\ desiredCenter (camera w') = None).
Proof.
  split; [|split; [|split]].
  - unfold combinedSingleTouchStartHandler.
    destruct (downPreHandler root (Vector.mk x y) enumMouseButton.left);
      reflexivity.
  - intros Hfree; cbv zeta.
    assert (Hmoving :
      currentlyMoving (camera (combinedSingleTouchStartHandler root x y w))
      = true).
    { unfold combinedSingleTouchStartHandler; rewrite Hfree; reflexivity. }
    split; [exact Hmoving|].
    intros now dt; apply internalUpdateCentering_suspended; exact Hmoving.
  - intros last; apply dragMove_clears_desiredCenter.
  - intros Hreach Hmoving Hfree.
    destruct (consistent_reachable root w Hreach) as (Hdrag & _).
    destruct (lastMovingPosition (camera w)) as [last|] eqn:Hlast;
      [|exfalso; apply (Hdrag Hmoving); reflexivity].
    apply (dragMove_clears_desiredCenter root x y w last); assumption.
Qed.

Lemma dragMove_cancels_centering_witness :
  currentlyMoving (camera (Example.worldWith Example.dragging)) = true
  /\ desiredCenter (camera (Example.worldWith Example.dragging))
     = Some (Vector.mk 100 0)
  /\ exists w',
       combinedSingleTouchMoveHandler Example.root 12 10
         (Example.worldWith Example.dragging) = Normal w'
       /\ desiredCenter (camera w') = None.
Proof.
  split; [reflexivity | split; [reflexivity|]].
  apply (dragMove_cancels_centering Example.root 12 10
           (Example.worldWith Example.dragging))
    with (last := Vector.mk 10 10); reflexivity.
Defined.

(** * Further properties of the camera *)

(** ** What a drag sample does *)


(** What an accepted sample of a drag in progress leaves behind, outside the
    culling test of a development build. *)
Lemma dragMove_result (root : GameRoot) (x y : R) (w : World)
  (last : Vector.t) :
  currentlyMoving (camera w) = true ->
  lastMovingPosition (camera w) = Some last ->
  movePreHandler root (Vector.mk x y) = false ->
  G_IS_DEV root && testCulling root = false ->
  let delta :=
    Vector.divideScalar (Vector.sub last (Vector.mk x y))
      (zoomLevel (camera w)) in
  exists w',
    combinedSingleTouchMoveHandler root x y w = Normal w'
    /\ center (camera w') = Vector.add (center (camera w)) delta
    /\ zoomLevel (camera w') = zoomLevel (camera w)
    /\ didMoveSinceTouchStart (camera w')
       = didMoveSinceTouchStart (camera w) || Js.gt (Vector.length delta) 0
    /\ touchPostMoveVelocity (camera w')
       = Vector.add
           (Vector.multiplyScalar (touchPostMoveVelocity (camera w))
              velocitySmoothing)
           (Vector.multiplyScalar delta (1 - velocitySmoothing))
    /\ lastMovingPosition (camera w') = Some (Vector.mk x y)
    /\ currentlyMoving (camera w') = true
    /\ currentlyPinching (camera w') = currentlyPinching (camera w).
Proof.
  intros Hmoving Hlast Hfree Hgate delta; subst delta.
  unfold combinedSingleTouchMoveHandler.
  rewrite Hfree; cam_simpl; rewrite Hmoving, Hlast, Hgate; cam_simpl.
  destruct (desiredCenter (camera w)); cam_simpl;
    eexists; (split; [reflexivity|]); cam_simpl;
    repeat split; try reflexivity; exact Hmoving.
Qed.

(** X1.  A drag keeps the grabbed point under the pointer: after an accepted
    sample of a drag in progress, the world point that was under the previous
    pointer position is under the new one, and the zoom level is the same. *)
Theorem dragMove_keeps_grabbed_point (root : GameRoot) (x y : R) (w : World)
  (last : Vector.t) :
  currentlyMoving (camera w) = true ->
  lastMovingPosition (camera w) = Some last ->
  movePreHandler root (Vector.mk x y) = false ->
  G_IS_DEV root && testCulling root = false ->
  zoomLevel (camera w) <> 0 ->
  exists w',
    combinedSingleTouchMoveHandler root x y w = Normal w'
    /\ screenToWorld root (camera w') (Vector.mk x y)
       = screenToWorld root (camera w) last
    /\ zoomLevel (camera w') = zoomLevel (camera w).
Proof.
  intros Hmoving Hlast Hfree Hgate Hzoom.
  destruct (dragMove_result root x y w last Hmoving Hlast Hfree Hgate)
    as (w' & Hmove & Hcenter & Hsame & _).
  exists w'; split; [exact Hmove|]. split; [|exact Hsame].
  unfold screenToWorld; rewrite Hcenter, Hsame.
  destruct last as [lx ly]; destruct (center (camera w)) as [cx cy].
  unfold Vector.add, Vector.divideScalar, Vector.subScalars, Vector.sub.
  cbn [Vector.x Vector.y].
  f_equal; field; exact Hzoom.
Qed.

Lemma dragMove_keeps_grabbed_point_witness :
  exists w',
    combinedSingleTouchMoveHandler Example.root 12 10
      (Example.worldWith Example.dragging) = Normal w'
    /\ screenToWorld Example.root (camera w') (Vector.mk 12 10)
       = screenToWorld Example.root Example.dragging (Vector.mk 10 10)
    /\ zoomLevel (camera w') = 1.
Proof.
  apply (dragMove_keeps_grabbed_point Example.root 12 10
           (Example.worldWith Example.dragging) (Vector.mk 10 10));
    try reflexivity.
  simpl; lra.
Defined.

(** X2.  A press is not yet an interaction, a movement is: after an unclaimed
    drag start on a camera that is not pinching, [isCurrentlyInteracting] is
    false; an accepted sample at the previous pointer position leaves
    [didMoveSinceTouchStart] as it was, and one at a different position sets
    it and makes [isCurrentlyInteracting] true. *)
Theorem press_then_move_interacts (root : GameRoot) (x y : R) (w : World) :
  (downPreHandler root (Vector.mk x y) enumMouseButton.left = false ->
   currentlyPinching (camera w) = false ->
   isCurrentlyInteracting
     (camera (combinedSingleTouchStartHandler root x y w)) = false)
  /\ (forall last : Vector.t,
         currentlyMoving (camera w) = true ->
         lastMovingPosition (camera w) = Some last ->
         movePreHandler root (Vector.mk x y) = false ->
         G_IS_DEV root && testCulling root = false ->
         zoomLevel (camera w) <> 0 ->
         exists w',
           combinedSingleTouchMoveHandler root x y w = Normal w'
           /\ (last = Vector.mk x y ->
               didMoveSinceTouchStart (camera w')
               = didMoveSinceTouchStart (camera w))
           /\ (last <> Vector.mk x y ->
               didMoveSinceTouchStart (camera w') = true
               /\ isCurrentlyInteracting (camera w') = true)).
Proof.
  split.
  - intros Hfree Hpinch.
    unfold combinedSingleTouchStartHandler; rewrite Hfree.
    unfold isCurrentlyInteracting; cam_simpl; rewrite Hpinch; reflexivity.
  - intros last Hmoving Hlast Hfree Hgate Hzoom.
    destruct (dragMove_result root x y w last Hmoving Hlast Hfree Hgate)
      as (w' & Hmove & _ & _ & Hdid & _ & _ & Hmoving' & _).
    exists w'; split; [exact Hmove|].
    set (delta := Vector.divideScalar (Vector.sub last (Vector.mk x y))
                    (zoomLevel (camera w))) in *.
    assert (Hdelta : delta = Vector.mk 0 0 <-> last = Vector.mk x y).
    { unfold delta; destruct last as [lx ly].
      unfold Vector.divideScalar, Vector.sub; cbn [Vector.x Vector.y].
      split; intros Heq; injection Heq as Hx Hy.
      - apply (f_equal (fun v => v * zoomLevel (camera w))) in Hx, Hy.
        unfold Rdiv in Hx, Hy.
        rewrite Rmult_assoc, Rinv_l in Hx, Hy by exact Hzoom.
        f_equal; lra.
      - subst; f_equal; unfold Rdiv; ring. }
    split.
    + intros Hsame; apply Hdelta in Hsame.
      assert (Hstill : Js.gt (Vector.length delta) 0 = false).
      { destruct (Js.gt (Vector.length delta) 0) eqn:Hlen; [|reflexivity].
        apply length_pos_iff in Hlen; contradiction. }
      rewrite Hdid, Hstill, orb_false_r; reflexivity.
    + intros Hdiff.
      assert (Hmoved : Js.gt (Vector.length delta) 0 = true).
      { apply length_pos_iff; intros Hzero; apply Hdiff, Hdelta, Hzero. }
      assert (Hset : didMoveSinceTouchStart (camera w') = true).
      { rewrite Hdid, Hmoved, orb_true_r; reflexivity. }
      split; [exact Hset|].
      unfold isCurrentlyInteracting; rewrite Hmoving', Hset.
      destruct (currentlyPinching (camera w')); reflexivity.
Qed.

Lemma press_then_move_interacts_witness :
  exists w',
    combinedSingleTouchMoveHandler Example.root 12 10
      (Example.worldWith Example.dragging) = Normal w'
    /\ isCurrentlyInteracting (camera w') = true.
Proof.
  destruct (press_then_move_interacts Example.root 12 10
              (Example.worldWith Example.dragging)) as (_ & Hmove).
  destruct (Hmove (Vector.mk 10 10)) as (w' & Hreturns & _ & Hmoved);
    try reflexivity.
  { simpl; lra. }
  exists w'; split; [exact Hreturns|].
  apply Hmoved.
  intros Heq; injection Heq as Hx; lra.
Defined.

(** ** What a pinch sample does *)


Lemma distance_horizontal (a b y : R) :
  Vector.distance (Vector.mk a y) (Vector.mk b y) = Rabs (a - b).
Proof.
  unfold Vector.distance, Math_hypot; cbn [Vector.x Vector.y].
  replace ((a - b) * (a - b) + (y - y) * (y - y)) with (Rsqr (a - b))
    by (unfold Rsqr; ring).
  apply sqrt_Rsqr_abs.
Qed.

(** What the pinch branch leaves behind, before the clamp that ends
    [onTouchMove]. *)
Lemma pinchMove_result (root : GameRoot) (touch1 touch2 : Touch) (w : World)
  (last0 last1 : Vector.t) :
  lastPinchPositions (camera w) = Some (last0, last1) ->
  let new0 := Vector.mk (touch_clientX touch1) (touch_clientY touch1) in
  let new1 := Vector.mk (touch_clientX touch2) (touch_clientY touch2) in
  let difference :=
    Vector.distance new0 new1
    / Math_max (1 / 1000) (Vector.distance last0 last1) in
  let movement :=
    Vector.sub (Vector.centerPoint last0 last1)
      (Vector.centerPoint new0 new1) in
  let pivot :=
    Vector.sub (Vector.centerPoint new0 new1)
      (Vector.mk (gameWidth root / 2) (gameHeight root / 2)) in
  exists w',
    pinchMove root touch1 touch2 w = Normal w'
    /\ zoomLevel (camera w') = zoomLevel (camera w) * difference
    /\ center (camera w')
       = Vector.add
           (Vector.mk
              (Vector.x (center (camera w))
               + Vector.x movement / zoomLevel (camera w))
              (Vector.y (center (camera w))
               + Vector.y movement / zoomLevel (camera w)))
           (Vector.divideScalar
              (Vector.multiplyScalar pivot (difference - 1))
              (zoomLevel (camera w) * difference))
    /\ lastPinchPositions (camera w') = Some (new0, new1)
    /\ Js.truthyNumber (desiredZoom (camera w')) = false
    /\ (desiredZoom (camera w') = None
        \/ desiredZoom (camera w') = desiredZoom (camera w)).
Proof.
  intros Hlast new0 new1 difference movement pivot.
  unfold pinchMove; rewrite Hlast; cam_simpl.
  destruct (desiredZoom (camera w)) as [dz|] eqn:Htarget; cam_simpl;
    [destruct (Js.truthy dz) eqn:Htruthy|];
    eexists; (split; [reflexivity|]); cam_simpl; rewrite ?Htarget;
    cam_simpl; repeat split; auto.
Qed.

(** X3.  A pinch scales the zoom by the ratio of the finger distances and
    keeps the pivot: when the camera is pinching with its last two touch
    points on record, the two new touch points differ, and the scaled zoom
    level is inside the limits (or the limits are off), [onTouchMove] returns
    with [zoomLevel] multiplied by new distance / max(0.001, old distance),
    and the world point that was under the midpoint of the old touch points
    is under the midpoint of the new ones. *)
Theorem pinchMove_keeps_pivot (root : GameRoot) (performanceNow : R)
  (touch1 touch2 : Touch) (changed : list Touch) (w : World)
  (last0 last1 : Vector.t) :
  let event := {| touches := [touch1; touch2]; changedTouches := changed |} in
  let new0 := Vector.mk (touch_clientX touch1) (touch_clientY touch1) in
  let new1 := Vector.mk (touch_clientX touch2) (touch_clientY touch2) in
  let difference :=
    Vector.distance new0 new1
    / Math_max (1 / 1000) (Vector.distance last0 last1) in
  currentlyPinching (camera w) = true ->
  lastPinchPositions (camera w) = Some (last0, last1) ->
  zoomLevel (camera w) <> 0 ->
  new0 <> new1 ->
  zoomLimitsDisabled root = true
  \/ getMinimumZoom root <= zoomLevel (camera w) * difference
     <= getMaximumZoom root ->
  exists w',
    onTouchMove root performanceNow event w = Normal w'
    /\ zoomLevel (camera w') = zoomLevel (camera w) * difference
    /\ (1 / 1000 <= Vector.distance last0 last1 ->
        zoomLevel (camera w')
        = zoomLevel (camera w)
          * (Vector.distance new0 new1 / Vector.distance last0 last1))
    /\ screenToWorld root (camera w') (Vector.centerPoint new0 new1)
       = screenToWorld root (camera w) (Vector.centerPoint last0 last1).
Proof.
  intros event new0 new1 difference Hpinch Hlast Hzoom Hnew Hlimits.
  destruct (pinchMove_result root touch1 touch2
              (set_lastTouchTime performanceNow w) last0 last1 Hlast)
    as (w1 & Hmove & Hz & Hcenter & _).
  cbn [camera set_lastTouchTime] in Hz, Hcenter.
  fold new0 new1 in Hz, Hcenter; fold difference in Hz, Hcenter.
  assert (Hdiff : difference <> 0).
  { unfold difference.
    pose proof (distance_pos new0 new1 Hnew) as Hthis.
    pose proof (IeeeFacts.guarded_divisor_pos (Vector.distance last0 last1))
      as Hdiv.
    apply Rgt_not_eq, Rlt_gt, Rdiv_lt_0_compat; assumption. }
  assert (Hafter :
    zoomLevel (clampZoomLevel root (camera w1))
    = zoomLevel (camera w) * difference).
  { rewrite zoomLevel_clampZoomLevel_gate, Hz.
    destruct (zoomLimitsDisabled root); [reflexivity|].
    destruct Hlimits as [Hoff|Hin]; [discriminate|].
    apply clamp_fixes; exact Hin. }
  assert (Hcenter' :
    center (clampZoomLevel root (camera w1)) = center (camera w1)).
  { unfold clampZoomLevel.
    destruct (zoomLimitsDisabled root); [reflexivity|]; cam_simpl.
    destruct (desiredZoom (camera w1)) as [dz|];
      [destruct (Js.truthy dz)|]; reflexivity. }
  exists (set_camera (clampZoomLevel root (camera w1)) w1).
  split.
  { unfold onTouchMove, event; cbn [touches camera set_lastTouchTime].
    rewrite Hpinch, Hmove; reflexivity. }
  cbn [camera set_camera].
  split; [exact Hafter|]. split.
  - intros Hfar; rewrite Hafter; unfold difference, Math_max.
    rewrite Rmax_right by exact Hfar; reflexivity.
  - unfold screenToWorld; rewrite Hafter, Hcenter', Hcenter.
    clearbody difference.
    destruct (Vector.centerPoint new0 new1) as [nx ny].
    destruct (Vector.centerPoint last0 last1) as [ox oy].
    destruct (center (camera w)) as [cx cy].
    unfold Vector.add, Vector.divideScalar, Vector.multiplyScalar,
      Vector.subScalars, Vector.sub.
    cbn [Vector.x Vector.y].
    f_equal; field; split; assumption.
Qed.

(** The scenario of the specification: the fingers go from 200 apart to 100
    apart around the same midpoint, and the zoom level halves. *)
Lemma pinchMove_keeps_pivot_witness :
  let touch1 := {| touch_clientX := 150; touch_clientY := 300 |} in
  let touch2 := {| touch_clientX := 250; touch_clientY := 300 |} in
  exists w',
    onTouchMove Example.root 5
      {| touches := [touch1; touch2]; changedTouches := [] |}
      (Example.worldWith Example.pinching) = Normal w'
    /\ zoomLevel (camera w') = 1 / 2
    /\ screenToWorld Example.root (camera w') (Vector.mk 200 300)
       = screenToWorld Example.root Example.pinching (Vector.mk 200 300).
Proof.
  intros touch1 touch2.
  assert (Hthis :
    Vector.distance (Vector.mk 150 300) (Vector.mk 250 300) = 100).
  { rewrite distance_horizontal, Rabs_left; lra. }
  assert (Hlast :
    Vector.distance (Vector.mk 100 300) (Vector.mk 300 300) = 200).
  { rewrite distance_horizontal, Rabs_left; lra. }
  assert (Hmax : Math_max (1 / 1000) 200 = 200).
  { unfold Math_max; apply Rmax_right; lra. }
  destruct (pinchMove_keeps_pivot Example.root 5 touch1 touch2 []
              (Example.worldWith Example.pinching)
              (Vector.mk 100 300) (Vector.mk 300 300))
    as (w' & Hmove & Hzoom & _ & Hpivot).
  - reflexivity.
  - reflexivity.
  - simpl; lra.
  - intros Heq; injection Heq as Hx; lra.
  - right; cbn [touch_clientX touch_clientY touch1 touch2].
    rewrite Hthis, Hlast, Hmax; simpl; lra.
  - exists w'; split; [exact Hmove|].
    cbn [touch_clientX touch_clientY touch1 touch2] in Hzoom, Hpivot.
    rewrite Hthis, Hlast, Hmax in Hzoom.
    split.
    + rewrite Hzoom; simpl; lra.
    + replace (Vector.mk 200 300)
        with (Vector.centerPoint (Vector.mk 150 300) (Vector.mk 250 300))
        at 1
        by (unfold Vector.centerPoint; cbn [Vector.x Vector.y];
            f_equal; lra).
      rewrite Hpivot.
      unfold Vector.centerPoint; cbn [Vector.x Vector.y].
      f_equal; f_equal; lra.
Defined.

(** X4.  A pinch has authority over the zoom: when [onTouchMove] returns from
    a pinch sample, no truthy zoom target is left (a target other than zero
    has become null), and while the camera is pinching the zoom channel of
    the integrator leaves the camera alone. *)
Theorem pinch_cancels_zoom_animation (root : GameRoot) (performanceNow : R)
  (touch1 touch2 : Touch) (changed : list Touch) (w : World)
  (last0 last1 : Vector.t) :
  let event := {| touches := [touch1; touch2]; changedTouches := changed |} in
  currentlyPinching (camera w) = true ->
  lastPinchPositions (camera w) = Some (last0, last1) ->
  (exists w',
      onTouchMove root performanceNow event w = Normal w'
      /\ Js.truthyNumber (desiredZoom (camera w')) = false
      /\ (forall dz : R,
             desiredZoom (camera w) = Some dz -> dz <> 0 ->
             desiredZoom (camera w') = None))
  /\ (forall now dt : R, internalUpdateZooming now dt (camera w) = camera w).
Proof.
  intros event Hpinch Hlast; split.
  - destruct (pinchMove_result root touch1 touch2
                (set_lastTouchTime performanceNow w) last0 last1 Hlast)
      as (w1 & Hmove & _ & _ & _ & Hfalsy & Hkept).
    cbn [camera set_lastTouchTime] in Hkept.
    exists (set_camera (clampZoomLevel root (camera w1)) w1).
    split.
    { unfold onTouchMove, event; cbn [touches camera set_lastTouchTime].
      rewrite Hpinch, Hmove; reflexivity. }
    cbn [camera set_camera].
    assert (Hsame :
      desiredZoom (clampZoomLevel root (camera w1))
      = desiredZoom (camera w1)).
    { unfold clampZoomLevel.
      destruct (zoomLimitsDisabled root); [reflexivity|]; cam_simpl.
      destruct (desiredZoom (camera w1)) as [dz|] eqn:Htarget;
        [|cam_simpl; exact Htarget].
      cbn [Js.truthyNumber] in Hfalsy; rewrite Hfalsy; cam_simpl.
      exact Htarget. }
    rewrite Hsame; split; [exact Hfalsy|].
    intros dz Htarget Hnonzero.
    destruct Hkept as [Hnone | Hkept]; [exact Hnone|].
    rewrite Hkept, Htarget in Hfalsy; cbn [Js.truthyNumber] in Hfalsy.
    apply JsFacts.truthy_true in Hnonzero; congruence.
  - intros now dt; apply internalUpdateZooming_pinching; exact Hpinch.
Qed.

Lemma pinch_cancels_zoom_animation_witness :
  let touch1 := {| touch_clientX := 150; touch_clientY := 300 |} in
  let touch2 := {| touch_clientX := 250; touch_clientY := 300 |} in
  exists w',
    onTouchMove Example.root 5
      {| touches := [touch1; touch2]; changedTouches := [] |}
      (Example.worldWith (requestZoom 2 Example.pinching)) = Normal w'
    /\ desiredZoom (camera w') = None.
Proof.
  intros touch1 touch2.
  destruct (pinch_cancels_zoom_animation Example.root 5 touch1 touch2 []
              (Example.worldWith (requestZoom 2 Example.pinching))
              (Vector.mk 100 300) (Vector.mk 300 300) eq_refl eq_refl)
    as ((w' & Hmove & _ & Hnull) & _).
  exists w'; split; [exact Hmove|].
  apply (Hnull 2); [reflexivity | lra].
Defined.

(** ** Mouse events after touch events *)

Lemma mouse_suppressed (root : GameRoot) (performanceNow : R) (w : World)
  (event : MouseEvent) (released : option MouseEvent) :
  performanceNow - lastTouchTime w < 1000 ->
  onMouseDown root performanceNow event w = w
  /\ onMouseMove root performanceNow event w = Normal w
  /\ onMouseUp performanceNow released w = Normal w.
Proof.
  intros Hsoon.
  assert (Hcheck : checkPreventDoubleMouse performanceNow w = false).
  { unfold checkPreventDoubleMouse.
    apply JsFacts.lt_true in Hsoon; rewrite Hsoon; reflexivity. }
  unfold onMouseDown, onMouseMove, onMouseUp; rewrite Hcheck.
  repeat split; reflexivity.
Qed.

Lemma lastTouchTime_startHandler (root : GameRoot) (x y : R) (w : World) :
  lastTouchTime (combinedSingleTouchStartHandler root x y w) = lastTouchTime w.
Proof.
  unfold combinedSingleTouchStartHandler.
  destruct (downPreHandler root (Vector.mk x y) enumMouseButton.left);
    reflexivity.
Qed.

Lemma lastTouchTime_moveHandler (root : GameRoot) (x y : R) (w : World) :
  lastTouchTime (worldOf (combinedSingleTouchMoveHandler root x y w))
  = lastTouchTime w.
Proof.
  unfold combinedSingleTouchMoveHandler.
  destruct (movePreHandler root (Vector.mk x y)); [reflexivity|].
  cam_simpl.
  destruct (currentlyMoving (camera w)); [|reflexivity].
  destruct (lastMovingPosition (camera w)); [|reflexivity].
  cam_simpl.
  destruct (desiredCenter (camera w)); reflexivity.
Qed.

Lemma lastTouchTime_stopHandler (x y : R) (w : World) :
  lastTouchTime (combinedSingleTouchStopHandler x y w) = lastTouchTime w.
Proof.
  unfold combinedSingleTouchStopHandler.
  destruct (currentlyMoving (camera w) || currentlyPinching (camera w));
    reflexivity.
Qed.

Lemma lastTouchTime_pinchMove (root : GameRoot) (touch1 touch2 : Touch)
  (w : World) :
  lastTouchTime (worldOf (pinchMove root touch1 touch2 w)) = lastTouchTime w.
Proof.
  unfold pinchMove.
  destruct (lastPinchPositions (camera w)); [|reflexivity].
  cam_simpl.
  destruct (desiredZoom (camera w)) as [dz|]; cam_simpl;
    [destruct (Js.truthy dz)|]; reflexivity.
Qed.

Lemma lastTouchTime_clamped (root : GameRoot) (r : Completion) :
  lastTouchTime
    (worldOf
       match r with
       | Normal w1 => Normal (set_camera (clampZoomLevel root (camera w1)) w1)
       | TypeError w1 => TypeError w1
       end)
  = lastTouchTime (worldOf r).
Proof. destruct r; reflexivity. Qed.

Lemma lastTouchTime_onTouchStart (root : GameRoot) (t : R) (event : TouchEvent)
  (w : World) : lastTouchTime (onTouchStart root t event w) = t.
Proof.
  unfold onTouchStart; cbv zeta.
  destruct (touches event) as [|touch1 [|touch2 [|touch3 rest]]];
    try reflexivity.
  rewrite lastTouchTime_startHandler; reflexivity.
Qed.

Lemma lastTouchTime_onTouchMove (root : GameRoot) (t : R) (event : TouchEvent)
  (w : World) : lastTouchTime (worldOf (onTouchMove root t event w)) = t.
Proof.
  unfold onTouchMove; cbv zeta; rewrite lastTouchTime_clamped.
  destruct (touches event) as [|touch1 [|touch2 [|touch3 rest]]];
    try reflexivity.
  - rewrite lastTouchTime_moveHandler; reflexivity.
  - cam_simpl.
    destruct (currentlyPinching (camera w)); [|reflexivity].
    rewrite lastTouchTime_pinchMove; reflexivity.
Qed.

Lemma lastTouchTime_onTouchEnd (t : R) (event : option TouchEvent) (w : World) :
  lastTouchTime (worldOf (onTouchEnd t event w)) = t.
Proof.
  unfold onTouchEnd; cbv zeta.
  destruct event as [event|]; [|reflexivity].
  destruct (changedTouches event) as [|touch rest]; [reflexivity|].
  cbn [List.length Nat.eqb worldOf].
  rewrite lastTouchTime_stopHandler; reflexivity.
Qed.

(** X5.  The guard against synthetic mouse events: a mouse down, move or up
    that arrives less than 1000 ms after any touch start, touch move or touch
    end (whether that handler returned or raised) changes nothing at all. *)
Theorem mouse_ignored_after_touch (root : GameRoot) (t performanceNow : R)
  (w : World) (event : MouseEvent) (released : option MouseEvent) :
  performanceNow - t < 1000 ->
  forall after : World,
    (exists e, after = onTouchStart root t e w)
    \/ (exists e, after = worldOf (onTouchMove root t e w))
    \/ (exists e, after = worldOf (onTouchEnd t e w)) ->
    onMouseDown root performanceNow event after = after
    /\ onMouseMove root performanceNow event after = Normal after
    /\ onMouseUp performanceNow released after = Normal after.
Proof.
  intros Hsoon after Hafter.
  apply mouse_suppressed.
  destruct Hafter as [(e & ->) | [(e & ->) | (e & ->)]].
  - rewrite lastTouchTime_onTouchStart; exact Hsoon.
  - rewrite lastTouchTime_onTouchMove; exact Hsoon.
  - rewrite lastTouchTime_onTouchEnd; exact Hsoon.
Qed.

Lemma mouse_ignored_after_touch_witness :
  let tap := {| touches := [{| touch_clientX := 10; touch_clientY := 10 |}];
                changedTouches := [] |} in
  let press := {| which := 1; clientX := 10; clientY := 10 |} in
  let after := onTouchStart Example.root 100 tap
                 (Example.worldWith Example.idle) in
  onMouseDown Example.root 600 press after = after.
Proof.
  intros tap press after.
  apply (mouse_ignored_after_touch Example.root 100 600
           (Example.worldWith Example.idle) press None).
  - lra.
  - left; exists tap; reflexivity.
Defined.

(** ** Handlers that cannot raise *)

Lemma moveHandler_returns (root : GameRoot) (x y : R) (w : World) :
  gestureConsistent (camera w) ->
  completesNormally (combinedSingleTouchMoveHandler root x y w) = true.
Proof.
  intros (Hdrag & _); unfold combinedSingleTouchMoveHandler.
  destruct (movePreHandler root (Vector.mk x y)); [reflexivity|].
  cam_simpl.
  destruct (currentlyMoving (camera w)) eqn:Hmoving; [|reflexivity].
  destruct (lastMovingPosition (camera w)) eqn:Hlast;
    [|exfalso; apply (Hdrag eq_refl); reflexivity].
  cam_simpl; destruct (desiredCenter (camera w)); reflexivity.
Qed.

Lemma clamped_returns (root : GameRoot) (r : Completion) :
  completesNormally
    match r with
    | Normal w1 => Normal (set_camera (clampZoomLevel root (camera w1)) w1)
    | TypeError w1 => TypeError w1
    end
  = completesNormally r.
Proof. destruct r; reflexivity. Qed.

(** X6.  In every world reached from the constructor, by any operations, a
    drag in progress has its last position on record and a pinch in progress
    its last two positions, so the mouse-move and touch-move handlers never
    raise: they return for every event. *)
Theorem move_handlers_return (root : GameRoot) (w : World) :
  reachable root anyOperation w ->
  gestureConsistent (camera w)
  /\ (forall (performanceNow : R) (event : MouseEvent),
         completesNormally (onMouseMove root performanceNow event w) = true)
  /\ (forall (performanceNow : R) (event : TouchEvent),
         completesNormally (onTouchMove root performanceNow event w) = true).
Proof.
  intros Hreach.
  pose proof (consistent_reachable root w Hreach) as Hconsistent.
  split; [exact Hconsistent|]. split.
  - intros performanceNow event; unfold onMouseMove.
    destruct (negb (checkPreventDoubleMouse performanceNow w)); [reflexivity|].
    cbv zeta; rewrite clamped_returns.
    destruct (Z.eqb (which event) 1); [|reflexivity].
    apply moveHandler_returns; exact Hconsistent.
  - intros performanceNow event; unfold onTouchMove; cbv zeta.
    rewrite clamped_returns.
    destruct (touches event) as [|touch1 [|touch2 [|touch3 rest]]];
      try reflexivity.
    + apply moveHandler_returns; exact Hconsistent.
    + cam_simpl.
      destruct (currentlyPinching (camera w)) eqn:Hpinch; [|reflexivity].
      destruct Hconsistent as (_ & Hpinching).
      unfold pinchMove; cbn [camera set_lastTouchTime].
      destruct (lastPinchPositions (camera w)) eqn:Hlast;
        [|exfalso; apply (Hpinching Hpinch); reflexivity].
      cam_simpl.
      destruct (desiredZoom (camera w)) as [dz|]; cam_simpl;
        [destruct (Js.truthy dz)|]; reflexivity.
Qed.

Lemma move_handlers_return_witness :
  completesNormally
    (onTouchMove Example.root 7
       {| touches := [{| touch_clientX := 1; touch_clientY := 2 |}];
          changedTouches := [] |}
       (newWorld Example.root 0)) = true.
Proof.
  apply (move_handlers_return Example.root (newWorld Example.root 0)).
  apply reachable_new.
Defined.

(** ** Releasing *)

Lemma center_clampZoomLevel (root : GameRoot) (c : Camera) :
  center (clampZoomLevel root c) = center c.
Proof.
  unfold clampZoomLevel.
  destruct (zoomLimitsDisabled root); [reflexivity|]; cam_simpl.
  destruct (desiredZoom c) as [dz|]; [destruct (Js.truthy dz)|]; reflexivity.
Qed.

Lemma touchMove_idle (root : GameRoot) (performanceNow : R)
  (event : TouchEvent) (w : World) :
  currentlyMoving (camera w) = false ->
  currentlyPinching (camera w) = false ->
  exists w',
    onTouchMove root performanceNow event w = Normal w'
    /\ center (camera w') = center (camera w).
Proof.
  intros Hmoving Hpinch; unfold onTouchMove; cbv zeta.
  destruct (touches event) as [|touch1 [|touch2 [|touch3 rest]]].
  - eexists; split; [reflexivity|]; cam_simpl; apply center_clampZoomLevel.
  - unfold combinedSingleTouchMoveHandler.
    destruct (movePreHandler root _);
      [|cam_simpl; rewrite Hmoving; cam_simpl];
      (eexists; split; [reflexivity|]); cam_simpl;
      apply center_clampZoomLevel.
  - cam_simpl; rewrite Hpinch.
    eexists; split; [reflexivity|]; cam_simpl; apply center_clampZoomLevel.
  - eexists; split; [reflexivity|]; cam_simpl; apply center_clampZoomLevel.
Qed.

Lemma stopHandler_camera (x y : R) (w : World) :
  camera (combinedSingleTouchStopHandler x y w)
  = if currentlyMoving (camera w) || currentlyPinching (camera w)
    then set_didMoveSinceTouchStart false
           (set_lastPinchPositions None
              (set_lastMovingPosition None
                 (set_currentlyPinching false
                    (set_currentlyMoving false (camera w)))))
    else camera w.
Proof.
  unfold combinedSingleTouchStopHandler.
  destruct (currentlyMoving (camera w) || currentlyPinching (camera w));
    reflexivity.
Qed.

(** X7.  A touch end with a changed touch ends the gesture: whatever was in
    progress, the handler returns with no drag and no pinch in progress and
    the last positions forgotten; it moves neither the center nor the zoom
    level and keeps the inertial velocity; and every touch move that follows
    it, with any number of touches, leaves the center where it is. *)
Theorem touchEnd_ends_gesture (root : GameRoot) (t : R) (touch : Touch)
  (rest remaining : list Touch) (w : World) :
  let event := {| touches := remaining; changedTouches := touch :: rest |} in
  exists w',
    onTouchEnd t (Some event) w = Normal w'
    /\ currentlyMoving (camera w') = false
    /\ currentlyPinching (camera w') = false
    /\ (currentlyMoving (camera w) = true
        \/ currentlyPinching (camera w) = true ->
        lastMovingPosition (camera w') = None
        /\ lastPinchPositions (camera w') = None)
    /\ center (camera w') = center (camera w)
    /\ zoomLevel (camera w') = zoomLevel (camera w)
    /\ touchPostMoveVelocity (camera w') = touchPostMoveVelocity (camera w)
    /\ forall (t' : R) (event' : TouchEvent),
         exists w'',
           onTouchMove root t' event' w' = Normal w''
           /\ center (camera w'') = center (camera w').
Proof.
  intros event.
  exists (combinedSingleTouchStopHandler (touch_clientX touch)
            (touch_clientY touch) (set_lastTouchTime t w)).
  split; [reflexivity|].
  pose proof (stopHandler_camera (touch_clientX touch) (touch_clientY touch)
                (set_lastTouchTime t w)) as Hcamera.
  cbn [camera set_lastTouchTime] in Hcamera.
  assert (Hmoving :
    currentlyMoving
      (camera (combinedSingleTouchStopHandler (touch_clientX touch)
                 (touch_clientY touch) (set_lastTouchTime t w))) = false).
  { rewrite Hcamera.
    destruct (currentlyMoving (camera w)) eqn:Hm; [reflexivity|].
    destruct (currentlyPinching (camera w)); [reflexivity|exact Hm]. }
  assert (Hpinch :
    currentlyPinching
      (camera (combinedSingleTouchStopHandler (touch_clientX touch)
                 (touch_clientY touch) (set_lastTouchTime t w))) = false).
  { rewrite Hcamera.
    destruct (currentlyPinching (camera w)) eqn:Hp;
      [rewrite orb_true_r; reflexivity|].
    destruct (currentlyMoving (camera w)); [reflexivity|exact Hp]. }
  split; [exact Hmoving|]. split; [exact Hpinch|].
  split; [|split; [|split; [|split]]].
  - rewrite Hcamera.
    intros [-> | ->]; rewrite ?orb_true_r; split; reflexivity.
  - rewrite Hcamera.
    destruct (currentlyMoving (camera w) || currentlyPinching (camera w));
      reflexivity.
  - rewrite Hcamera.
    destruct (currentlyMoving (camera w) || currentlyPinching (camera w));
      reflexivity.
  - rewrite Hcamera.
    destruct (currentlyMoving (camera w) || currentlyPinching (camera w));
      reflexivity.
  - intros t' event'; apply touchMove_idle; assumption.
Qed.

(** ** The inertial velocity *)

Lemma length_multiplyScalar (v : Vector.t) (k : R) :
  0 <= k -> Vector.length (Vector.multiplyScalar v k) = k * Vector.length v.
Proof.
  intros Hk; destruct v as [vx vy].
  unfold Vector.length, Vector.multiplyScalar, Math_hypot.
  cbn [Vector.x Vector.y].
  replace (vx * k * (vx * k) + vy * k * (vy * k))
    with (k * k * (vx * vx + vy * vy)) by ring.
  rewrite sqrt_mult_alt by (apply Rle_0_sqr).
  rewrite sqrt_square by exact Hk; reflexivity.
Qed.

Lemma velocity_panning (root : GameRoot) (now dt : R) (c : Camera) :
  let faded :=
    Vector.multiplyScalar (touchPostMoveVelocity c) velocityFade in
  touchPostMoveVelocity (internalUpdatePanning root now dt c)
  = if negb (currentlyMoving c) && negb (currentlyPinching c) then
      if Js.ge (Vector.length faded) velocityMax
      then Vector.multiplyScalar faded (velocityMax / Vector.length faded)
      else faded
    else faded.
Proof.
  intros faded; subst faded; unfold internalUpdatePanning.
  destruct c as [? ? moving ? ? ? pinching ? ? ? ? ? ? ? velocity].
  destruct moving, pinching; cam_simpl; try reflexivity.
  destruct (Js.ge (Vector.length (Vector.multiplyScalar velocity velocityFade))
              velocityMax); cam_simpl; [|reflexivity].
  unfold Vector.multiplyScalar, Vector.setX, Vector.setY.
  cbn [Vector.x Vector.y].
  f_equal; unfold Rdiv; ring.
Qed.

(** X8.  The inertial velocity only fades and is capped: one step of the pan
    channel leaves a velocity of length at most 0.98 times the length
    before, and, when neither a drag nor a pinch is in progress, of length
    at most 20; while a drag or a pinch is in progress the step moves
    neither the center nor the current pan. *)
Theorem inertial_velocity_bounded (root : GameRoot) (now dt : R) (c : Camera) :
  let c' := internalUpdatePanning root now dt c in
  Vector.length (touchPostMoveVelocity c')
    <= velocityFade * Vector.length (touchPostMoveVelocity c)
  /\ (currentlyMoving c = false -> currentlyPinching c = false ->
      Vector.length (touchPostMoveVelocity c') <= velocityMax)
  /\ (currentlyMoving c = true \/ currentlyPinching c = true ->
      center c' = center c /\ currentPan c' = currentPan c).
Proof.
  intros c'; subst c'.
  assert (Hfade : 0 <= velocityFade) by (unfold velocityFade; lra).
  pose proof (length_multiplyScalar (touchPostMoveVelocity c) velocityFade
                Hfade) as Hfaded.
  rewrite velocity_panning; cbv zeta.
  set (faded := Vector.multiplyScalar (touchPostMoveVelocity c) velocityFade)
    in *.
  assert (Hcap :
    Js.ge (Vector.length faded) velocityMax = true ->
    Vector.length
      (Vector.multiplyScalar faded (velocityMax / Vector.length faded))
    = velocityMax).
  { intros Hlong; apply JsFacts.ge_true in Hlong.
    unfold velocityMax in *.
    rewrite length_multiplyScalar
      by (apply Rlt_le, Rdiv_lt_0_compat; lra).
    field; lra. }
  split; [|split].
  - destruct (negb (currentlyMoving c) && negb (currentlyPinching c));
      [|lra].
    destruct (Js.ge (Vector.length faded) velocityMax) eqn:Hlong; [|lra].
    rewrite (Hcap eq_refl).
    apply JsFacts.ge_true in Hlong; lra.
  - intros -> ->; cbn [negb andb].
    destruct (Js.ge (Vector.length faded) velocityMax) eqn:Hlong.
    + rewrite (Hcap eq_refl); lra.
    + apply JsFacts.ge_false in Hlong; lra.
  - unfold internalUpdatePanning.
    intros [Hbusy | Hbusy]; cam_simpl; rewrite Hbusy;
      [|destruct (currentlyMoving c)]; cbn [negb andb]; split; reflexivity.
Qed.

(** ** The centering animation *)

Lemma distance_direction (v w : Vector.t) :
  Vector.distance v w = Vector.length (Vector.direction v w).
Proof.
  unfold Vector.distance, Vector.length, Vector.direction, Math_hypot.
  cbn [Vector.x Vector.y]; f_equal; ring.
Qed.

Lemma direction_after_move (v w : Vector.t) (f : R) :
  let movement := Vector.multiplyScalar (Vector.direction v w) f in
  Vector.direction
    (Vector.mk (Vector.x v + Vector.x movement)
               (Vector.y v + Vector.y movement)) w
  = Vector.multiplyScalar (Vector.direction v w) (1 - f).
Proof.
  unfold Vector.direction, Vector.multiplyScalar; cbn [Vector.x Vector.y].
  f_equal; ring.
Qed.

Lemma centering_fraction_le_1 (dt : R) : 0 <= 1 - Math_min 1 (dt * (8 / 1000)).
Proof. unfold Math_min; pose proof (Rmin_l 1 (dt * (8 / 1000))); lra. Qed.

(** What one step of the centering channel does to a pending animation. *)
Lemma centering_result (now dt : R) (c : Camera) (dc : Vector.t) :
  desiredCenter c = Some dc ->
  currentlyMoving c = false ->
  (Vector.distance (center c) dc <= 1 / zoomLevel c ->
   internalUpdateCentering now dt c = set_desiredCenter None c)
  /\ (Vector.distance (center c) dc > 1 / zoomLevel c ->
      desiredCenter (internalUpdateCentering now dt c) = Some dc
      /\ currentlyMoving (internalUpdateCentering now dt c) = false
      /\ zoomLevel (internalUpdateCentering now dt c) = zoomLevel c
      /\ Vector.direction (center (internalUpdateCentering now dt c)) dc
         = Vector.multiplyScalar (Vector.direction (center c) dc)
             (1 - Math_min 1 (dt * (8 / 1000)))).
Proof.
  intros Htarget Hfree; rewrite distance_direction.
  unfold internalUpdateCentering; rewrite Htarget, Hfree; cbn [negb]; cbv zeta.
  split; intros Hgap.
  - apply JsFacts.gt_false in Hgap; rewrite Hgap; reflexivity.
  - apply JsFacts.gt_true in Hgap; rewrite Hgap; cam_simpl.
    repeat split; try assumption.
    unfold Vector.setX, Vector.setY; cbn [Vector.x Vector.y].
    apply direction_after_move.
Qed.

(** X9.  The centering animation approaches its target along the straight
    line and never overshoots: on a camera that is not being dragged, with a
    zoom level other than 0, one step of the centering channel ends the animation, without moving, when
    the center is within 1 / zoomLevel of the target; otherwise it keeps the
    target, scales the remaining offset to the target by 1 - min(1, 0.008 dt),
    a factor that is never negative, so the remaining distance is that
    fraction of the one before and, for dt >= 0, not larger. *)
Theorem centering_step_contracts (now dt : R) (c : Camera) (dc : Vector.t) :
  desiredCenter c = Some dc ->
  currentlyMoving c = false ->
  zoomLevel c <> 0 ->
  let c' := internalUpdateCentering now dt c in
  let fraction := 1 - Math_min 1 (dt * (8 / 1000)) in
  (Vector.distance (center c) dc <= 1 / zoomLevel c ->
   desiredCenter c' = None /\ center c' = center c)
  /\ (Vector.distance (center c) dc > 1 / zoomLevel c ->
      desiredCenter c' = Some dc
      /\ Vector.direction (center c') dc
         = Vector.multiplyScalar (Vector.direction (center c) dc) fraction
      /\ 0 <= fraction
      /\ Vector.distance (center c') dc
         = fraction * Vector.distance (center c) dc
      /\ (0 <= dt ->
          Vector.distance (center c') dc <= Vector.distance (center c) dc)).
Proof.
  intros Htarget Hfree Hzoom c' fraction; subst c' fraction.
  destruct (centering_result now dt c dc Htarget Hfree) as (Hnear & Hfar).
  pose proof (centering_fraction_le_1 dt) as Hfraction.
  split; intros Hgap.
  - rewrite (Hnear Hgap); split; reflexivity.
  - destruct (Hfar Hgap) as (Hkept & _ & _ & Hdir).
    split; [exact Hkept|]. split; [exact Hdir|]. split; [exact Hfraction|].
    assert (Hdist :
      Vector.distance (center (internalUpdateCentering now dt c)) dc
      = (1 - Math_min 1 (dt * (8 / 1000))) * Vector.distance (center c) dc).
    { rewrite !distance_direction, Hdir.
      apply length_multiplyScalar; exact Hfraction. }
    split; [exact Hdist|].
    intros Hdt; rewrite Hdist.
    pose proof (VectorFacts.distance_nonneg (center c) dc) as Hpos.
    assert (Hmin : 0 <= Math_min 1 (dt * (8 / 1000))).
    { unfold Math_min; apply Rmin_glb; lra. }
    nra.
Qed.

Lemma centering_step_contracts_witness :
  let c := internalUpdateCentering 0 physicsStepSizeMs Example.centering in
  desiredCenter c = Some (Vector.mk 100 0)
  /\ Vector.distance (center c) (Vector.mk 100 0)
     = (1 - Math_min 1 (physicsStepSizeMs * (8 / 1000))) * 100.
Proof.
  assert (Hfar :
    Vector.distance (center Example.centering) (Vector.mk 100 0) = 100).
  { change (center Example.centering) with (Vector.mk 0 0).
    rewrite distance_horizontal, Rabs_left; lra. }
  destruct (centering_step_contracts 0 physicsStepSizeMs Example.centering
              (Vector.mk 100 0) eq_refl eq_refl) as (_ & Hstep).
  - simpl; lra.
  - destruct Hstep as (Hkept & _ & _ & Hdist & _);
      [rewrite Hfar; simpl; lra|].
    split; [exact Hkept|]. rewrite Hdist, Hfar; reflexivity.
Defined.

Lemma centeringSteps_done (now dt : R) (steps : nat) (c : Camera) :
  desiredCenter c = None -> centeringSteps now dt steps c = c.
Proof.
  intros Hnone; unfold centeringSteps.
  induction steps as [|steps IH]; [reflexivity|].
  rewrite Nat.iter_succ_r.
  replace (internalUpdateCentering now dt c) with c; [exact IH|].
  unfold internalUpdateCentering; rewrite Hnone; reflexivity.
Qed.

Lemma centeringSteps_reach (now dt : R) (dc : Vector.t) (zoom : R)
  (steps : nat) :
  0 <= dt ->
  forall c : Camera,
    desiredCenter c = Some dc ->
    currentlyMoving c = false ->
    zoomLevel c = zoom ->
    (1 - Math_min 1 (dt * (8 / 1000))) ^ steps
      * Vector.distance (center c) dc <= 1 / zoom ->
    desiredCenter (centeringSteps now dt (S steps) c) = None
    /\ Vector.distance (center (centeringSteps now dt (S steps) c)) dc
       <= 1 / zoom
    /\ zoomLevel (centeringSteps now dt (S steps) c) = zoom.
Proof.
  intros Hdt.
  induction steps as [|steps IH]; intros c Htarget Hfree Hzoom Hpow;
    destruct (centering_result now dt c dc Htarget Hfree) as (Hnear & Hfar);
    unfold centeringSteps in *; rewrite Nat.iter_succ_r.
  - rewrite pow_O, Rmult_1_l, <- Hzoom in Hpow.
    rewrite (Hnear Hpow); cbn [Nat.iter]; cam_simpl.
    rewrite Hzoom in Hpow; repeat split; assumption.
  - destruct (Rle_dec (Vector.distance (center c) dc) (1 / zoomLevel c))
      as [Hgap|Hgap].
    + rewrite (Hnear Hgap).
      pose proof (centeringSteps_done now dt (S steps)
                    (set_desiredCenter None c) eq_refl) as Hdone.
      unfold centeringSteps in Hdone; rewrite Hdone; cam_simpl.
      rewrite Hzoom in Hgap; repeat split; assumption.
    + apply Rnot_le_gt in Hgap.
      destruct (Hfar Hgap) as (Hkept & Hfree' & Hzoom' & Hdir).
      apply IH; try congruence.
      rewrite !distance_direction, Hdir.
      rewrite length_multiplyScalar by apply centering_fraction_le_1.
      rewrite <- distance_direction.
      rewrite <- tech_pow_Rmult in Hpow; lra.
Qed.

(** X10.  The centering animation ends: on a camera with a positive zoom
    level that is not being dragged, with a positive step time, some number
    of steps of the centering channel brings [desiredCenter] to null, with
    the center then within 1 / zoomLevel of the target and the zoom level
    untouched. *)
Theorem centering_animation_ends (now dt : R) (c : Camera) (dc : Vector.t) :
  desiredCenter c = Some dc ->
  currentlyMoving c = false ->
  0 < zoomLevel c ->
  0 < dt ->
  exists steps : nat,
    desiredCenter (centeringSteps now dt steps c) = None
    /\ Vector.distance (center (centeringSteps now dt steps c)) dc
       <= 1 / zoomLevel c
    /\ zoomLevel (centeringSteps now dt steps c) = zoomLevel c.
Proof.
  intros Htarget Hfree Hzoom Hdt.
  set (fraction := 1 - Math_min 1 (dt * (8 / 1000))).
  assert (Hlow : 0 <= fraction) by apply centering_fraction_le_1.
  assert (Hhigh : fraction < 1).
  { unfold fraction, Math_min, Rmin.
    destruct (Rle_dec 1 (dt * (8 / 1000))); lra. }
  set (far := Vector.distance (center c) dc).
  assert (Hfar : 0 <= far) by apply VectorFacts.distance_nonneg.
  assert (Htolerance : 0 < 1 / zoomLevel c)
    by (apply Rdiv_lt_0_compat; lra).
  set (bound := 1 / zoomLevel c / (far + 1)).
  assert (Hbound : bound * (far + 1) = 1 / zoomLevel c)
    by (unfold bound; field; lra).
  assert (Hpos : 0 < bound)
    by (unfold bound; apply Rdiv_lt_0_compat; lra).
  destruct (pow_lt_1_zero fraction) with (y := bound) as [steps Hsteps];
    [rewrite Rabs_right; lra | exact Hpos |].
  specialize (Hsteps steps (Nat.le_refl steps)).
  assert (Hpow : 0 <= fraction ^ steps) by (apply pow_le; exact Hlow).
  rewrite Rabs_right in Hsteps by lra.
  exists (S steps).
  apply (centeringSteps_reach now dt dc (zoomLevel c) steps);
    try assumption; try reflexivity; [lra|].
  fold fraction far.
  assert (fraction ^ steps * (far + 1) <= bound * (far + 1))
    by (apply Rmult_le_compat_r; lra).
  lra.
Qed.

Lemma centering_animation_ends_witness :
  exists steps : nat,
    desiredCenter
      (centeringSteps 0 physicsStepSizeMs steps Example.centering) = None
    /\ Vector.distance
         (center (centeringSteps 0 physicsStepSizeMs steps Example.centering))
         (Vector.mk 100 0) <= 1 / 1.
Proof.
  destruct (centering_animation_ends 0 physicsStepSizeMs Example.centering
              (Vector.mk 100 0) eq_refl eq_refl)
    as (steps & Hdone & Hnear & _).
  - simpl; lra.
  - apply physicsStepSizeMs_pos.
  - exists steps; split; [exact Hdone | exact Hnear].
Defined.

(** ** The keyboard force *)

Lemma set_center_twice (a b : Vector.t) (c : Camera) :
  set_center a (set_center b c) = set_center a c.
Proof. reflexivity. Qed.

Lemma set_center_same (c : Camera) (v : Vector.t) :
  v = center c -> set_center v c = c.
Proof. intros ->; destruct c; reflexivity. Qed.

Lemma keyboardForce_center (root : GameRoot) (now dt : R) (c : Camera) :
  currentlyMoving c = false ->
  desiredCenter c = None ->
  internalUpdateKeyboardForce root now dt c
  = set_center
      (Vector.add (center c)
         (Vector.multiplyScalar (heldKeyForce root)
            (((Math_min (gameWidth root) (gameHeight root) / 2048) * dt)
             / zoomLevel c))) c.
Proof.
  intros Hfree Hnone; unfold internalUpdateKeyboardForce, heldKeyForce.
  rewrite Hfree, Hnone; cbn [negb andb Js.notNull]; cbv zeta.
  rewrite set_center_twice; cam_simpl.
  apply (f_equal (fun v => set_center v c)).
  destruct (center c) as [cx cy].
  unfold Vector.add, Vector.multiplyScalar, Vector.setX, Vector.setY.
  cbn [Vector.x Vector.y].
  destruct (mapMoveUp root), (mapMoveDown root), (mapMoveLeft root),
    (mapMoveRight root); apply f_equal2; ring.
Qed.

Lemma keyboardForce_balanced (root : GameRoot) (now dt : R) (c : Camera) :
  currentlyMoving c = false ->
  desiredCenter c = None ->
  keysBalanced root ->
  internalUpdateKeyboardForce root now dt c = c.
Proof.
  intros Hfree Hnone (Hvertical & Hhorizontal).
  rewrite (keyboardForce_center root now dt c Hfree Hnone).
  apply set_center_same.
  unfold heldKeyForce; rewrite Hvertical, Hhorizontal.
  destruct (center c) as [cx cy].
  unfold Vector.add, Vector.multiplyScalar; cbn [Vector.x Vector.y].
  apply f_equal2; ring.
Qed.

(** X11.  Keyboard panning: the keyboard channel does nothing while a drag
    is in progress or a centering animation is pending; otherwise it leaves
    the zoom level, and with a zoom level other than 0 it changes nothing at
    all when opposite keys are balanced, and it shifts the screen image of
    every world point by min(width, height) / 2048 * dt per held direction,
    whatever that zoom level is. *)
Theorem keyboard_force_pans_screen (root : GameRoot) (now dt : R) (c : Camera) :
  let c' := internalUpdateKeyboardForce root now dt c in
  (currentlyMoving c = true \/ desiredCenter c <> None -> c' = c)
  /\ (currentlyMoving c = false -> desiredCenter c = None ->
      zoomLevel c' = zoomLevel c
      /\ (zoomLevel c <> 0 -> keysBalanced root -> c' = c)
      /\ (zoomLevel c <> 0 ->
          forall p : Vector.t,
            worldToScreen root c' p
            = Vector.sub (worldToScreen root c p)
                (Vector.multiplyScalar (heldKeyForce root)
                   (Math_min (gameWidth root) (gameHeight root) / 2048 * dt)))).
Proof.
  intros c'; subst c'; split.
  - unfold internalUpdateKeyboardForce.
    intros [Hbusy | Hbusy]; [rewrite Hbusy; reflexivity|].
    destruct (desiredCenter c); [|congruence].
    cbn [Js.notNull negb]; rewrite andb_false_r; reflexivity.
  - intros Hfree Hnone; rewrite (keyboardForce_center root now dt c Hfree Hnone).
    split; [reflexivity|]. split.
    + intros Hzoom Hbalanced.
      rewrite <- (keyboardForce_center root now dt c Hfree Hnone).
      apply keyboardForce_balanced; assumption.
    + intros Hzoom [px py]; unfold worldToScreen; cam_simpl.
      destruct (center c) as [cx cy], (heldKeyForce root) as [kx ky].
      unfold Vector.addScalars, Vector.multiplyScalar, Vector.sub, Vector.add.
      cbn [Vector.x Vector.y].
      apply f_equal2; field; exact Hzoom.
Qed.

(** ** A camera at rest *)

Section AtRest.

Variable root : GameRoot.
Hypothesis balanced : keysBalanced root.

Lemma length_zero_scaled (k : R) :
  Vector.length (Vector.multiplyScalar (Vector.mk 0 0) k) = 0.
Proof.
  unfold Vector.length, Vector.multiplyScalar, Math_hypot.
  cbn [Vector.x Vector.y].
  replace (0 * k * (0 * k) + 0 * k * (0 * k)) with 0 by ring.
  apply sqrt_0.
Qed.

Lemma panning_at_rest (now dt : R) (c : Camera) :
  cameraAtRest c ->
  cameraAtRest (internalUpdatePanning root now dt c)
  /\ center (internalUpdatePanning root now dt c) = center c.
Proof.
  unfold cameraAtRest.
  destruct c as [zoom [cx cy] moving ? ? ? pinching ? ? ? pan wish target ?
                   velocity].
  cbn [touchPostMoveVelocity currentPan desiredPan desiredCenter].
  intros (-> & -> & -> & ->).
  assert (Hshort :
    Js.ge (Vector.length (Vector.multiplyScalar (Vector.mk 0 0) velocityFade))
      velocityMax = false).
  { apply JsFacts.ge_false; rewrite length_zero_scaled.
    unfold velocityMax; lra. }
  unfold internalUpdatePanning; cam_simpl.
  destruct moving, pinching; cam_simpl; rewrite ?Hshort; cam_simpl;
    unfold mixVector, Vector.add, Vector.multiplyScalar;
    cbn [Vector.x Vector.y];
    (repeat split; try reflexivity; f_equal; ring).
Qed.

Lemma zooming_at_rest (now dt : R) (c : Camera) :
  cameraAtRest c ->
  cameraAtRest (internalUpdateZooming now dt c)
  /\ center (internalUpdateZooming now dt c) = center c.
Proof.
  unfold cameraAtRest, internalUpdateZooming.
  destruct (desiredZoom c); [|tauto].
  destruct (negb (currentlyPinching c)); [|tauto].
  cbv zeta; destruct (Js.gt _ _); cam_simpl; tauto.
Qed.

Lemma keyboardForce_at_rest (now dt : R) (c : Camera) :
  cameraAtRest c ->
  internalUpdateKeyboardForce root now dt c = c.
Proof.
  intros (_ & _ & _ & Hnone).
  destruct (currentlyMoving c) eqn:Hmoving.
  - unfold internalUpdateKeyboardForce; rewrite Hmoving; reflexivity.
  - apply keyboardForce_balanced; assumption.
Qed.

End AtRest.

Section AtRestUpdate.

Variable root : GameRoot.
Hypothesis balanced : keysBalanced root.

Lemma clamp_at_rest (c : Camera) :
  cameraAtRest c -> cameraAtRest (clampZoomLevel root c).
Proof.
  unfold cameraAtRest, clampZoomLevel.
  destruct (zoomLimitsDisabled root); [tauto|]; cam_simpl.
  destruct (desiredZoom c) as [dz|]; [destruct (Js.truthy dz)|];
    cam_simpl; tauto.
Qed.

Lemma body_at_rest (now : R) (c : Camera) :
  cameraAtRest c ->
  cameraAtRest (snd (updateLoopBody root now c))
  /\ center (snd (updateLoopBody root now c)) = center c.
Proof.
  intros Hrest; unfold updateLoopBody; cbv zeta; cbn [snd].
  set (now' := now + physicsStepSizeMs).
  set (c0 := set_cameraUpdateTimeBucket _ c).
  assert (Hrest0 : cameraAtRest c0) by exact Hrest.
  destruct (panning_at_rest root now' physicsStepSizeMs c0 Hrest0)
    as (Hrest1 & Hcenter1).
  destruct (zooming_at_rest now' physicsStepSizeMs _ Hrest1)
    as (Hrest2 & Hcenter2).
  set (c2 := internalUpdateZooming now' physicsStepSizeMs
               (internalUpdatePanning root now' physicsStepSizeMs c0)) in *.
  assert (Hcentering : internalUpdateCentering now' physicsStepSizeMs c2 = c2).
  { destruct Hrest2 as (_ & _ & _ & Hnone).
    unfold internalUpdateCentering; rewrite Hnone; reflexivity. }
  rewrite Hcentering.
  assert (Hrest3 :
    cameraAtRest (internalUpdateShake now' physicsStepSizeMs c2))
    by exact Hrest2.
  rewrite (keyboardForce_at_rest root balanced now' physicsStepSizeMs _ Hrest3).
  split; [exact Hrest3|].
  change (center (internalUpdateShake now' physicsStepSizeMs c2))
    with (center c2).
  rewrite Hcenter2, Hcenter1; reflexivity.
Qed.

Lemma loop_at_rest (fuel : nat) :
  forall (now : R) (c : Camera),
    cameraAtRest c ->
    cameraAtRest (updateLoop root fuel now c)
    /\ center (updateLoop root fuel now c) = center c.
Proof.
  induction fuel as [|fuel IH]; intros now c Hrest; [split; trivial|].
  rewrite updateLoop_S.
  destruct (Js.gt (cameraUpdateTimeBucket c) physicsStepSizeMs);
    [|split; trivial].
  destruct (body_at_rest now c Hrest) as (Hrest' & Hcenter').
  destruct (IH (fst (updateLoopBody root now c)) _ Hrest') as (Hr & Hc).
  split; [exact Hr | congruence].
Qed.

Lemma update_at_rest (systemNow dt : R) (c : Camera) :
  cameraAtRest c ->
  cameraAtRest (update root systemNow dt c)
  /\ center (update root systemNow dt c) = center c.
Proof.
  intros Hrest; unfold update; cbv zeta.
  set (c1 := set_cameraUpdateTimeBucket _ c).
  assert (Hrest1 : cameraAtRest c1) by exact Hrest.
  destruct (loop_at_rest (updateLoopBound c1)
              (systemNow - 3 * physicsStepSizeMs) c1 Hrest1) as (Hr & Hc).
  split; [apply clamp_at_rest; exact Hr|].
  rewrite center_clampZoomLevel, Hc; reflexivity.
Qed.

Lemma updates_at_rest (calls : list (R * R)) :
  forall c : Camera,
    cameraAtRest c ->
    cameraAtRest (updates root calls c)
    /\ center (updates root calls c) = center c.
Proof.
  induction calls as [|call calls IH]; intros c Hrest; [split; trivial|].
  destruct (update_at_rest (fst call) (snd call) c Hrest) as (Hr & Hc).
  destruct (IH _ Hr) as (Hr' & Hc').
  change (updates root (call :: calls) c)
    with (updates root calls (update root (fst call) (snd call) c)).
  split; [exact Hr' | congruence].
Qed.

End AtRestUpdate.

Lemma clearAnimations_at_rest (c : Camera) :
  cameraAtRest (clearAnimations c) /\ center (clearAnimations c) = center c.
Proof.
  unfold cameraAtRest, clearAnimations; cam_simpl.
  unfold Vector.setY, Vector.setX; cbn [Vector.x Vector.y].
  repeat split; reflexivity.
Qed.

(** *** The zoom level stays above zero *)

Lemma zoomPositive_view (c c' : Camera) :
  zoomView c = zoomView c' -> zoomPositive c -> zoomPositive c'.
Proof.
  intros Hview; destruct (zoomView_eq c c' Hview) as (Hzoom & Htarget & _).
  unfold zoomPositive; rewrite Hzoom, Htarget; trivial.
Qed.

Lemma zoomPositive_zooming (now dt : R) (c : Camera) :
  zoomPositive c -> zoomPositive (internalUpdateZooming now dt c).
Proof.
  intros (Hzoom & Htarget); unfold internalUpdateZooming.
  destruct (desiredZoom c) as [dz|] eqn:Hdz; [|split; [exact Hzoom|]].
  2:{ intros dz' Hsome; rewrite Hdz in Hsome; discriminate Hsome. }
  specialize (Htarget dz eq_refl).
  destruct (negb (currentlyPinching c)).
  2:{ split; [exact Hzoom|].
      intros dz' Hsome; rewrite Hdz in Hsome.
      injection Hsome as <-; exact Htarget. }
  cbv zeta; destruct (Js.gt (Math_abs (zoomLevel c - dz)) (1 / 10000)).
  - unfold zoomPositive; cam_simpl; rewrite Hdz; split.
    + destruct (Js.gt (zoomLevel c - dz) 0); nra.
    + intros dz' Hsome; injection Hsome as <-; exact Htarget.
  - unfold zoomPositive; cam_simpl; split; [exact Hzoom|].
    intros dz' Hsome; discriminate Hsome.
Qed.

Section ZoomPositive.

Variable root : GameRoot.
Hypothesis floor : zoomLimitsDisabled root = true \/ 0 < getMinimumZoom root.

Lemma clamp_above_minimum (v : R) :
  getMinimumZoom root <= clamp v (getMinimumZoom root) (getMaximumZoom root).
Proof. unfold clamp, Math_max; apply Rmax_l. Qed.

Lemma zoomPositive_clampZoomLevel (c : Camera) :
  zoomPositive c -> zoomPositive (clampZoomLevel root c).
Proof.
  intros (Hzoom & Htarget); unfold clampZoomLevel.
  destruct (zoomLimitsDisabled root) eqn:Hgate; [split; assumption|].
  destruct floor as [Hoff | Hfloor]; [discriminate Hoff|].
  cam_simpl.
  destruct (desiredZoom c) as [dz|] eqn:Hdz;
    [destruct (Js.truthy dz)|]; unfold zoomPositive; cam_simpl;
    rewrite ?Hdz.
  - split.
    + pose proof (clamp_above_minimum (zoomLevel c)); lra.
    + intros dz' Hsome; injection Hsome as <-.
      pose proof (clamp_above_minimum dz); lra.
  - split.
    + pose proof (clamp_above_minimum (zoomLevel c)); lra.
    + intros dz' Hsome; injection Hsome as <-; apply Htarget; reflexivity.
  - split.
    + pose proof (clamp_above_minimum (zoomLevel c)); lra.
    + intros dz' Hsome; discriminate Hsome.
Qed.

Lemma zoomPositive_loop (fuel : nat) :
  forall (now : R) (c : Camera),
    zoomPositive c -> zoomPositive (updateLoop root fuel now c).
Proof.
  induction fuel as [|fuel IH]; intros now c Hpositive; [exact Hpositive|].
  rewrite updateLoop_S.
  destruct (Js.gt (cameraUpdateTimeBucket c) physicsStepSizeMs);
    [|exact Hpositive].
  apply IH.
  apply (zoomPositive_view (internalUpdateZooming now 0 c)).
  - symmetry; apply updateLoopBody_zoomView.
  - apply zoomPositive_zooming; exact Hpositive.
Qed.

Lemma zoomPositive_updates (calls : list (R * R)) :
  forall c : Camera,
    zoomPositive c -> zoomPositive (updates root calls c).
Proof.
  induction calls as [|call calls IH]; intros c Hpositive; [exact Hpositive|].
  apply IH; unfold update; cbv zeta.
  apply zoomPositive_clampZoomLevel, zoomPositive_loop; exact Hpositive.
Qed.

End ZoomPositive.

(** X12.  A camera at rest stays at rest.  [clearAnimations] leaves the
    camera, without moving it, with no inertial velocity, no pan, no
    centering animation and no zoom target.  With the zoom limits off or a
    minimum zoom above 0, and opposite movement keys balanced: from a camera
    at rest whose zoom level and zoom target (if any) are above 0, no
    sequence of [update] calls moves the center, whatever the frame times
    and whether or not a zoom animation runs, and the zoom level and the
    zoom target stay above 0. *)
Theorem camera_at_rest_stays (root : GameRoot) :
  keysBalanced root ->
  zoomLimitsDisabled root = true \/ 0 < getMinimumZoom root ->
  (forall c : Camera,
      cameraAtRest (clearAnimations c)
      /\ center (clearAnimations c) = center c
      /\ zoomLevel (clearAnimations c) = zoomLevel c
      /\ desiredZoom (clearAnimations c) = None)
  /\ (forall (calls : list (R * R)) (c : Camera),
         cameraAtRest c ->
         zoomPositive c ->
         cameraAtRest (updates root calls c)
         /\ center (updates root calls c) = center c
         /\ zoomPositive (updates root calls c)).
Proof.
  intros Hbalanced Hfloor; split.
  - intros c; destruct (clearAnimations_at_rest c) as (Hrest & Hcenter).
    split; [exact Hrest|]. split; [exact Hcenter|]. split; reflexivity.
  - intros calls c Hrest Hpositive.
    destruct (updates_at_rest root Hbalanced calls c Hrest)
      as (Hrest' & Hcenter).
    split; [exact Hrest'|]. split; [exact Hcenter|].
    apply zoomPositive_updates; assumption.
Qed.

Lemma camera_at_rest_stays_witness :
  center
    (updates Example.root [(0, 16); (16, 33)]
       (clearAnimations Example.dragging))
  = Vector.mk 0 0.
Proof.
  destruct (camera_at_rest_stays Example.root) as (Hclear & Hstay).
  - split; reflexivity.
  - right; simpl; lra.
  - destruct (Hclear Example.dragging) as (Hrest & _ & _ & _).
    destruct (Hstay [(0, 16); (16, 33)] (clearAnimations Example.dragging))
      as (_ & Hcenter & _); [exact Hrest | |].
    + split; [simpl; lra|].
      intros dz Hsome; discriminate Hsome.
    + rewrite Hcenter; reflexivity.
Defined.

(** ** How many steps one [update] runs *)

Section StepCount.

Variable root : GameRoot.

Lemma shake_panning (now dt : R) (c : Camera) :
  currentShake (internalUpdatePanning root now dt c) = currentShake c.
Proof.
  unfold internalUpdatePanning; destruct c; simpl; channel_cases.
Qed.

Lemma shake_after_zooming (now dt : R) (c : Camera) :
  currentShake (internalUpdateZooming now dt c) = currentShake c.
Proof.
  unfold internalUpdateZooming; destruct c; simpl; channel_cases.
Qed.

Lemma shake_after_centering (now dt : R) (c : Camera) :
  currentShake (internalUpdateCentering now dt c) = currentShake c.
Proof.
  unfold internalUpdateCentering; destruct c; simpl; channel_cases.
Qed.

Lemma shake_keyboardForce (now dt : R) (c : Camera) :
  currentShake (internalUpdateKeyboardForce root now dt c) = currentShake c.
Proof.
  unfold internalUpdateKeyboardForce; destruct c; simpl.
  match goal with |- context [if ?b then _ else _] => destruct b end;
    reflexivity.
Qed.

Lemma shake_clampZoomLevel (c : Camera) :
  currentShake (clampZoomLevel root c) = currentShake c.
Proof.
  unfold clampZoomLevel; destruct c; simpl; channel_cases.
Qed.

Lemma shake_updateLoopBody (now : R) (c : Camera) :
  currentShake (snd (updateLoopBody root now c))
  = Vector.multiplyScalar (currentShake c) (92 / 100).
Proof.
  unfold updateLoopBody; cbv zeta; cbn [snd].
  rewrite shake_keyboardForce.
  unfold internalUpdateShake at 1; cbn [currentShake set_currentShake].
  rewrite shake_after_centering, shake_after_zooming, shake_panning.
  reflexivity.
Qed.

Lemma multiplyScalar_twice (v : Vector.t) (a b : R) :
  Vector.multiplyScalar (Vector.multiplyScalar v a) b
  = Vector.multiplyScalar v (a * b).
Proof.
  unfold Vector.multiplyScalar; cbn [Vector.x Vector.y].
  apply f_equal2; ring.
Qed.

Lemma multiplyScalar_one (v : Vector.t) : Vector.multiplyScalar v 1 = v.
Proof.
  destruct v as [vx vy]; unfold Vector.multiplyScalar; cbn [Vector.x Vector.y].
  apply f_equal2; ring.
Qed.

(** The loop runs some number [ran] of iterations; the bucket and the shake
    tell how many. *)
Lemma updateLoop_count (fuel : nat) :
  forall (now : R) (c : Camera),
    exists ran : nat,
      (ran <= fuel)%nat
      /\ cameraUpdateTimeBucket (updateLoop root fuel now c)
         = cameraUpdateTimeBucket c - INR ran * physicsStepSizeMs
      /\ currentShake (updateLoop root fuel now c)
         = Vector.multiplyScalar (currentShake c) ((92 / 100) ^ ran)
      /\ ((0 < ran)%nat ->
          cameraUpdateTimeBucket c > INR ran * physicsStepSizeMs).
Proof.
  induction fuel as [|fuel IH]; intros now c.
  - exists 0%nat; cbn [updateLoop]; rewrite pow_O, multiplyScalar_one.
    repeat split; [lia | simpl; lra | lia].
  - rewrite updateLoop_S.
    destruct (Js.gt (cameraUpdateTimeBucket c) physicsStepSizeMs) eqn:Hgo.
    + destruct (IH (fst (updateLoopBody root now c))
                  (snd (updateLoopBody root now c)))
        as (ran & Hle & Hbucket & Hshake & Hran).
      rewrite updateLoopBody_bucket in Hbucket, Hran.
      rewrite shake_updateLoopBody, multiplyScalar_twice in Hshake.
      apply JsFacts.gt_true in Hgo.
      exists (S ran); rewrite S_INR.
      split; [lia|]. split; [rewrite Hbucket; ring|].
      split; [rewrite Hshake, <- tech_pow_Rmult; reflexivity|].
      intros _; destruct ran as [|ran].
      * simpl; lra.
      * specialize (Hran (Nat.lt_0_succ ran)); lra.
    + exists 0%nat; rewrite pow_O, multiplyScalar_one.
      repeat split; [lia | simpl; lra | lia].
Qed.

End StepCount.

(** X13.  One [update] runs a bounded number of integration steps and keeps
    the books: from a bucket of at most one step size, for every [dt] the
    call runs some number [ran] <= 8 of steps, leaves the bucket at its old
    value plus min(dt, 33) minus [ran] step sizes, which is again at most one
    step size and not negative when the old value and [dt] are not, and
    leaves the shake at 0.92 to the power [ran] times its old value. *)
Theorem update_runs_few_steps (root : GameRoot) (systemNow dt : R)
  (c : Camera) :
  cameraUpdateTimeBucket c <= physicsStepSizeMs ->
  exists ran : nat,
    (ran <= 8)%nat
    /\ cameraUpdateTimeBucket (update root systemNow dt c)
       = cameraUpdateTimeBucket c + Math_min dt 33
         - INR ran * physicsStepSizeMs
    /\ cameraUpdateTimeBucket (update root systemNow dt c) <= physicsStepSizeMs
    /\ (0 <= cameraUpdateTimeBucket c -> 0 <= dt ->
        0 <= cameraUpdateTimeBucket (update root systemNow dt c))
    /\ currentShake (update root systemNow dt c)
       = Vector.multiplyScalar (currentShake c) ((92 / 100) ^ ran).
Proof.
  intros Hbucket.
  pose proof (updateLoopBound_enough
                (set_cameraUpdateTimeBucket
                   (cameraUpdateTimeBucket c + Math_min dt 33) c)) as Henough.
  unfold update; cbv zeta.
  set (c1 := set_cameraUpdateTimeBucket
               (cameraUpdateTimeBucket c + Math_min dt 33) c) in *.
  destruct (updateLoop_count root (updateLoopBound c1)
              (systemNow - 3 * physicsStepSizeMs) c1)
    as (ran & _ & Hafter & Hshake & Hran).
  change (cameraUpdateTimeBucket c1)
    with (cameraUpdateTimeBucket c + Math_min dt 33) in Hafter, Hran.
  change (currentShake c1) with (currentShake c) in Hshake.
  assert (Hclamp : Math_min dt 33 <= 33) by (unfold Math_min; apply Rmin_r).
  pose proof physicsStepSizeMs_value as Hstep.
  exists ran.
  rewrite clampZoomLevel_bucket, shake_clampZoomLevel.
  split; [|split; [exact Hafter|split; [|split; [|exact Hshake]]]].
  - destruct ran as [|ran]; [lia|].
    specialize (Hran (Nat.lt_0_succ ran)).
    assert (Hlt : INR (S ran) < INR 9).
    { replace (INR 9) with 9 by (simpl; ring).
      rewrite Hstep in *.
      apply Rmult_lt_reg_r with (r := 25 / 6); lra. }
    apply INR_lt in Hlt; lia.
  - apply updateLoop_drains; exact Henough.
  - intros Hfull Hdt; apply updateLoop_bucket_nonneg.
    change (cameraUpdateTimeBucket c1)
      with (cameraUpdateTimeBucket c + Math_min dt 33).
    assert (0 <= Math_min dt 33) by (unfold Math_min; apply Rmin_glb; lra).
    lra.
Qed.

Lemma update_runs_few_steps_witness :
  exists ran : nat,
    (ran <= 8)%nat
    /\ cameraUpdateTimeBucket (update Example.root 0 100 Example.idle)
       = 0 + Math_min 100 33 - INR ran * physicsStepSizeMs.
Proof.
  destruct (update_runs_few_steps Example.root 0 100 Example.idle)
    as (ran & Hran & Hbucket & _).
  - rewrite physicsStepSizeMs_value; simpl; lra.
  - exists ran; split; [exact Hran | exact Hbucket].
Defined.

(** ** The rendering transform *)

Lemma shake_x_clampZoomLevel (root : GameRoot) (c : Camera) :
  Vector.x (currentShake (clampZoomLevel root c)) = Vector.x (currentShake c).
Proof.
  unfold clampZoomLevel; destruct c; simpl; channel_cases.
Qed.

(** X14.  The rendering transform is the world-to-screen mapping of the
    clamped camera, moved by the shake: outside the culling test, and with a
    zoom that is not 0 after the clamp, the six numbers that [transform]
    hands to the rendering context send every world point to its
    [worldToScreen] position minus ten times the horizontal shake, on both
    axes; the vertical component of the shake does not enter. *)
Theorem transform_is_worldToScreen (root : GameRoot) (c : Camera)
  (p : Vector.t) :
  G_IS_DEV root && testCulling root = false ->
  zoomLevel (clampZoomLevel root c) <> 0 ->
  fst (transform root c) = clampZoomLevel root c
  /\ applyTransform (snd (transform root c)) p
     = Vector.subScalars
         (worldToScreen root (clampZoomLevel root c) p)
         (10 * Vector.x (currentShake c))
         (10 * Vector.x (currentShake c)).
Proof.
  intros Hculling Hzoom.
  unfold transform; rewrite Hculling; cbv zeta; cbn [fst snd].
  split; [reflexivity|].
  unfold applyTransform, getViewportLeft, getViewportTop, getViewportWidth,
    getViewportHeight, worldToScreen.
  rewrite shake_x_clampZoomLevel.
  set (z := zoomLevel (clampZoomLevel root c)) in *.
  set (m := center (clampZoomLevel root c)).
  unfold Vector.subScalars, Vector.addScalars, Vector.multiplyScalar,
    Vector.sub; cbn [Vector.x Vector.y].
  apply f_equal2; field; exact Hzoom.
Qed.

Lemma transform_is_worldToScreen_witness :
  applyTransform (snd (transform Example.root Example.idle)) (Vector.mk 3 4)
  = Vector.subScalars
      (worldToScreen Example.root
         (clampZoomLevel Example.root Example.idle) (Vector.mk 3 4))
      (10 * Vector.x (currentShake Example.idle))
      (10 * Vector.x (currentShake Example.idle)).
Proof.
  apply (transform_is_worldToScreen Example.root Example.idle (Vector.mk 3 4)).
  - reflexivity.
  - unfold clampZoomLevel, zoomLimitsDisabled, Example.root, Example.idle.
    cbn [G_IS_DEV disableZoomLimits andb zoomLevel set_zoomLevel desiredZoom
         getMinimumZoom getMaximumZoom].
    unfold clamp, Math_max, Math_min, Rmax, Rmin; case_compare; lra.
Defined.

(** ** The visible rectangle *)

Lemma Math_floor_bounds (a : R) : Math_floor a <= a < Math_floor a + 1.
Proof.
  unfold Math_floor; destruct (base_Int_part a); lra.
Qed.

Lemma Math_ceil_bounds (a : R) : a <= Math_ceil a < a + 1.
Proof.
  unfold Math_ceil; destruct (base_Int_part (- a)); lra.
Qed.

(** X15.  The visible rectangle covers the screen and wastes less than one
    unit per side.  Its four sides are integers; with a positive zoom, the
    world point under any pixel of the game surface, moved by the shake
    offset of the viewport, lies between its sides; and each side is less
    than 1 away from the corresponding side of the viewport. *)
Theorem visibleRect_covers_screen (root : GameRoot) (c : Camera)
  (screen : Vector.t) :
  0 < zoomLevel c ->
  0 <= Vector.x screen <= gameWidth root ->
  0 <= Vector.y screen <= gameHeight root ->
  let rect := getVisibleRect root c in
  let offset := (Vector.x (currentShake c) * 10) / zoomLevel c in
  let world := screenToWorld root c screen in
  (exists top right bottom left : Z,
      rect = fromTRBL (IZR top) (IZR right) (IZR bottom) (IZR left))
  /\ rect_left rect <= Vector.x world + offset <= rect_right rect
  /\ rect_top rect <= Vector.y world + offset <= rect_bottom rect
  /\ getViewportLeft root c - 1 < rect_left rect
  /\ rect_right rect < getViewportRight root c + 1
  /\ getViewportTop root c - 1 < rect_top rect
  /\ rect_bottom rect < getViewportBottom root c + 1.
Proof.
  intros Hzoom Hx Hy rect offset world.
  subst rect offset world.
  unfold getVisibleRect; cbn [rect_top rect_right rect_bottom rect_left].
  pose proof (Math_floor_bounds (getViewportLeft root c)) as Hleft.
  pose proof (Math_floor_bounds (getViewportTop root c)) as Htop.
  pose proof (Math_ceil_bounds (getViewportRight root c)) as Hright.
  pose proof (Math_ceil_bounds (getViewportBottom root c)) as Hbottom.
  split.
  { exists (Int_part (getViewportTop root c)),
      (- Int_part (- getViewportRight root c))%Z,
      (- Int_part (- getViewportBottom root c))%Z,
      (Int_part (getViewportLeft root c)).
    unfold Math_floor, Math_ceil; rewrite !opp_IZR; reflexivity. }
  assert (Hwx : getViewportLeft root c
                <= Vector.x (screenToWorld root c screen)
                   + Vector.x (currentShake c) * 10 / zoomLevel c
                <= getViewportRight root c).
  { unfold getViewportLeft, getViewportRight, getViewportWidth, screenToWorld.
    unfold Vector.add, Vector.divideScalar, Vector.subScalars;
      cbn [Vector.x Vector.y].
    set (shake := Vector.x (currentShake c) * 10 / zoomLevel c).
    assert (Hlow : - (gameWidth root / zoomLevel c / 2)
                   <= (Vector.x screen - gameWidth root / 2) / zoomLevel c).
    { replace (- (gameWidth root / zoomLevel c / 2))
        with ((- (gameWidth root / 2)) / zoomLevel c) by (field; lra).
      apply Rmult_le_compat_r; [left; apply Rinv_0_lt_compat; exact Hzoom|].
      lra. }
    assert (Hhigh : (Vector.x screen - gameWidth root / 2) / zoomLevel c
                    <= gameWidth root / zoomLevel c / 2).
    { replace (gameWidth root / zoomLevel c / 2)
        with ((gameWidth root / 2) / zoomLevel c) by (field; lra).
      apply Rmult_le_compat_r; [left; apply Rinv_0_lt_compat; exact Hzoom|].
      lra. }
    lra. }
  assert (Hwy : getViewportTop root c
                <= Vector.y (screenToWorld root c screen)
                   + Vector.x (currentShake c) * 10 / zoomLevel c
                <= getViewportBottom root c).
  { unfold getViewportTop, getViewportBottom, getViewportHeight, screenToWorld.
    unfold Vector.add, Vector.divideScalar, Vector.subScalars;
      cbn [Vector.x Vector.y].
    set (shake := Vector.x (currentShake c) * 10 / zoomLevel c).
    assert (Hlow : - (gameHeight root / zoomLevel c / 2)
                   <= (Vector.y screen - gameHeight root / 2) / zoomLevel c).
    { replace (- (gameHeight root / zoomLevel c / 2))
        with ((- (gameHeight root / 2)) / zoomLevel c) by (field; lra).
      apply Rmult_le_compat_r; [left; apply Rinv_0_lt_compat; exact Hzoom|].
      lra. }
    assert (Hhigh : (Vector.y screen - gameHeight root / 2) / zoomLevel c
                    <= gameHeight root / zoomLevel c / 2).
    { replace (gameHeight root / zoomLevel c / 2)
        with ((gameHeight root / 2) / zoomLevel c) by (field; lra).
      apply Rmult_le_compat_r; [left; apply Rinv_0_lt_compat; exact Hzoom|].
      lra. }
    lra. }
  repeat split; lra.
Qed.

Lemma visibleRect_covers_screen_witness :
  rect_left (getVisibleRect Example.root Example.idle)
  <= Vector.x (screenToWorld Example.root Example.idle (Vector.mk 100 50))
     + (Vector.x (currentShake Example.idle) * 10) / zoomLevel Example.idle
  <= rect_right (getVisibleRect Example.root Example.idle).
Proof.
  apply (visibleRect_covers_screen Example.root Example.idle
           (Vector.mk 100 50)).
  - simpl; lra.
  - simpl; lra.
  - simpl; lra.
Defined.

(** ** Zoom levels snapped to quarter powers of two *)

Lemma ln_2_pos : 0 < ln 2.
Proof.
  rewrite <- ln_1; apply ln_increasing; lra.
Qed.

Lemma Math_round_bounds (a : R) : a - 1 / 2 < Math_round a <= a + 1 / 2.
Proof.
  unfold Math_round; destruct (base_Int_part (a + / 2)); lra.
Qed.

Lemma Math_round_integer (k : Z) : Math_round (IZR k) = IZR k.
Proof.
  unfold Math_round; f_equal; symmetry; apply Int_part_spec; lra.
Qed.

Lemma Math_log2_pow (e : R) : Math_log2 (Math_pow 2 e) = e.
Proof.
  unfold Math_log2, Math_pow, Rpower; rewrite ln_exp.
  field; pose proof ln_2_pos; lra.
Qed.

(** [roundToPow] returns 2 to an integer multiple of 1/n, the multiple
    nearest to the logarithm of its argument. *)
Lemma roundToPow_exponent (v n : R) :
  exists k : Z,
    roundToPow v n = Math_pow 2 (IZR k / n)
    /\ Math_log2 v * n - 1 / 2 < IZR k <= Math_log2 v * n + 1 / 2.
Proof.
  exists (Int_part (Math_log2 v * n + / 2)); split.
  - reflexivity.
  - exact (Math_round_bounds (Math_log2 v * n)).
Qed.

Lemma roundToPow_pos (v n : R) : 0 < roundToPow v n.
Proof.
  unfold roundToPow, Math_pow, Rpower; apply exp_pos.
Qed.

Lemma ln_le_inv (a b : R) : 0 < a -> 0 < b -> ln a <= ln b -> a <= b.
Proof.
  intros Ha Hb [Hlt|Heq].
  - left; apply ln_lt_inv; assumption.
  - right; apply ln_inv; assumption.
Qed.

Lemma pow_8_pos (a : R) : 0 < a -> 0 < a ^ 8.
Proof.
  intros Ha; apply pow_lt; exact Ha.
Qed.

(** The snapped value is within a factor of the eighth root of 2 of a
    positive argument. *)
Lemma roundToPow_ratio (v : R) :
  0 < v ->
  roundToPow v 4 ^ 8 <= 2 * v ^ 8 /\ v ^ 8 < 2 * roundToPow v 4 ^ 8.
Proof.
  intros Hv.
  destruct (roundToPow_exponent v 4) as (k & Hpow & Hlow & Hhigh).
  pose proof (roundToPow_pos v 4) as Hpos.
  pose proof ln_2_pos as Hln2.
  assert (Hln : ln (roundToPow v 4) = IZR k / 4 * ln 2).
  { rewrite Hpow; unfold Math_pow, Rpower; apply ln_exp. }
  assert (Hlog : Math_log2 v * ln 2 = ln v).
  { unfold Math_log2; field; lra. }
  split.
  - apply ln_le_inv.
    + apply pow_8_pos; exact Hpos.
    + apply Rmult_lt_0_compat; [lra | apply pow_8_pos; exact Hv].
    + rewrite ln_mult by (try apply pow_8_pos; lra).
      rewrite !ln_pow by assumption.
      rewrite Hln, <- Hlog.
      replace (INR 8) with 8 by (simpl; ring).
      assert (IZR k * ln 2 <= (Math_log2 v * 4 + 1 / 2) * ln 2)
        by (apply Rmult_le_compat_r; lra).
      lra.
  - apply ln_lt_inv.
    + apply pow_8_pos; exact Hv.
    + apply Rmult_lt_0_compat; [lra | apply pow_8_pos; exact Hpos].
    + rewrite ln_mult by (try apply pow_8_pos; lra).
      rewrite !ln_pow by assumption.
      rewrite Hln, <- Hlog.
      replace (INR 8) with 8 by (simpl; ring).
      assert ((Math_log2 v * 4 - 1 / 2) * ln 2 < IZR k * ln 2)
        by (apply Rmult_lt_compat_r; lra).
      lra.
Qed.

Lemma pow_8_lt_inv (a b : R) : 0 <= a -> 0 <= b -> a ^ 8 < b ^ 8 -> a < b.
Proof.
  intros Ha Hb Hlt.
  destruct (Rlt_dec a b) as [Hab|Hab]; [exact Hab|].
  assert (b ^ 8 <= a ^ 8) by (apply pow_incr; lra).
  lra.
Qed.

(** X16.  Snapping a zoom level: [roundToPow v 4] is positive, is 2 to a
    whole number of quarters, stays within a factor of the eighth root of 2
    of a positive [v], and is kept by a second snapping. *)
Theorem roundToPow_snaps (v : R) :
  0 < v ->
  0 < roundToPow v 4
  /\ (exists k : Z, roundToPow v 4 = Math_pow 2 (IZR k / 4))
  /\ roundToPow v 4 ^ 8 <= 2 * v ^ 8
  /\ v ^ 8 < 2 * roundToPow v 4 ^ 8
  /\ roundToPow (roundToPow v 4) 4 = roundToPow v 4.
Proof.
  intros Hv.
  destruct (roundToPow_ratio v Hv) as [Hupper Hlower].
  destruct (roundToPow_exponent v 4) as (k & Hpow & _).
  split; [apply roundToPow_pos|].
  split; [exists k; exact Hpow|].
  split; [exact Hupper|]. split; [exact Hlower|].
  rewrite Hpow; unfold roundToPow at 1.
  rewrite Math_log2_pow.
  replace (IZR k / 4 * 4) with (IZR k) by field.
  rewrite Math_round_integer; reflexivity.
Qed.

Lemma roundToPow_snaps_witness :
  roundToPow (roundToPow 3 4) 4 = roundToPow 3 4.
Proof.
  apply (roundToPow_snaps 3); lra.
Defined.

(** X17.  The zoom keys point the right way: on a camera with a positive
    zoom level the zoom-in key sets a target above the present zoom level and
    the zoom-out key a target below it, both positive; the key changes
    neither the zoom level itself nor the centre. *)
Theorem zoom_keys_direction (c : Camera) :
  0 < zoomLevel c ->
  (exists target : R,
      desiredZoom (keyBindingHandler KeyMapZoomIn c) = Some target
      /\ zoomLevel c < target)
  /\ (exists target : R,
         desiredZoom (keyBindingHandler KeyMapZoomOut c) = Some target
         /\ 0 < target < zoomLevel c)
  /\ zoomLevel (keyBindingHandler KeyMapZoomIn c) = zoomLevel c
  /\ zoomLevel (keyBindingHandler KeyMapZoomOut c) = zoomLevel c
  /\ center (keyBindingHandler KeyMapZoomIn c) = center c
  /\ center (keyBindingHandler KeyMapZoomOut c) = center c.
Proof.
  intros Hzoom.
  pose proof (pow_8_pos _ Hzoom) as Hpow.
  split; [|split; [|repeat split]].
  - exists (roundToPow (zoomLevel c * (12 / 10)) 4); split; [reflexivity|].
    destruct (roundToPow_ratio (zoomLevel c * (12 / 10))) as [_ Hlower];
      [lra|].
    pose proof (roundToPow_pos (zoomLevel c * (12 / 10)) 4) as Hpos.
    apply pow_8_lt_inv; [lra | lra |].
    rewrite Rpow_mult_distr in Hlower.
    assert (Hfactor : 2 < (12 / 10) ^ 8) by (unfold pow; lra).
    assert (2 * zoomLevel c ^ 8 < zoomLevel c ^ 8 * (12 / 10) ^ 8) by nra.
    lra.
  - exists (roundToPow (zoomLevel c * (8 / 10)) 4); split; [reflexivity|].
    destruct (roundToPow_ratio (zoomLevel c * (8 / 10))) as [Hupper _];
      [lra|].
    pose proof (roundToPow_pos (zoomLevel c * (8 / 10)) 4) as Hpos.
    split; [exact Hpos|].
    apply pow_8_lt_inv; [lra | lra |].
    rewrite Rpow_mult_distr in Hupper.
    assert (Hfactor : 2 * (8 / 10) ^ 8 < 1) by (unfold pow; lra).
    assert (2 * (zoomLevel c ^ 8 * (8 / 10) ^ 8) < zoomLevel c ^ 8) by nra.
    lra.
Qed.

Lemma zoom_keys_direction_witness :
  exists target : R,
    desiredZoom (keyBindingHandler KeyMapZoomIn Example.idle) = Some target
    /\ zoomLevel Example.idle < target.
Proof.
  apply (zoom_keys_direction Example.idle).
  simpl; lra.
Defined.

(** ** The mouse wheel *)

Lemma Math_sign_cases (a : R) :
  (a > 0 /\ Math_sign a = 1) \/ (a < 0 /\ Math_sign a = -1)
  \/ (a = 0 /\ Math_sign a = 0).
Proof.
  unfold Math_sign.
  destruct (Js.gt a 0) eqn:Hgt.
  - apply JsFacts.gt_true in Hgt; left; split; [exact Hgt | reflexivity].
  - apply JsFacts.gt_false in Hgt.
    destruct (Js.lt a 0) eqn:Hlt.
    + apply JsFacts.lt_true in Hlt; right; left; split;
        [exact Hlt | reflexivity].
    + apply JsFacts.lt_false in Hlt; right; right; split; [lra | reflexivity].
Qed.

Lemma onMouseWheel_camera (root : GameRoot) (event : WheelEvent) (w : World) :
  let scaled :=
    clampZoomLevel root
      (set_zoomLevel
         (zoomLevel (camera w) * (1 + Math_sign (deltaY event) * (-15 / 100)))
         (camera w)) in
  onMouseWheel root event w
  = set_camera
      (set_desiredZoom (Some (roundToPow (zoomLevel scaled) 4)) scaled) w.
Proof. reflexivity. Qed.

(** X18.  The mouse wheel zooms at once, by 15 percent and inside the limits.
    With the limits on and positive, on a camera inside them, [onMouseWheel]
    leaves the zoom level inside the limits; scrolling up (a negative
    [deltaY]) raises it, by a factor of at most 1.15, scrolling down lowers
    it, by a factor of at least 0.85, and a [deltaY] of 0 keeps it.  The
    centre stays, and the zoom target is set to the new level snapped to a
    quarter power of two, within a factor of the eighth root of 2 of it. *)
Theorem wheel_zooms_within_limits (root : GameRoot) (event : WheelEvent)
  (w : World) :
  zoomLimitsDisabled root = false ->
  0 < getMinimumZoom root <= getMaximumZoom root ->
  withinZoomLimits root (camera w) ->
  let before := zoomLevel (camera w) in
  let after := zoomLevel (camera (onMouseWheel root event w)) in
  withinZoomLimits root (camera (onMouseWheel root event w))
  /\ (deltaY event < 0 -> before <= after <= before * (115 / 100))
  /\ (deltaY event > 0 -> before * (85 / 100) <= after <= before)
  /\ (deltaY event = 0 -> after = before)
  /\ center (camera (onMouseWheel root event w)) = center (camera w)
  /\ exists target : R,
       desiredZoom (camera (onMouseWheel root event w)) = Some target
       /\ target ^ 8 <= 2 * after ^ 8 /\ after ^ 8 < 2 * target ^ 8.
Proof.
  intros Hgate [Hmin Horder] Hwithin before after; subst before after.
  rewrite onMouseWheel_camera; cbv zeta.
  set (scaled := clampZoomLevel root _).
  cbn [camera set_camera zoomLevel set_desiredZoom center desiredZoom].
  assert (Hscaled : zoomLevel scaled
                    = clamp (zoomLevel (camera w)
                             * (1 + Math_sign (deltaY event) * (-15 / 100)))
                        (getMinimumZoom root) (getMaximumZoom root)).
  { unfold scaled; rewrite zoomLevel_clampZoomLevel_gate, Hgate.
    reflexivity. }
  assert (Hcenter : center scaled = center (camera w)).
  { unfold scaled; rewrite center_clampZoomLevel; reflexivity. }
  unfold withinZoomLimits in *.
  pose proof (clamp_within (getMinimumZoom root) (getMaximumZoom root)
                (zoomLevel (camera w)
                 * (1 + Math_sign (deltaY event) * (-15 / 100))) Horder)
    as Hclamped.
  rewrite <- Hscaled in Hclamped.
  split; [exact Hclamped|].
  assert (Hdirection :
            (deltaY event < 0 ->
             zoomLevel (camera w) <= zoomLevel scaled
             <= zoomLevel (camera w) * (115 / 100))
            /\ (deltaY event > 0 ->
                zoomLevel (camera w) * (85 / 100) <= zoomLevel scaled
                <= zoomLevel (camera w))
            /\ (deltaY event = 0 -> zoomLevel scaled = zoomLevel (camera w))).
  { rewrite Hscaled.
    destruct (Math_sign_cases (deltaY event))
      as [[Hsign ->]|[[Hsign ->]|[Hsign ->]]];
      unfold clamp, Math_max, Math_min, Rmax, Rmin;
      (split; [|split]); intros Hdelta; try lra;
      case_compare; lra. }
  destruct Hdirection as (Hup & Hdown & Hnone).
  split; [exact Hup|]. split; [exact Hdown|]. split; [exact Hnone|].
  split; [exact Hcenter|].
  exists (roundToPow (zoomLevel scaled) 4); split; [reflexivity|].
  apply roundToPow_ratio; lra.
Qed.

Lemma wheel_zooms_within_limits_witness :
  withinZoomLimits Example.root
    (camera (onMouseWheel Example.root {| deltaY := -100 |}
               (Example.worldWith Example.idle))).
Proof.
  apply (wheel_zooms_within_limits Example.root {| deltaY := -100 |}
           (Example.worldWith Example.idle)).
  - reflexivity.
  - simpl; lra.
  - unfold withinZoomLimits; simpl; lra.
Defined.

(** ** The initial zoom *)

Lemma div_ge_of_mul_le (a z b : R) : 0 < z -> b * z <= a -> b <= a / z.
Proof.
  intros Hz Hle.
  apply Rmult_le_reg_r with (r := z); [exact Hz|].
  replace (a / z * z) with a by (field; lra).
  exact Hle.
Qed.

(** X19.  The initial zoom shows fifteen tiles along the shorter side of the
    surface: with a positive tile size and a surface of positive width and
    height, [findInitialZoom] is positive, and a camera at that zoom level
    has a viewport of at least 15 tiles in width and in height, and of
    exactly 15 tiles in the smaller of the two. *)
Theorem findInitialZoom_shows_15_tiles (root : GameRoot) (c : Camera) :
  0 < tileSize root -> 0 < gameWidth root -> 0 < gameHeight root ->
  zoomLevel c = findInitialZoom root ->
  0 < findInitialZoom root
  /\ 15 * tileSize root <= getViewportWidth root c
  /\ 15 * tileSize root <= getViewportHeight root c
  /\ Math_min (getViewportWidth root c) (getViewportHeight root c)
     = 15 * tileSize root.
Proof.
  intros Htile Hwidth Hheight Hzoom.
  unfold getViewportWidth, getViewportHeight; rewrite Hzoom.
  unfold findInitialZoom; cbv zeta.
  set (t := 15 * tileSize root).
  assert (Ht : 0 < t) by (unfold t; lra).
  assert (Hx : 0 < gameWidth root / t) by (apply Rdiv_lt_0_compat; lra).
  assert (Hy : 0 < gameHeight root / t) by (apply Rdiv_lt_0_compat; lra).
  assert (Hxt : t * (gameWidth root / t) = gameWidth root) by (field; lra).
  assert (Hyt : t * (gameHeight root / t) = gameHeight root) by (field; lra).
  assert (Hmin : (gameWidth root / t <= gameHeight root / t
                  /\ Math_min (gameWidth root / t) (gameHeight root / t)
                     = gameWidth root / t)
                 \/ (gameHeight root / t <= gameWidth root / t
                     /\ Math_min (gameWidth root / t) (gameHeight root / t)
                        = gameHeight root / t)).
  { unfold Math_min, Rmin.
    destruct (Rle_dec (gameWidth root / t) (gameHeight root / t));
      [left | right]; split; try reflexivity; lra. }
  destruct Hmin as [[Hle ->]|[Hgt ->]].
  - assert (Hwide : gameWidth root <= gameHeight root).
    { rewrite <- Hxt, <- Hyt; apply Rmult_le_compat_l; lra. }
    assert (Hexact : gameWidth root / (gameWidth root / t) = t)
      by (field; lra).
    assert (Hother : t <= gameHeight root / (gameWidth root / t))
      by (apply div_ge_of_mul_le; lra).
    split; [exact Hx|]. split; [lra|]. split; [exact Hother|].
    unfold Math_min; rewrite Hexact; apply Rmin_left; exact Hother.
  - assert (Hwide : gameHeight root <= gameWidth root).
    { rewrite <- Hxt, <- Hyt; apply Rmult_le_compat_l; lra. }
    assert (Hexact : gameHeight root / (gameHeight root / t) = t)
      by (field; lra).
    assert (Hother : t <= gameWidth root / (gameHeight root / t))
      by (apply div_ge_of_mul_le; lra).
    split; [exact Hy|]. split; [exact Hother|]. split; [lra|].
    unfold Math_min; rewrite Hexact; apply Rmin_right; exact Hother.
Qed.

Lemma findInitialZoom_shows_15_tiles_witness :
  15 * tileSize Example.root
  <= getViewportWidth Example.root
       (set_zoomLevel (findInitialZoom Example.root) Example.idle).
Proof.
  apply (findInitialZoom_shows_15_tiles Example.root
           (set_zoomLevel (findInitialZoom Example.root) Example.idle)).
  - simpl; lra.
  - simpl; lra.
  - simpl; lra.
  - reflexivity.
Defined.

(** ** The screen shake *)

Lemma shake_kick_bounded (random scale amount : R) :
  0 <= random < 1 -> 0 <= scale ->
  Rabs (2 * (random - 5 / 10) * scale * amount) <= scale * Rabs amount.
Proof.
  intros Hrandom Hscale.
  replace (2 * (random - 5 / 10) * scale * amount)
    with ((2 * (random - 5 / 10)) * (scale * amount)) by ring.
  rewrite Rabs_mult, (Rabs_mult scale amount), (Rabs_pos_eq scale Hscale).
  assert (Hunit : Rabs (2 * (random - 5 / 10)) <= 1)
    by (unfold Rabs; case_compare; lra).
  assert (Hrest : 0 <= scale * Rabs amount)
    by (apply Rmult_le_pos; [exact Hscale | apply Rabs_pos]).
  replace (scale * Rabs amount) with (1 * (scale * Rabs amount)) at 2 by ring.
  apply Rmult_le_compat_r; assumption.
Qed.

Lemma addScreenShake_currentShake (amount random1 random2 : R) (c : Camera) :
  let scale := 1 / (1 + 3 * Vector.length (currentShake c)) in
  currentShake (addScreenShake amount random1 random2 c)
  = Vector.mk
      (Vector.x (currentShake c) + 2 * (random1 - 5 / 10) * scale * amount)
      (Vector.y (currentShake c) + 2 * (random2 - 5 / 10) * scale * amount).
Proof. reflexivity. Qed.

(** X20.  A screen shake is damped by the shake already present: with the
    two random draws in the range of [Math_random], from 0 up to but not
    including 1, [addScreenShake] moves each component of the shake by at
    most the amount divided by 1 + 3 times the present shake length, which is
    at most the amount; the zoom level and the centre are not touched. *)
Theorem addScreenShake_bounded (amount random1 random2 : R) (c : Camera) :
  0 <= random1 < 1 -> 0 <= random2 < 1 ->
  let before := currentShake c in
  let after := currentShake (addScreenShake amount random1 random2 c) in
  let limit := Rabs amount / (1 + 3 * Vector.length before) in
  Rabs (Vector.x after - Vector.x before) <= limit
  /\ Rabs (Vector.y after - Vector.y before) <= limit
  /\ limit <= Rabs amount
  /\ zoomLevel (addScreenShake amount random1 random2 c) = zoomLevel c
  /\ center (addScreenShake amount random1 random2 c) = center c.
Proof.
  intros Hrandom1 Hrandom2 before after limit; subst before after limit.
  rewrite addScreenShake_currentShake; cbv zeta; cbn [Vector.x Vector.y].
  pose proof (VectorFacts.length_nonneg (currentShake c)) as Hlength.
  set (len := Vector.length (currentShake c)) in *.
  assert (Hscale : 0 < 1 / (1 + 3 * len) <= 1).
  { split.
    - apply Rdiv_lt_0_compat; lra.
    - apply Rmult_le_reg_r with (r := 1 + 3 * len); [lra|].
      replace (1 / (1 + 3 * len) * (1 + 3 * len)) with 1 by (field; lra).
      lra. }
  assert (Hlimit : Rabs amount / (1 + 3 * len)
                   = 1 / (1 + 3 * len) * Rabs amount) by (field; lra).
  rewrite Hlimit.
  split; [|split; [|split; [|split; reflexivity]]].
  - replace (Vector.x (currentShake c)
             + 2 * (random1 - 5 / 10) * (1 / (1 + 3 * len)) * amount
             - Vector.x (currentShake c))
      with (2 * (random1 - 5 / 10) * (1 / (1 + 3 * len)) * amount) by ring.
    apply shake_kick_bounded; [exact Hrandom1 | lra].
  - replace (Vector.y (currentShake c)
             + 2 * (random2 - 5 / 10) * (1 / (1 + 3 * len)) * amount
             - Vector.y (currentShake c))
      with (2 * (random2 - 5 / 10) * (1 / (1 + 3 * len)) * amount) by ring.
    apply shake_kick_bounded; [exact Hrandom2 | lra].
  - replace (Rabs amount) with (1 * Rabs amount) at 2 by ring.
    apply Rmult_le_compat_r; [apply Rabs_pos | lra].
Qed.

Lemma addScreenShake_bounded_witness :
  Rabs (Vector.x (currentShake (addScreenShake 5 (1 / 4) (3 / 4) Example.idle))
        - Vector.x (currentShake Example.idle))
  <= Rabs 5 / (1 + 3 * Vector.length (currentShake Example.idle)).
Proof.
  apply (addScreenShake_bounded 5 (1 / 4) (3 / 4) Example.idle); lra.
Defined.

(** ** The pan set by [setPan] *)

Section PanBlend.

Variable root : GameRoot.
Variables now dt : R.

Lemma pans_after_zooming (c : Camera) :
  currentPan (internalUpdateZooming now dt c) = currentPan c
  /\ desiredPan (internalUpdateZooming now dt c) = desiredPan c.
Proof.
  unfold internalUpdateZooming; destruct c; simpl; channel_cases;
    split; reflexivity.
Qed.

Lemma pans_after_centering (c : Camera) :
  currentPan (internalUpdateCentering now dt c) = currentPan c
  /\ desiredPan (internalUpdateCentering now dt c) = desiredPan c.
Proof.
  unfold internalUpdateCentering; destruct c; simpl; channel_cases;
    split; reflexivity.
Qed.

Lemma pans_after_keyboardForce (c : Camera) :
  currentPan (internalUpdateKeyboardForce root now dt c) = currentPan c
  /\ desiredPan (internalUpdateKeyboardForce root now dt c) = desiredPan c.
Proof.
  unfold internalUpdateKeyboardForce; destruct c; simpl.
  match goal with |- context [if ?b then _ else _] => destruct b end;
    split; reflexivity.
Qed.

Lemma pans_after_panning (c : Camera) :
  desiredPan (internalUpdatePanning root now dt c) = desiredPan c
  /\ currentPan (internalUpdatePanning root now dt c)
     = if negb (currentlyMoving c) && negb (currentlyPinching c)
       then mixVector (currentPan c) (desiredPan c) (6 / 100)
       else currentPan c.
Proof.
  unfold internalUpdatePanning.
  destruct c as [? ? moving ? ? ? pinching ? ? ? ? ? ? ? velocity].
  destruct moving, pinching; cam_simpl; try (split; reflexivity).
  destruct (Js.ge _ _); cam_simpl; split; reflexivity.
Qed.

Lemma gesture_after_panning (c : Camera) :
  currentlyMoving (internalUpdatePanning root now dt c) = currentlyMoving c
  /\ desiredCenter (internalUpdatePanning root now dt c) = desiredCenter c.
Proof.
  unfold internalUpdatePanning; destruct c; simpl; channel_cases;
    split; reflexivity.
Qed.

Lemma gesture_after_zooming (c : Camera) :
  currentlyMoving (internalUpdateZooming now dt c) = currentlyMoving c
  /\ desiredCenter (internalUpdateZooming now dt c) = desiredCenter c
  /\ center (internalUpdateZooming now dt c) = center c.
Proof.
  unfold internalUpdateZooming; destruct c; simpl; channel_cases;
    repeat split; reflexivity.
Qed.

(** Without inertial velocity the pan channel moves the center by the
    blended pan only. *)
Lemma panning_center_still (c : Camera) :
  currentlyMoving c = false -> currentlyPinching c = false ->
  touchPostMoveVelocity c = Vector.mk 0 0 ->
  center (internalUpdatePanning root now dt c)
  = Vector.add (center c)
      (Vector.multiplyScalar
         (mixVector (currentPan c) (desiredPan c) (6 / 100))
         (5 / 10 * dt / zoomLevel c)).
Proof.
  destruct c as [zoom [cx cy] moving ? ? ? pinching ? ? ? pan wish target ?
                   velocity].
  cbn [currentlyMoving currentlyPinching touchPostMoveVelocity].
  intros -> -> ->.
  assert (Hshort :
    Js.ge (Vector.length (Vector.multiplyScalar (Vector.mk 0 0) velocityFade))
      velocityMax = false).
  { apply JsFacts.ge_false; rewrite length_zero_scaled.
    unfold velocityMax; lra. }
  unfold internalUpdatePanning; cam_simpl; rewrite Hshort; cam_simpl.
  unfold Vector.add, Vector.multiplyScalar; cbn [Vector.x Vector.y].
  apply f_equal2; ring.
Qed.

End PanBlend.

Lemma mixVector_contracts (a b : Vector.t) (k : R) :
  Vector.sub (mixVector a b k) b
  = Vector.multiplyScalar (Vector.sub a b) (1 - k).
Proof.
  unfold mixVector, Vector.sub, Vector.multiplyScalar; cbn [Vector.x Vector.y].
  apply f_equal2; ring.
Qed.

Lemma updateLoopBody_pans (root : GameRoot) (now : R) (c : Camera) :
  desiredPan (snd (updateLoopBody root now c)) = desiredPan c
  /\ currentPan (snd (updateLoopBody root now c))
     = if negb (currentlyMoving c) && negb (currentlyPinching c)
       then mixVector (currentPan c) (desiredPan c) (6 / 100)
       else currentPan c.
Proof.
  unfold updateLoopBody; cbv zeta; cbn [snd].
  set (now' := now + physicsStepSizeMs).
  set (c0 := set_cameraUpdateTimeBucket _ c).
  destruct (pans_after_panning root now' physicsStepSizeMs c0) as (Hd1 & Hc1).
  set (c1 := internalUpdatePanning root now' physicsStepSizeMs c0) in *.
  destruct (pans_after_zooming now' physicsStepSizeMs c1) as (Hc2 & Hd2).
  set (c2 := internalUpdateZooming now' physicsStepSizeMs c1) in *.
  destruct (pans_after_centering now' physicsStepSizeMs c2) as (Hc3 & Hd3).
  set (c3 := internalUpdateCentering now' physicsStepSizeMs c2) in *.
  destruct (pans_after_keyboardForce root now' physicsStepSizeMs
              (internalUpdateShake now' physicsStepSizeMs c3)) as (Hc4 & Hd4).
  rewrite Hc4, Hd4.
  change (desiredPan (internalUpdateShake now' physicsStepSizeMs c3))
    with (desiredPan c3).
  change (currentPan (internalUpdateShake now' physicsStepSizeMs c3))
    with (currentPan c3).
  rewrite Hc3, Hd3, Hc2, Hd2, Hc1, Hd1.
  split; reflexivity.
Qed.

Lemma updateLoopBody_center_still (root : GameRoot) (now : R) (c : Camera) :
  currentlyMoving c = false -> currentlyPinching c = false ->
  touchPostMoveVelocity c = Vector.mk 0 0 ->
  desiredCenter c = None ->
  keysBalanced root ->
  center (snd (updateLoopBody root now c))
  = Vector.add (center c)
      (Vector.multiplyScalar
         (mixVector (currentPan c) (desiredPan c) (6 / 100))
         (5 / 10 * physicsStepSizeMs / zoomLevel c)).
Proof.
  intros Hfree Hpinch Hstill Hnone Hkeys.
  unfold updateLoopBody; cbv zeta; cbn [snd].
  set (now' := now + physicsStepSizeMs).
  set (c0 := set_cameraUpdateTimeBucket _ c).
  pose proof (panning_center_still root now' physicsStepSizeMs c0
                Hfree Hpinch Hstill) as Hcenter1.
  destruct (gesture_after_panning root now' physicsStepSizeMs c0)
    as (Hmoving1 & Htarget1).
  set (c1 := internalUpdatePanning root now' physicsStepSizeMs c0) in *.
  destruct (gesture_after_zooming now' physicsStepSizeMs c1)
    as (Hmoving2 & Htarget2 & Hcenter2).
  set (c2 := internalUpdateZooming now' physicsStepSizeMs c1) in *.
  assert (Hnone2 : desiredCenter c2 = None)
    by (rewrite Htarget2, Htarget1; exact Hnone).
  assert (Hfree2 : currentlyMoving c2 = false)
    by (rewrite Hmoving2, Hmoving1; exact Hfree).
  assert (Hcentering : internalUpdateCentering now' physicsStepSizeMs c2 = c2).
  { unfold internalUpdateCentering; rewrite Hnone2; reflexivity. }
  rewrite Hcentering.
  rewrite (keyboardForce_balanced root now' physicsStepSizeMs
             (internalUpdateShake now' physicsStepSizeMs c2) Hfree2 Hnone2
             Hkeys).
  change (center (internalUpdateShake now' physicsStepSizeMs c2))
    with (center c2).
  rewrite Hcenter2, Hcenter1; reflexivity.
Qed.

(** X21.  The pan follows the desired pan: one integration step of [update]
    leaves the desired pan as it is; outside a drag and a pinch it brings the
    current pan to 0.94 of its distance from the desired pan, and during a
    drag or a pinch it leaves the current pan alone.  On a camera without
    gesture, inertial velocity or centering target, whose zoom level and
    zoom target (if any) are above 0, with opposite keys balanced, the step
    moves the center by the new current pan times half the step size over
    the zoom level. *)
Theorem pan_blends_toward_desired (root : GameRoot) (now : R) (c : Camera) :
  let c' := snd (updateLoopBody root now c) in
  desiredPan c' = desiredPan c
  /\ (currentlyMoving c = false -> currentlyPinching c = false ->
      Vector.sub (currentPan c') (desiredPan c)
      = Vector.multiplyScalar (Vector.sub (currentPan c) (desiredPan c))
          (94 / 100))
  /\ (currentlyMoving c = true \/ currentlyPinching c = true ->
      currentPan c' = currentPan c)
  /\ (currentlyMoving c = false -> currentlyPinching c = false ->
      touchPostMoveVelocity c = Vector.mk 0 0 ->
      desiredCenter c = None ->
      zoomPositive c ->
      keysBalanced root ->
      center c'
      = Vector.add (center c)
          (Vector.multiplyScalar (currentPan c')
             (5 / 10 * physicsStepSizeMs / zoomLevel c))).
Proof.
  intros c'; subst c'.
  destruct (updateLoopBody_pans root now c) as (Hdesired & Hcurrent).
  split; [exact Hdesired|]. split; [|split].
  - intros Hfree Hpinch; rewrite Hcurrent, Hfree, Hpinch; cbn [negb andb].
    rewrite mixVector_contracts.
    unfold Vector.multiplyScalar; apply f_equal2; field.
  - intros [Hmoving|Hpinch]; rewrite Hcurrent.
    + rewrite Hmoving; reflexivity.
    + rewrite Hpinch; destruct (currentlyMoving c); reflexivity.
  - intros Hfree Hpinch Hstill Hnone Hpositive Hkeys.
    rewrite Hcurrent, Hfree, Hpinch; cbn [negb andb].
    apply updateLoopBody_center_still; assumption.
Qed.

(** X22.  [viewportWillChange] does not see a pan: [setPan] leaves its
    answer as it was, and yet, on a camera with a positive zoom level, with
    no gesture, inertial velocity, centering target or current pan, and with
    opposite keys balanced, the first integration step after a [setPan] with
    a vector other than (0, 0) moves the center. *)
Theorem setPan_moves_unreported (root : GameRoot) (now : R) (pan : Vector.t)
  (c : Camera) :
  0 < zoomLevel c ->
  currentlyMoving c = false -> currentlyPinching c = false ->
  touchPostMoveVelocity c = Vector.mk 0 0 ->
  desiredCenter c = None ->
  currentPan c = Vector.mk 0 0 ->
  keysBalanced root ->
  pan <> Vector.mk 0 0 ->
  viewportWillChange (setPan pan c) = viewportWillChange c
  /\ center (snd (updateLoopBody root now (setPan pan c))) <> center c.
Proof.
  intros Hzoom Hfree Hpinch Hstill Hnone Hpan Hkeys Hnonzero.
  split; [reflexivity|].
  rewrite (updateLoopBody_center_still root now (setPan pan c)
             Hfree Hpinch Hstill Hnone Hkeys).
  change (center (setPan pan c)) with (center c).
  change (zoomLevel (setPan pan c)) with (zoomLevel c).
  change (currentPan (setPan pan c)) with (currentPan c).
  change (desiredPan (setPan pan c)) with (Vector.copy pan).
  rewrite Hpan.
  pose proof physicsStepSizeMs_value as Hstep.
  set (k := 5 / 10 * physicsStepSizeMs / zoomLevel c).
  assert (Hk : 0 < k).
  { unfold k; apply Rdiv_lt_0_compat; [rewrite Hstep; lra | exact Hzoom]. }
  clearbody k.
  destruct pan as [px py]; destruct (center c) as [cx cy].
  unfold mixVector, Vector.add, Vector.multiplyScalar, Vector.copy;
    cbn [Vector.x Vector.y].
  intros Hsame; apply Hnonzero.
  assert (Hx : cx + (0 * (1 - 6 / 100) + px * (6 / 100)) * k = cx)
    by (apply (f_equal Vector.x) in Hsame; exact Hsame).
  assert (Hy : cy + (0 * (1 - 6 / 100) + py * (6 / 100)) * k = cy)
    by (apply (f_equal Vector.y) in Hsame; exact Hsame).
  assert (Hpx : px * k = 0) by lra.
  assert (Hpy : py * k = 0) by lra.
  apply Rmult_integral in Hpx; apply Rmult_integral in Hpy.
  destruct Hpx as [->|]; [|lra]; destruct Hpy as [->|]; [|lra].
  reflexivity.
Qed.

Lemma setPan_moves_unreported_witness :
  viewportWillChange (setPan (Vector.mk 1 0) Example.idle)
  = viewportWillChange Example.idle
  /\ center (snd (updateLoopBody Example.root 0
                    (setPan (Vector.mk 1 0) Example.idle)))
     <> center Example.idle.
Proof.
  apply (setPan_moves_unreported Example.root 0 (Vector.mk 1 0) Example.idle).
  - simpl; lra.
  - reflexivity.
  - reflexivity.
  - reflexivity.
  - reflexivity.
  - reflexivity.
  - split; reflexivity.
  - intros Hzero; apply (f_equal Vector.x) in Hzero; simpl in Hzero; lra.
Defined.

(** ** Putting two fingers down *)

Lemma onTouchStart_two (root : GameRoot) (performanceNow : R)
  (event : TouchEvent) (touch1 touch2 : Touch) (w : World) :
  touches event = [touch1; touch2] ->
  camera (onTouchStart root performanceNow event w)
  = set_lastPinchPositions
      (Some (Vector.mk (touch_clientX touch1) (touch_clientY touch1),
             Vector.mk (touch_clientX touch2) (touch_clientY touch2)))
      (set_currentlyPinching true
         (set_currentlyMoving false
            (set_touchPostMoveVelocity (Vector.mk 0 0) (camera w)))).
Proof.
  intros Htouches; unfold onTouchStart; rewrite Htouches; reflexivity.
Qed.

Lemma pinchMove_pinching (root : GameRoot) (touch1 touch2 : Touch)
  (w : World) :
  currentlyPinching (camera (worldOf (pinchMove root touch1 touch2 w)))
  = currentlyPinching (camera w).
Proof.
  unfold pinchMove; cbv zeta.
  destruct (lastPinchPositions (camera w)); [|reflexivity].
  cam_simpl.
  destruct (desiredZoom (camera w)) as [dz|]; cam_simpl;
    [destruct (Js.truthy dz)|]; cam_simpl; reflexivity.
Qed.

(** X23.  Putting two fingers down starts a pinch and moves nothing: after
    [onTouchStart] with two touches the camera is pinching and not dragging;
    and when the two fingers are at least 0.001 apart and the zoom level is
    inside the limits and not 0, a following [onTouchMove] with the fingers
    where they were returns and leaves the zoom level and the center as they
    were before the touch. *)
Theorem pinch_start_moves_nothing (root : GameRoot) (startTime moveTime : R)
  (touch1 touch2 : Touch) (changed changed' : list Touch) (w : World) :
  let start := {| touches := [touch1; touch2]; changedTouches := changed |} in
  let move := {| touches := [touch1; touch2]; changedTouches := changed' |} in
  let pos1 := Vector.mk (touch_clientX touch1) (touch_clientY touch1) in
  let pos2 := Vector.mk (touch_clientX touch2) (touch_clientY touch2) in
  1 / 1000 <= Vector.distance pos1 pos2 ->
  zoomLevel (camera w) <> 0 ->
  withinZoomLimits root (camera w) ->
  let started := onTouchStart root startTime start w in
  currentlyPinching (camera started) = true
  /\ currentlyMoving (camera started) = false
  /\ exists w',
       onTouchMove root moveTime move started = Normal w'
       /\ zoomLevel (camera w') = zoomLevel (camera w)
       /\ center (camera w') = center (camera w)
       /\ currentlyPinching (camera w') = true.
Proof.
  intros start move pos1 pos2 Hapart Hzoom Hwithin started.
  pose proof (onTouchStart_two root startTime start touch1 touch2 w eq_refl)
    as Hstarted.
  fold started pos1 pos2 in Hstarted.
  assert (Hpinch : currentlyPinching (camera started) = true)
    by (rewrite Hstarted; reflexivity).
  assert (Hlast : lastPinchPositions (camera started) = Some (pos1, pos2))
    by (rewrite Hstarted; reflexivity).
  assert (Hzoom0 : zoomLevel (camera started) = zoomLevel (camera w))
    by (rewrite Hstarted; reflexivity).
  assert (Hcenter0 : center (camera started) = center (camera w))
    by (rewrite Hstarted; reflexivity).
  split; [exact Hpinch|].
  split; [rewrite Hstarted; reflexivity|].
  clearbody started.
  destruct (pinchMove_result root touch1 touch2
              (set_lastTouchTime moveTime started) pos1 pos2 Hlast)
    as (w1 & Hmove & Hz & Hcenter & _).
  cbn [camera set_lastTouchTime] in Hz, Hcenter.
  fold pos1 pos2 in Hz, Hcenter.
  assert (Hone : Vector.distance pos1 pos2
                 / Math_max (1 / 1000) (Vector.distance pos1 pos2) = 1).
  { unfold Math_max; rewrite Rmax_right by exact Hapart.
    field; lra. }
  rewrite Hone, Hzoom0 in Hz; rewrite Hone, Hzoom0, Hcenter0 in Hcenter.
  assert (Hpinch1 : currentlyPinching (camera w1) = true).
  { pose proof (pinchMove_pinching root touch1 touch2
                  (set_lastTouchTime moveTime started)) as Hkept.
    rewrite Hmove in Hkept; cbn [worldOf camera set_lastTouchTime] in Hkept.
    rewrite Hkept; exact Hpinch. }
  exists (set_camera (clampZoomLevel root (camera w1)) w1).
  split.
  { unfold onTouchMove, move; cbn [touches camera set_lastTouchTime].
    rewrite Hpinch, Hmove; reflexivity. }
  cbn [camera set_camera].
  split; [|split].
  - rewrite zoomLevel_clampZoomLevel_gate, Hz.
    replace (zoomLevel (camera w) * 1) with (zoomLevel (camera w)) by ring.
    destruct (zoomLimitsDisabled root); [reflexivity|].
    apply clamp_fixes; exact Hwithin.
  - rewrite center_clampZoomLevel, Hcenter.
    destruct (center (camera w)) as [cx cy].
    unfold Vector.add, Vector.divideScalar, Vector.multiplyScalar,
      Vector.sub, Vector.centerPoint; cbn [Vector.x Vector.y].
    apply f_equal2; field; exact Hzoom.
  - rewrite <- Hpinch1; unfold clampZoomLevel.
    destruct (zoomLimitsDisabled root); [reflexivity|]; cam_simpl.
    destruct (desiredZoom (camera w1)) as [dz|];
      [destruct (Js.truthy dz)|]; reflexivity.
Qed.

Lemma pinch_start_moves_nothing_witness :
  let touch1 := {| touch_clientX := 100; touch_clientY := 300 |} in
  let touch2 := {| touch_clientX := 300; touch_clientY := 300 |} in
  exists w',
    onTouchMove Example.root 6
      {| touches := [touch1; touch2]; changedTouches := [] |}
      (onTouchStart Example.root 5
         {| touches := [touch1; touch2]; changedTouches := [] |}
         (Example.worldWith Example.idle)) = Normal w'
    /\ zoomLevel (camera w') = zoomLevel Example.idle
    /\ center (camera w') = center Example.idle.
Proof.
  intros touch1 touch2.
  destruct (pinch_start_moves_nothing Example.root 5 6 touch1 touch2 [] []
              (Example.worldWith Example.idle))
    as (_ & _ & w' & Hmove & Hzoom & Hcenter & _).
  - cbn [touch_clientX touch_clientY touch1 touch2].
    rewrite distance_horizontal, Rabs_left; lra.
  - simpl; lra.
  - unfold withinZoomLimits; simpl; lra.
  - exists w'; repeat split; assumption.
Defined.

(** ** Whether a further zoom is possible *)

(** X24.  The zoom queries agree with the limits: [canZoomIn] holds exactly
    when the zoom level is at least 0.01 below the maximum and [canZoomOut]
    exactly when it is at least 0.01 above the minimum, so neither holds at
    its own limit; and when the limits are at least 0.02 apart, one of the
    two holds for every camera. *)
Theorem zoom_queries_agree_with_limits (root : GameRoot) (c : Camera) :
  getMinimumZoom root + 2 / 100 <= getMaximumZoom root ->
  (canZoomIn root c = true <-> zoomLevel c <= getMaximumZoom root - 1 / 100)
  /\ (canZoomOut root c = true <-> getMinimumZoom root + 1 / 100 <= zoomLevel c)
  /\ (zoomLevel c = getMaximumZoom root -> canZoomIn root c = false)
  /\ (zoomLevel c = getMinimumZoom root -> canZoomOut root c = false)
  /\ canZoomIn root c || canZoomOut root c = true.
Proof.
  intros Hapart.
  unfold canZoomIn, canZoomOut, Js.le, Js.ge; cbv zeta.
  destruct (Rle_dec (zoomLevel c) (getMaximumZoom root - 1 / 100)) as [Hin|Hin];
    destruct (Rge_dec (zoomLevel c) (getMinimumZoom root + 1 / 100))
      as [Hout|Hout];
    cbn [orb];
    (split; [split; [intros; lra | intros; try reflexivity; lra]|]);
    (split; [split; [intros; lra | intros; try reflexivity; lra]|]);
    (split; [intros; try reflexivity; lra|]);
    (split; [intros; try reflexivity; lra|]);
    try reflexivity; lra.
Qed.

Lemma zoom_queries_agree_with_limits_witness :
  canZoomIn Example.root Example.idle || canZoomOut Example.root Example.idle
  = true.
Proof.
  apply (zoom_queries_agree_with_limits Example.root Example.idle).
  simpl; lra.
Defined.
